(** * LiteGraph: the graph model, the execution-order resolver, the scheduler
      and the 3-parameter shader composer

    A shallow embedding of [src/core/graph.js], [src/shader_lib/piece/3param_func.js]
    and [src/shader_nodes/3param_node.js].

    Conventions of the embedding.
    - A node is a JS object shared between [_nodes], [_nodes_by_id] and the
      ordered list: the graph holds object identities ([ref]) and the node
      objects live in a store [heap], so that a write through one alias is
      seen through every other.
    - JS objects used as dictionaries under numeric keys (node ids, link
      ids) are finite maps; the one that is enumerated ([M] in
      [computeExecutionOrder]) is a property list in enumeration order. The
      registries of global inputs and outputs are keyed by arbitrary names,
      which may meet the names inherited from [Object.prototype]: they are
      objects with a prototype chain, in a store of their own.
    - Ids and counters are JS numbers holding integers: [Z]. The fixed-step
      clock is a sum of doubles: binary64 floats. The readings of the
      millisecond clock are integers, and their products with 0.001 are kept
      exact.
    - Code that can throw returns a [result]. *)

From Stdlib Require Import ZArith QArith String.
From Stdlib Require Import PrimFloat.
From stdpp Require Import base gmap sets list strings functions relations pretty sorting.
Close Scope Q_scope.
#[global] Set Warnings "-clear-no-such-hyp".
#[global] Set Warnings "-inexact-float".

(** ** JS values *)

Inductive value :=
| VUndefined
| VNull
| VBool (b : bool)
| VNum (z : Z)
| VStr (s : string).

(** A JS number produced by integer arithmetic on a dictionary entry that may
    be missing: [undefined - 1] is [NaN], and [NaN == 0] is false. *)
Inductive jsnum :=
| Num (z : Z)
| NaN.

Definition jsnum_dec1 (o : option jsnum) : jsnum :=
  match o with
  | Some (Num z) => Num (z - 1)
  | Some NaN => NaN
  | None => NaN
  end.

Definition jsnum_is_zero (n : jsnum) : bool :=
  match n with
  | Num z => (z =? 0)%Z
  | NaN => false
  end.

(** ** Objects with a prototype chain

    The part of the object model of JS that a dictionary keyed by arbitrary
    names depends on: own properties, the prototype chain, and the accessor
    [__proto__] of [Object.prototype]. The file is not in strict mode. *)

Module JS.
Abbreviation loc := nat.

(** What a property holds: a primitive, or a reference to an object. *)
Inductive jsval :=
| Prim (v : value)
| Obj (l : loc).

Record object := mkObject {
  props : gmap string jsval;         (* the own properties *)
  proto : option loc                 (* [[Prototype]], [None] for null *)
}.

Abbreviation store := (gmap loc object).

(** [if(v)] *)
Definition truthy (v : jsval) : bool :=
  match v with
  | Prim VUndefined | Prim VNull => false
  | Prim (VBool b) => b
  | Prim (VNum z) => negb (z =? 0)%Z
  | Prim (VStr s) => negb (String.eqb s "")
  | Obj _ => true
  end.

(** The built-in objects that a property read can reach from a plain object
    or from a primitive. *)
Definition Object_prototype : loc := 0.
Definition Function_prototype : loc := 1.
Definition String_prototype : loc := 2.
Definition Number_prototype : loc := 3.
Definition Boolean_prototype : loc := 4.

(** The data properties of [Object.prototype] in ECMAScript, Annex B
    included; each holds a function. Its one accessor, [__proto__], is
    handled by [find_property]. *)
Definition Object_prototype_functions : list string :=
  ["constructor"; "hasOwnProperty"; "isPrototypeOf"; "propertyIsEnumerable";
   "toLocaleString"; "toString"; "valueOf"; "__defineGetter__";
   "__defineSetter__"; "__lookupGetter__"; "__lookupSetter__"].

Definition first_function : loc := 5.

(** The store before any graph exists. The own properties of the functions
    and of the prototypes other than [Object.prototype] are left out: the
    code of the registries reads and writes, on what a lookup gave it, only
    the property [value], which none of them has. *)
Definition realm : store :=
  list_to_map
    ([(Object_prototype,
       mkObject (list_to_map (imap (fun i k => (k, Obj (first_function + i)))
                                Object_prototype_functions)) None);
      (Function_prototype, mkObject ∅ (Some Object_prototype));
      (String_prototype, mkObject ∅ (Some Object_prototype));
      (Number_prototype, mkObject ∅ (Some Object_prototype));
      (Boolean_prototype, mkObject ∅ (Some Object_prototype))]
     ++ imap (fun i _ => (first_function + i, mkObject ∅ (Some Function_prototype)))
          Object_prototype_functions).

(** A prototype chain has no cycle, so it is no longer than the store has
    objects. *)
Definition chain_fuel (h : store) : nat :=
  Datatypes.S (Datatypes.S (Datatypes.S (Datatypes.S (size h)))).

Inductive property :=
| Data (v : jsval)
| ProtoAccessor.                       (* [__proto__], found on [Object.prototype] *)

(** The property [k] as seen from the object [l]: the first own property
    with that name along the chain. *)
Fixpoint find_property (fuel : nat) (h : store) (l : loc) (k : string)
  : option property :=
  match fuel with
  | O => None
  | Datatypes.S fuel' =>
      match h !! l with
      | None => None
      | Some o =>
          match props o !! k with
          | Some v => Some (Data v)
          | None =>
              if decide (l = Object_prototype ∧ k = "__proto__") then Some ProtoAccessor
              else match proto o with
                   | Some p => find_property fuel' h p k
                   | None => None
                   end
          end
      end
  end.

(** Where the lookup of a property of [v] starts: the object itself, or the
    prototype of the wrapper of a primitive. *)
Definition chain_start (v : jsval) : option loc :=
  match v with
  | Obj l => Some l
  | Prim (VStr _) => Some String_prototype
  | Prim (VNum _) => Some Number_prototype
  | Prim (VBool _) => Some Boolean_prototype
  | Prim VUndefined | Prim VNull => None
  end.

(** [[GetPrototypeOf]] of [v], as a value. *)
Definition prototype_of (h : store) (v : jsval) : jsval :=
  match v with
  | Obj l =>
      match h !! l ≫= proto with
      | Some p => Obj p
      | None => Prim VNull
      end
  | Prim _ =>
      match chain_start v with
      | Some p => Obj p
      | None => Prim VUndefined
      end
  end.

(** [v[k]], for [v] other than undefined and null (the code tests a value
    before it reads a property of it). No primitive has an own property
    called [value], the one name read on primitives. *)
Definition get (h : store) (v : jsval) (k : string) : jsval :=
  match chain_start v with
  | None => Prim VUndefined
  | Some l =>
      match find_property (chain_fuel h) h l k with
      | Some (Data w) => w
      | Some ProtoAccessor => prototype_of h v
      | None => Prim VUndefined
      end
  end.

(** Is [l] on the prototype chain that starts at [p]? *)
Fixpoint on_chain (fuel : nat) (h : store) (p l : loc) : bool :=
  match fuel with
  | O => false
  | Datatypes.S fuel' =>
      bool_decide (p = l) ||
      match h !! p ≫= proto with
      | Some p' => on_chain fuel' h p' l
      | None => false
      end
  end.

(** The setter of [__proto__]: [[SetPrototypeOf]], which refuses a cycle and
    any change to [Object.prototype]; [None] is the TypeError. *)
Definition set_prototype (h : store) (l : loc) (p : option loc) : option store :=
  match h !! l with
  | None => Some h
  | Some o =>
      if decide (proto o = p) then Some h
      else if decide (l = Object_prototype) then None
      else if match p with
              | Some p' => on_chain (chain_fuel h) h p' l
              | None => false
              end then None
      else Some (<[l := mkObject (props o) p]> h)
  end.

(** [v[k] = w]; [None] is a TypeError. A data property is writable
    wherever it is found, so the write creates or updates an own property of
    [v]; under [__proto__] it goes to the setter, which ignores a value that
    is neither an object nor null; on a primitive it is dropped. *)
Definition set (h : store) (v : jsval) (k : string) (w : jsval) : option store :=
  match v with
  | Prim _ => Some h
  | Obj l =>
      match h !! l with
      | None => Some h
      | Some o =>
          match find_property (chain_fuel h) h l k with
          | Some ProtoAccessor =>
              match w with
              | Obj p => set_prototype h l (Some p)
              | Prim VNull => set_prototype h l None
              | Prim _ => Some h
              end
          | _ => Some (<[l := mkObject (<[k := w]> (props o)) (proto o)]> h)
          end
      end
  end.

(** [delete v[k]]: the own property goes, if there is one. *)
Definition delete (h : store) (l : loc) (k : string) : store :=
  match h !! l with
  | None => h
  | Some o => <[l := mkObject (base.delete k (props o)) (proto o)]> h
  end.

(** A new object: its identity and the store that holds it. *)
Definition alloc (h : store) (o : object) : loc * store :=
  let l := fresh (dom h) in (l, <[l := o]> h).
End JS.

(** ** Slots, links, nodes *)

(** Identity of a node object. *)
Definition ref := nat.

Record InputSlot := { link : option Z }.
Record OutputSlot := { links_of : option (list Z) }.

Module Link.
Record t := mk {
  id : Z;
  origin_id : Z;
  origin_slot : nat;
  target_id : Z;
  target_slot : nat
}.
End Link.

Record LGraphNode := mkNode {
  id : Z;                                        (* -1 when unassigned *)
  title : string;
  type : string;
  inputs : option (list (option InputSlot));     (* [n.inputs], its slots may be null *)
  outputs : option (list (option OutputSlot));
  order : option string;                         (* the key written by the resolver *)
  ignore_remove : bool;
  graph : bool                                   (* [node.graph] is set *)
}.

Definition set_id (v : Z) (n : LGraphNode) : LGraphNode :=
  mkNode v (title n) (type n) (inputs n) (outputs n) (order n) (ignore_remove n) (graph n).
Definition set_inputs (v : option (list (option InputSlot))) (n : LGraphNode) : LGraphNode :=
  mkNode (id n) (title n) (type n) v (outputs n) (order n) (ignore_remove n) (graph n).
Definition set_outputs (v : option (list (option OutputSlot))) (n : LGraphNode) : LGraphNode :=
  mkNode (id n) (title n) (type n) (inputs n) v (order n) (ignore_remove n) (graph n).
Definition set_order (v : option string) (n : LGraphNode) : LGraphNode :=
  mkNode (id n) (title n) (type n) (inputs n) (outputs n) v (ignore_remove n) (graph n).
Definition set_graph (v : bool) (n : LGraphNode) : LGraphNode :=
  mkNode (id n) (title n) (type n) (inputs n) (outputs n) (order n) (ignore_remove n) v.

(** ** The graph *)

Definition STATUS_STOPPED : Z := 1.
Definition STATUS_RUNNING : Z := 2.

Record LGraph := mkGraph {
  heap : ref -> LGraphNode;          (* the node objects, by identity *)
  status : Z;
  last_node_id : Z;
  _nodes : list ref;
  _nodes_by_id : gmap Z ref;
  last_link_id : Z;
  links : gmap Z Link.t;
  iteration : Z;
  globaltime : Q;
  fixedtime : PrimFloat.float;
  fixedtime_lapse : PrimFloat.float;
  elapsed_time : Q;
  starttime : Z;
  objects : JS.store;                (* the registries, their entries and the built-in objects *)
  global_inputs : JS.loc;            (* the registry object of the global inputs *)
  global_outputs : JS.loc;
  _nodes_in_order : option (list ref);
  errors_in_execution : option bool;
  execution_timer_id : option nat
}.

Definition set_heap (v : ref -> LGraphNode) (g : LGraph) : LGraph :=
  mkGraph v (status g) (last_node_id g) (_nodes g) (_nodes_by_id g) (last_link_id g)
    (links g) (iteration g) (globaltime g) (fixedtime g) (fixedtime_lapse g)
    (elapsed_time g) (starttime g) (objects g) (global_inputs g) (global_outputs g)
    (_nodes_in_order g) (errors_in_execution g) (execution_timer_id g).
Definition set_status (v : Z) (g : LGraph) : LGraph :=
  mkGraph (heap g) v (last_node_id g) (_nodes g) (_nodes_by_id g) (last_link_id g)
    (links g) (iteration g) (globaltime g) (fixedtime g) (fixedtime_lapse g)
    (elapsed_time g) (starttime g) (objects g) (global_inputs g) (global_outputs g)
    (_nodes_in_order g) (errors_in_execution g) (execution_timer_id g).
Definition set_last_node_id (v : Z) (g : LGraph) : LGraph :=
  mkGraph (heap g) (status g) v (_nodes g) (_nodes_by_id g) (last_link_id g) (links g)
    (iteration g) (globaltime g) (fixedtime g) (fixedtime_lapse g) (elapsed_time g)
    (starttime g) (objects g) (global_inputs g) (global_outputs g) (_nodes_in_order g)
    (errors_in_execution g) (execution_timer_id g).
Definition set_nodes (v : list ref) (g : LGraph) : LGraph :=
  mkGraph (heap g) (status g) (last_node_id g) v (_nodes_by_id g) (last_link_id g)
    (links g) (iteration g) (globaltime g) (fixedtime g) (fixedtime_lapse g)
    (elapsed_time g) (starttime g) (objects g) (global_inputs g) (global_outputs g)
    (_nodes_in_order g) (errors_in_execution g) (execution_timer_id g).
Definition set_nodes_by_id (v : gmap Z ref) (g : LGraph) : LGraph :=
  mkGraph (heap g) (status g) (last_node_id g) (_nodes g) v (last_link_id g) (links g)
    (iteration g) (globaltime g) (fixedtime g) (fixedtime_lapse g) (elapsed_time g)
    (starttime g) (objects g) (global_inputs g) (global_outputs g) (_nodes_in_order g)
    (errors_in_execution g) (execution_timer_id g).
Definition set_links (v : gmap Z Link.t) (g : LGraph) : LGraph :=
  mkGraph (heap g) (status g) (last_node_id g) (_nodes g) (_nodes_by_id g)
    (last_link_id g) v (iteration g) (globaltime g) (fixedtime g) (fixedtime_lapse g)
    (elapsed_time g) (starttime g) (objects g) (global_inputs g) (global_outputs g)
    (_nodes_in_order g) (errors_in_execution g) (execution_timer_id g).
Definition set_iteration (v : Z) (g : LGraph) : LGraph :=
  mkGraph (heap g) (status g) (last_node_id g) (_nodes g) (_nodes_by_id g)
    (last_link_id g) (links g) v (globaltime g) (fixedtime g) (fixedtime_lapse g)
    (elapsed_time g) (starttime g) (objects g) (global_inputs g) (global_outputs g)
    (_nodes_in_order g) (errors_in_execution g) (execution_timer_id g).
Definition set_globaltime (v : Q) (g : LGraph) : LGraph :=
  mkGraph (heap g) (status g) (last_node_id g) (_nodes g) (_nodes_by_id g)
    (last_link_id g) (links g) (iteration g) v (fixedtime g) (fixedtime_lapse g)
    (elapsed_time g) (starttime g) (objects g) (global_inputs g) (global_outputs g)
    (_nodes_in_order g) (errors_in_execution g) (execution_timer_id g).
Definition set_fixedtime (v : PrimFloat.float) (g : LGraph) : LGraph :=
  mkGraph (heap g) (status g) (last_node_id g) (_nodes g) (_nodes_by_id g)
    (last_link_id g) (links g) (iteration g) (globaltime g) v (fixedtime_lapse g)
    (elapsed_time g) (starttime g) (objects g) (global_inputs g) (global_outputs g)
    (_nodes_in_order g) (errors_in_execution g) (execution_timer_id g).
Definition set_elapsed_time (v : Q) (g : LGraph) : LGraph :=
  mkGraph (heap g) (status g) (last_node_id g) (_nodes g) (_nodes_by_id g)
    (last_link_id g) (links g) (iteration g) (globaltime g) (fixedtime g)
    (fixedtime_lapse g) v (starttime g) (objects g) (global_inputs g) (global_outputs g)
    (_nodes_in_order g) (errors_in_execution g) (execution_timer_id g).
Definition set_starttime (v : Z) (g : LGraph) : LGraph :=
  mkGraph (heap g) (status g) (last_node_id g) (_nodes g) (_nodes_by_id g)
    (last_link_id g) (links g) (iteration g) (globaltime g) (fixedtime g)
    (fixedtime_lapse g) (elapsed_time g) v (objects g) (global_inputs g)
    (global_outputs g) (_nodes_in_order g) (errors_in_execution g)
    (execution_timer_id g).
Definition set_objects (v : JS.store) (g : LGraph) : LGraph :=
  mkGraph (heap g) (status g) (last_node_id g) (_nodes g) (_nodes_by_id g)
    (last_link_id g) (links g) (iteration g) (globaltime g) (fixedtime g)
    (fixedtime_lapse g) (elapsed_time g) (starttime g) v (global_inputs g)
    (global_outputs g) (_nodes_in_order g) (errors_in_execution g)
    (execution_timer_id g).
Definition set_nodes_in_order (v : option (list ref)) (g : LGraph) : LGraph :=
  mkGraph (heap g) (status g) (last_node_id g) (_nodes g) (_nodes_by_id g)
    (last_link_id g) (links g) (iteration g) (globaltime g) (fixedtime g)
    (fixedtime_lapse g) (elapsed_time g) (starttime g) (objects g) (global_inputs g)
    (global_outputs g) v (errors_in_execution g) (execution_timer_id g).
Definition set_errors_in_execution (v : option bool) (g : LGraph) : LGraph :=
  mkGraph (heap g) (status g) (last_node_id g) (_nodes g) (_nodes_by_id g)
    (last_link_id g) (links g) (iteration g) (globaltime g) (fixedtime g)
    (fixedtime_lapse g) (elapsed_time g) (starttime g) (objects g) (global_inputs g)
    (global_outputs g) (_nodes_in_order g) v (execution_timer_id g).
Definition set_execution_timer_id (v : option nat) (g : LGraph) : LGraph :=
  mkGraph (heap g) (status g) (last_node_id g) (_nodes g) (_nodes_by_id g)
    (last_link_id g) (links g) (iteration g) (globaltime g) (fixedtime g)
    (fixedtime_lapse g) (elapsed_time g) (starttime g) (objects g) (global_inputs g)
    (global_outputs g) (_nodes_in_order g) (errors_in_execution g) v.

(** Field reads and writes through a reference. *)
Definition node_id (g : LGraph) (r : ref) : Z := id (heap g r).
Definition update_node (r : ref) (f : LGraphNode -> LGraphNode) (g : LGraph) : LGraph :=
  set_heap (<[r := f (heap g r)]> (heap g)) g.

(** ** Outcomes of code that can throw *)

Inductive error :=
| ThrownString (s : string)     (* [throw("...")] *)
| TypeError (s : string)        (* raised by the runtime *)
| Thrown (v : value).           (* a value thrown by a callback *)

(** [Diverge] is the outcome of a loop that does not finish. *)
Inductive result (A : Type) :=
| Return (v : A) (g : LGraph)
| Throw (e : error) (g : LGraph)
| Diverge.
Arguments Return {A} v g.
Arguments Throw {A} e g.
Arguments Diverge {A}.

Definition bind {A B} (m : result A) (k : A -> LGraph -> result B) : result B :=
  match m with
  | Return v g => k v g
  | Throw e g => Throw e g
  | Diverge => Diverge
  end.

Notation "'do' x , g <- m 'in' k" := (bind m (fun x g => k))
  (at level 10, x name, g name, m at level 100, k at level 200).

(** ** getNodeById *)

Definition getNodeById (g : LGraph) (i : option Z) : option ref :=
  match i with
  | None => None
  | Some k => _nodes_by_id g !! k
  end.

(** ** computeExecutionOrder *)

(** A dictionary that is enumerated with [for ... in]: the entries in
    enumeration order. Keys that are array indices come first, in ascending
    order; the other keys follow in insertion order. *)
Definition is_index (k : Z) : bool := (0 <=? k)%Z && (k <? 4294967295)%Z.

Definition has_key {V} (M : list (Z * V)) (k : Z) : bool :=
  existsb (fun e => (e.1 =? k)%Z) M.

Fixpoint obj_replace {V} (M : list (Z * V)) (k : Z) (v : V) : list (Z * V) :=
  match M with
  | [] => []
  | e :: M' => if (e.1 =? k)%Z then (k, v) :: M' else e :: obj_replace M' k v
  end.

Fixpoint obj_insert_index {V} (M : list (Z * V)) (k : Z) (v : V) : list (Z * V) :=
  match M with
  | [] => [(k, v)]
  | e :: M' =>
      if negb (is_index e.1) || (k <? e.1)%Z then (k, v) :: e :: M'
      else e :: obj_insert_index M' k v
  end.

Definition obj_set {V} (M : list (Z * V)) (k : Z) (v : V) : list (Z * V) :=
  if has_key M k then obj_replace M k v
  else if is_index k then obj_insert_index M k v
  else M ++ [(k, v)].

Definition obj_delete {V} (M : list (Z * V)) (k : Z) : list (Z * V) :=
  filter (fun e => e.1 ≠ k) M.

Record ceo_state := mkCeo {
  L : list ref;
  S : list ref;
  M : list (Z * ref);
  visited_links : gset Z;
  remaining_links : gmap Z jsnum
}.

(** [num]: the connected inputs of a node. *)
Definition count_inputs (n : LGraphNode) : nat :=
  match inputs n with
  | None => 0
  | Some ins =>
      foldl (fun num slot =>
               match slot with
               | Some {| link := Some _ |} => num + 1
               | _ => num
               end) 0 ins
  end.

(** First loop: every node becomes pending; the nodes without connected
    inputs seed [S]. *)
Definition ceo_scan (g : LGraph) (st : ceo_state) (r : ref) : ceo_state :=
  let n := heap g r in
  let M' := obj_set (M st) (id n) r in
  let num := count_inputs n in
  if (num =? 0)%nat
  then mkCeo (L st) (S st ++ [r]) M' (visited_links st) (remaining_links st)
  else mkCeo (L st) (S st) M' (visited_links st)
         (<[id n := Num (Z.of_nat num)]> (remaining_links st)).

(** Body of the innermost loop, for one [link_id] of an output. *)
Definition ceo_link (g : LGraph) (st : ceo_state) (link_id : Z) : ceo_state :=
  match links g !! link_id with
  | None => st
  | Some lk =>
      if decide (Link.id lk ∈ visited_links st) then st
      else
        match getNodeById g (Some (Link.target_id lk)) with
        | None =>
            mkCeo (L st) (S st) (M st) ({[Link.id lk]} ∪ visited_links st)
              (remaining_links st)
        | Some target_node =>
            let tid := node_id g target_node in
            let left := jsnum_dec1 (remaining_links st !! tid) in
            let rem := <[tid := left]> (remaining_links st) in
            let vis := {[Link.id lk]} ∪ visited_links st in
            if jsnum_is_zero left
            then mkCeo (L st) (S st ++ [target_node]) (M st) vis rem
            else mkCeo (L st) (S st) (M st) vis rem
        end
  end.

(** Body of the loop over the outputs of the node just ordered. *)
Definition ceo_output (g : LGraph) (st : ceo_state) (output : option OutputSlot)
  : ceo_state :=
  match output with
  | None => st
  | Some {| links_of := None |} => st
  | Some {| links_of := Some ls |} => foldl (ceo_link g) st ls
  end.

Definition ceo_outputs (g : LGraph) (st : ceo_state) (n : LGraphNode) : ceo_state :=
  match outputs n with
  | None => st
  | Some outs => foldl (ceo_output g) st outs
  end.

(** One turn of [while(true)] with [S] not empty. *)
Definition ceo_turn (g : LGraph) (st : ceo_state) (r : ref) (S' : list ref)
  : ceo_state :=
  let st1 := mkCeo (L st ++ [r]) S' (obj_delete (M st) (node_id g r))
               (visited_links st) (remaining_links st) in
  ceo_outputs g st1 (heap g r).

Fixpoint ceo_loop (fuel : nat) (g : LGraph) (st : ceo_state) : option ceo_state :=
  match S st with
  | [] => Some st
  | r :: S' =>
      match fuel with
      | O => None
      | Datatypes.S fuel' => ceo_loop fuel' g (ceo_turn g st r S')
      end
  end.

(** The key of the array index [i] in a [for ... in]: a string, the decimal
    digits of [i]. *)
Definition index_key (i : nat) : string := pretty i.

(** [for(var i in L) L[i].order = i]: what is stored is the key. *)
Fixpoint assign_order (h : ref -> LGraphNode) (i : nat) (l : list ref)
  : ref -> LGraphNode :=
  match l with
  | [] => h
  | r :: l' =>
      assign_order (<[r := set_order (Some (index_key i)) (h r)]> h) (Datatypes.S i) l'
  end.

Definition ceo_init : ceo_state := mkCeo [] [] [] ∅ ∅.

(** The list returned, and the graph with the orders written; [None] when the
    loop was cut short. The loop takes one node out of [S] per turn, and
    [ceo_loop_total] shows that a turn more than there are nodes is enough. *)
Definition computeExecutionOrder (g : LGraph) : option (list ref * LGraph) :=
  let st0 := foldl (ceo_scan g) ceo_init (_nodes g) in
  match ceo_loop (Datatypes.S (length (_nodes g))) g st0 with
  | None => None
  | Some st =>
      let L' := L st ++ (M st).*2 in
      Some (L', set_heap (assign_order (heap g) 0 L') g)
  end.

Definition updateExecutionOrder (g : LGraph) : result unit :=
  match computeExecutionOrder g with
  | None => Diverge
  | Some (l, g') => Return tt (set_nodes_in_order (Some l) g')
  end.
(** ** The graph after [new LGraph()]

    The constructor calls [clear], which resets every field below; no canvas
    is attached. [h] holds the node objects that exist. The two registries
    are new empty objects, [{}], whose prototype is [Object.prototype]. *)
Definition empty_object : JS.object := JS.mkObject ∅ (Some JS.Object_prototype).

Definition LGraph_new (h : ref -> LGraphNode) : LGraph :=
  let (ins, s1) := JS.alloc JS.realm empty_object in
  let (outs, s2) := JS.alloc s1 empty_object in
  mkGraph h STATUS_STOPPED 0 [] ∅ 0 ∅ 0 0%Q 0%float 0.01%float (1 # 100)%Q 0
    s2 ins outs None None None.

(** [this.onConnectionChange()] *)
Definition onConnectionChange (g : LGraph) : result unit :=
  updateExecutionOrder g.

(** ** Disconnecting slots

    [LGraphNode.prototype.disconnectInput] and [disconnectOutput] are defined
    in the node class, outside the files embedded here. *)

Definition clear_input (i : nat) (n : LGraphNode) : LGraphNode :=
  match inputs n with
  | Some ins =>
      match ins !! i with
      | Some (Some _) => set_inputs (Some (<[i := Some {| link := None |}]> ins)) n
      | _ => n
      end
  | None => n
  end.

Definition drop_output_link (i : nat) (l : Z) (n : LGraphNode) : LGraphNode :=
  match outputs n with
  | Some outs =>
      match outs !! i with
      | Some (Some {| links_of := Some ls |}) =>
          set_outputs
            (Some (<[i := Some {| links_of := Some (filter (fun x => x ≠ l) ls) |}]> outs)) n
      | _ => n
      end
  | None => n
  end.

Definition clear_output (i : nat) (n : LGraphNode) : LGraphNode :=
  match outputs n with
  | Some outs =>
      match outs !! i with
      | Some (Some _) => set_outputs (Some (<[i := Some {| links_of := None |}]> outs)) n
      | _ => n
      end
  | None => n
  end.

(** Modelled from the spec: [disconnectInput], which is missing from the
    sources. "A Link is ... destroyed when either endpoint disconnects": the
    slot forgets the link, the origin's output stops listing it, the link
    record leaves [links], and the connection change recomputes the order. *)
Definition disconnectInput (g : LGraph) (r : ref) (i : nat) : result unit :=
  match inputs (heap g r) with
  | Some ins =>
      match ins !! i with
      | Some (Some {| link := Some l |}) =>
          let g1 := update_node r (clear_input i) g in
          let g2 :=
            match links g1 !! l with
            | Some lk =>
                let g' := match getNodeById g1 (Some (Link.origin_id lk)) with
                          | Some o => update_node o (drop_output_link (Link.origin_slot lk) l) g1
                          | None => g1
                          end in
                set_links (delete l (links g')) g'
            | None => g1
            end in
          onConnectionChange g2
      | _ => Return tt g
      end
  | None => Return tt g
  end.

Definition disconnect_target (g : LGraph) (l : Z) : LGraph :=
  match links g !! l with
  | Some lk =>
      let g' := match getNodeById g (Some (Link.target_id lk)) with
                | Some t => update_node t (clear_input (Link.target_slot lk)) g
                | None => g
                end in
      set_links (delete l (links g')) g'
  | None => g
  end.

(** Modelled from the spec: [disconnectOutput] without a target, which is
    missing from the sources: every link of the output is destroyed, the
    inputs at the other end forget it, and the order is recomputed. *)
Definition disconnectOutput (g : LGraph) (r : ref) (i : nat) : result unit :=
  match outputs (heap g r) with
  | Some outs =>
      match outs !! i with
      | Some (Some {| links_of := Some ls |}) =>
          let g1 := foldl disconnect_target g ls in
          onConnectionChange (update_node r (clear_output i) g1)
      | _ => Return tt g
      end
  | None => Return tt g
  end.

(** ** add and remove

    The optional hooks ([onAdded], [onRemoved], [onNodeAdded],
    [onNodeRemoved], [on_change], [config.align_to_grid]) and the canvases
    are external collaborators; these definitions are [add] and [remove] on a
    graph that has none of them ([list_of_graphcanvas] is null after the
    constructor). *)

Section GraphModel.
(** [LiteGraph.MAX_NUMBER_OF_NODES] *)
Variable MAX_NUMBER_OF_NODES : nat.

(** [node] is [None] for a null argument; the value returned is [None] for
    [undefined]. *)
Definition add (g : LGraph) (node : option ref) (skip_compute_order : bool)
  : result (option ref) :=
  match node with
  | None => Return None g
  | Some r =>
      if negb (node_id g r =? -1)%Z &&
         bool_decide (is_Some (_nodes_by_id g !! node_id g r))
      then Return None g                              (* already added *)
      else if MAX_NUMBER_OF_NODES <=? length (_nodes g)
      then Throw (ThrownString "LiteGraph: max number of nodes in a graph reached") g
      else
        (* give him an id *)
        let g1 := if (node_id g r =? -1)%Z
                  then set_last_node_id (last_node_id g + 1)
                         (update_node r (set_id (last_node_id g)) g)
                  else g in
        let g2 := update_node r (set_graph true) g1 in
        let g3 := set_nodes (_nodes g2 ++ [r]) g2 in
        let g4 := set_nodes_by_id (<[node_id g3 r := r]> (_nodes_by_id g3)) g3 in
        do _, g5 <- (if skip_compute_order then Return tt g4
                     else updateExecutionOrder g4) in
        Return (Some r) g5
  end.

(** [this._nodes.splice(pos, 1)] at the first position of [r]. *)
Fixpoint splice_first (r : ref) (l : list ref) : list ref :=
  match l with
  | [] => []
  | x :: l' => if decide (x = r) then l' else x :: splice_first r l'
  end.

(** The loop over the inputs, from index [i], at most [k] turns. *)
Fixpoint remove_inputs (k i : nat) (r : ref) (g : LGraph) : result unit :=
  match k with
  | O => Return tt g
  | Datatypes.S k' =>
      match inputs (heap g r) ≫= (fun ins => ins !! i) with
      | None => Return tt g                           (* i reached the length *)
      | Some None => Throw (TypeError "slot is null") g
      | Some (Some slot) =>
          do _, g' <- (match link slot with
                       | Some _ => disconnectInput g r i
                       | None => Return tt g
                       end) in
          remove_inputs k' (Datatypes.S i) r g'
      end
  end.

Fixpoint remove_outputs (k i : nat) (r : ref) (g : LGraph) : result unit :=
  match k with
  | O => Return tt g
  | Datatypes.S k' =>
      match outputs (heap g r) ≫= (fun outs => outs !! i) with
      | None => Return tt g
      | Some None => Throw (TypeError "slot is null") g
      | Some (Some slot) =>
          do _, g' <- (match links_of slot with
                       | Some (_ :: _) => disconnectOutput g r i
                       | _ => Return tt g
                       end) in
          remove_outputs k' (Datatypes.S i) r g'
      end
  end.

Definition slot_count {A} (o : option (list A)) : nat :=
  match o with Some l => length l | None => 0 end.

Definition remove (g : LGraph) (r : ref) : result unit :=
  if bool_decide (_nodes_by_id g !! node_id g r = None) then Return tt g  (* not found *)
  else if ignore_remove (heap g r) then Return tt g          (* cannot be removed *)
  else
    do _, g1 <- remove_inputs (slot_count (inputs (heap g r))) 0 r g in
    do _, g2 <- remove_outputs (slot_count (outputs (heap g1 r))) 0 r g1 in
    let g3 := update_node r (set_id (-1)) g2 in
    let g4 := update_node r (set_graph false) g3 in
    (* remove from containers *)
    let g5 := set_nodes (splice_first r (_nodes g4)) g4 in
    let g6 := set_nodes_by_id (delete (node_id g5 r) (_nodes_by_id g5)) g5 in
    updateExecutionOrder g6.

(** A sequence of calls made on one graph. A call that throws leaves the
    graph as it was at the throw, and the next call goes on from there. *)
Inductive call :=
| CallAdd (node : ref) (skip_compute_order : bool)
| CallRemove (node : ref).

(** What an [add] that registered a node did: the node, the id it is
    registered under, and whether the graph took the id from its counter. *)
Record registration := mkReg {
  reg_node : ref;
  reg_id : Z;
  reg_assigned : bool
}.

Fixpoint run_calls (cs : list call) (g : LGraph) (hist : list registration)
  : option (LGraph * list registration) :=
  match cs with
  | [] => Some (g, hist)
  | CallAdd r skip :: cs' =>
      match add g (Some r) skip with
      | Return (Some _) g' =>
          run_calls cs' g'
            (hist ++ [mkReg r (node_id g' r) (node_id g r =? -1)%Z])
      | Return None g' => run_calls cs' g' hist
      | Throw _ g' => run_calls cs' g' hist
      | Diverge => None
      end
  | CallRemove r :: cs' =>
      match remove g r with
      | Return _ g' => run_calls cs' g' hist
      | Throw _ g' => run_calls cs' g' hist
      | Diverge => None
      end
  end.
End GraphModel.

(** ** Finding nodes *)

Definition findNodesByType (g : LGraph) (t : string) : list ref :=
  filter (fun r => type (heap g r) = t) (_nodes g).

Definition findNodesByTitle (g : LGraph) (t : string) : list ref :=
  filter (fun r => title (heap g r) = t) (_nodes g).

(** The methods of [LGraph.prototype] that take a string and return a list
    of nodes, by property name. The prototype has no other property with
    these names, and none called [findNodesByName]: the lookup of any other
    name among them gives [undefined]. *)
Definition LGraph_prototype_finder (name : string)
  : option (LGraph -> string -> list ref) :=
  if String.eqb name "findNodesByType" then Some findNodesByType
  else if String.eqb name "findNodesByTitle" then Some findNodesByTitle
  else None.

Section SetInputData.
(** [node.setValue(value)], a method of the node classes that have one. *)
Variable setValue : ref -> value -> LGraph -> result unit.

Fixpoint setValue_all (m : list ref) (v : value) (g : LGraph) : result unit :=
  match m with
  | [] => Return tt g
  | r :: m' => do _, g' <- setValue r v g in setValue_all m' v g'
  end.

(** [var m = this.findNodesByName(name); for(var i in m) m[i].setValue(value);] *)
Definition setInputData (g : LGraph) (name : string) (v : value) : result unit :=
  match LGraph_prototype_finder "findNodesByName" with
  | None => Throw (TypeError "this.findNodesByName is not a function") g
  | Some findNodesByName => setValue_all (findNodesByName g name) v g
  end.
End SetInputData.

(** ** Global inputs

    The registry is the object [this.global_inputs]; [this.global_inputs[name]]
    is a property read, which goes up the prototype chain. The hooks
    ([onGlobalInputAdded], [onGlobalsChange], [onGlobalInputRenamed],
    [onGlobalInputRemoved]) are external and absent. Names and types are
    strings, and the data of an input is a primitive. *)

(** [this.global_inputs[name]] *)
Definition global_input (g : LGraph) (name : string) : JS.jsval :=
  JS.get (objects g) (JS.Obj (global_inputs g)) name.

(** [{ name: name, type: type, value: value }] *)
Definition entry_object (name type : string) (v : value) : JS.object :=
  JS.mkObject
    (<["name" := JS.Prim (VStr name)]>
       (<["type" := JS.Prim (VStr type)]> (<["value" := JS.Prim v]> ∅)))
    (Some JS.Object_prototype).

Definition addGlobalInput (g : LGraph) (name type : string) (v : value) : result unit :=
  let (e, s1) := JS.alloc (objects g) (entry_object name type v) in
  match JS.set s1 (JS.Obj (global_inputs g)) name (JS.Obj e) with
  | Some s2 => Return tt (set_objects s2 g)
  | None => Throw (TypeError "Cyclic __proto__ value") (set_objects s1 g)
  end.

Definition setGlobalInputData (g : LGraph) (name : string) (data : value) : result unit :=
  let input := global_input g name in
  if negb (JS.truthy input) then Return tt g
  else
    match JS.set (objects g) input "value" (JS.Prim data) with
    | Some s1 => Return tt (set_objects s1 g)
    | None => Throw (TypeError "Cyclic __proto__ value") g
    end.

Definition getGlobalInputData (g : LGraph) (name : string) : JS.jsval :=
  let input := global_input g name in
  if negb (JS.truthy input) then JS.Prim VNull
  else JS.get (objects g) input "value".

(** The values returned are [false], [true] and, at a bare [return] or at
    the end of the function, undefined. *)
Definition renameGlobalInput (g : LGraph) (old_name name : string) : result value :=
  if String.eqb name old_name then Return VUndefined g
  else if negb (JS.truthy (global_input g old_name)) then Return (VBool false) g
  else if JS.truthy (global_input g name)
  then Return (VBool false) g         (* there is already one input with that name *)
  else
    match JS.set (objects g) (JS.Obj (global_inputs g)) name (global_input g old_name) with
    | None => Throw (TypeError "Cyclic __proto__ value") g
    | Some s1 =>
        Return VUndefined (set_objects (JS.delete s1 (global_inputs g) old_name) g)
    end.

Definition removeGlobalInput (g : LGraph) (name : string) : result value :=
  if negb (JS.truthy (global_input g name)) then Return (VBool false) g
  else Return (VBool true) (set_objects (JS.delete (objects g) (global_inputs g) name) g).

(** ** The execution loop

    Node callbacks and graph hooks are arbitrary JS functions: a callback is
    any function from the graph to an outcome. [throw_errors] is
    [LiteGraph.throw_errors]; [LiteGraph.debug] only logs. The two readings
    of [LiteGraph.getTime()] in [runStep] are arguments.

    In [sendEventToAllNodes], [M] is an alias of the array it enumerates.
    The array of [_nodes_in_order] is built anew by each
    [computeExecutionOrder] and never updated afterwards. The array of
    [_nodes] is updated in place by [add] (push) and [remove] (splice), also
    when a callback calls them during the enumeration: a change that a
    callback makes to [_nodes] is such an update. *)

Definition callback := LGraph -> result unit.

Section Scheduler.
Variable throw_errors : bool.
(** [node[eventname]], for the node [r] *)
Variable method : string -> ref -> option callback.
(** [this.onExecuteStep], [this.onAfterExecute], [this.onStopEvent] *)
Variable onExecuteStep onAfterExecute onStopEvent : option callback.

Definition call_if_present (f : option callback) (g : LGraph) : result unit :=
  match f with
  | Some f => f g
  | None => Return tt g
  end.

(** [for(var j in M) if(M[j][eventname]) M[j][eventname](param)]: the keys
    are those that [M] has when the loop starts; a key is visited if [M]
    still has it when its turn comes, and [M[j]] is read then. [read g j]
    is [M[j]] in the graph [g]. *)
Fixpoint dispatch (read : LGraph -> nat -> option ref) (eventname : string)
    (keys : list nat) (g : LGraph) : result unit :=
  match keys with
  | [] => Return tt g
  | j :: keys' =>
      match read g j with
      | None => dispatch read eventname keys' g
      | Some r =>
          do _, g' <- call_if_present (method eventname r) g in
          dispatch read eventname keys' g'
      end
  end.

(** [M[j]] for the array [M] of [sendEventToAllNodes] called in the graph
    [g0], read in the graph [g]. *)
Definition event_array (g0 g : LGraph) (j : nat) : option ref :=
  match _nodes_in_order g0 with
  | Some l => l !! j
  | None => _nodes g !! j
  end.

Definition event_keys (g0 : LGraph) : list nat :=
  match _nodes_in_order g0 with
  | Some l => seq 0 (length l)
  | None => seq 0 (length (_nodes g0))
  end.

Definition sendEventToAllNodes (g : LGraph) (eventname : string) : result unit :=
  dispatch (event_array g) eventname (event_keys g) g.

Definition stop (g : LGraph) : result unit :=
  if (status g =? STATUS_STOPPED)%Z then Return tt g
  else
    let g1 := set_status STATUS_STOPPED g in
    do _, g2 <- call_if_present onStopEvent g1 in
    let g3 := set_execution_timer_id None g2 in
    sendEventToAllNodes g3 "onStop".

(** One turn of the [for] loop of [runStep]. *)
Definition tick (g : LGraph) : result unit :=
  do _, g1 <- sendEventToAllNodes g "onExecute" in
  let g2 := set_fixedtime (PrimFloat.add (fixedtime g1) (fixedtime_lapse g1)) g1 in
  call_if_present onExecuteStep g2.

Fixpoint ticks (n : nat) (g : LGraph) : result unit :=
  match n with
  | O => Return tt g
  | Datatypes.S n' => do _, g' <- tick g in ticks n' g'
  end.

(** The [try] block. *)
Definition try_block (n : nat) (g : LGraph) : result unit :=
  do _, g1 <- ticks n g in
  do _, g2 <- call_if_present onAfterExecute g1 in
  Return tt (set_errors_in_execution (Some false) g2).

(** The statements after the [try ... catch]. *)
Definition finish_step (start now : Z) (g : LGraph) : LGraph :=
  let elapsed := if (now - start =? 0)%Z then 1%Z else (now - start)%Z in
  let g1 := set_elapsed_time ((1 # 1000) * inject_Z elapsed)%Q g in
  let g2 := set_globaltime (globaltime g1 + (1 # 1000) * inject_Z elapsed)%Q g1 in
  set_iteration (iteration g2 + 1) g2.

(** [num || 1] *)
Definition steps (num : option Z) : nat :=
  match num with
  | None | Some 0%Z => 1
  | Some z => Z.to_nat z
  end.

Definition runStep (g : LGraph) (num : option Z) (start now : Z) : result unit :=
  let g0 := set_globaltime ((1 # 1000) * inject_Z (start - starttime g))%Q g in
  match try_block (steps num) g0 with
  | Return _ g1 => Return tt (finish_step start now g1)
  | Throw err g1 =>
      let g2 := set_errors_in_execution (Some true) g1 in
      if throw_errors then Throw err g2
      else do _, g3 <- stop g2 in Return tt (finish_step start now g3)
  | Diverge => Diverge
  end.
End Scheduler.
(** ** start

    [now] is the reading of [LiteGraph.getTime()] and [timer] the id that
    [setInterval] returns; the ticks that the timer fires later are calls of
    [runStep(1)] made by the platform. *)
Section Start.
Variable method : string -> ref -> option callback.
(** [this.onPlayEvent] *)
Variable onPlayEvent : option callback.

Definition start (g : LGraph) (now : Z) (timer : nat) : result unit :=
  if (status g =? STATUS_RUNNING)%Z then Return tt g
  else
    let g1 := set_status STATUS_RUNNING g in
    do _, g2 <- call_if_present onPlayEvent g1 in
    do _, g3 <- sendEventToAllNodes method g2 "onStart" in
    let g4 := set_starttime now g3 in
    Return tt (set_execution_timer_id (Some timer) g4).
End Start.

(** ** Reading the clocks *)

Definition getTime (g : LGraph) : Q := globaltime g.
Definition getFixedTime (g : LGraph) : PrimFloat.float := fixedtime g.

(** ** Shader code pieces

    [CodePiece] and [ShaderCode] are classes of the shader library that the
    embedded files use and do not define. *)

(** Modelled from the spec: the scope tags [CodePiece.VERTEX],
    [CodePiece.FRAGMENT] and [CodePiece.BOTH], constants of a class that is
    missing from the sources; their values are parameters. *)
Record CodePieceScopes := mkScopes {
  VERTEX : Z;
  FRAGMENT : Z;
  BOTH : Z
}.

(** Modelled from the spec: a [CodePiece], "a body text and an include set",
    as [new CodePiece()] followed by [setBody] and [setIncludes] leave it. *)
Record CodePiece := mkCodePiece {
  body : string;
  includes : gmap string string
}.

(** Modelled from the spec: the object built by
    [new ShaderCode(vertex, fragment, out_var)], with the [order] that the
    node stamps on it ([None] while it is undefined). *)
Record ShaderCode := mkShaderCode {
  vertex : CodePiece;
  fragment : CodePiece;
  out_var : string;
  code_order : option string
}.

Definition set_code_order (v : option string) (c : ShaderCode) : ShaderCode :=
  mkShaderCode (vertex c) (fragment c) (out_var c) v.

(** [a || b] on values that are a string or undefined: the empty string is
    falsy. *)
Definition js_or_string (a b : option string) : option string :=
  match a with
  | Some s => if String.eqb s "" then b else Some s
  | None => b
  end.

(** The text of a string or undefined in a concatenation. *)
Definition js_text (o : option string) : string :=
  match o with
  | Some s => s
  | None => "undefined"
  end.

Definition newline : string := String (Ascii.ascii_of_nat 10) EmptyString.

Module P3ParamFunc.
Record t := mk {
  type : option string;            (* undefined for "refract" and "mix" *)
  name : string;
  id : string;
  includes : gmap string string
}.

(** [new P3ParamFunc(type, name)] *)
Definition new (type : option string) (name : string) : t :=
  mk type name "3paramfunc" ∅.

Definition getVertexCode (C : CodePieceScopes) (this : t)
    (out_var a b c : string) (scope : Z) (out_type : option string) : string :=
  if (scope =? VERTEX C)%Z || (scope =? BOTH C)%Z then
    ((((((((((js_text (js_or_string out_type (type this)) +:+ " ") +:+ out_var)
      +:+ " = ") +:+ name this) +:+ "(") +:+ a) +:+ ",") +:+ b) +:+ ",") +:+ c)
    +:+ (");" +:+ newline)
  else "".

Definition getFragmentCode (C : CodePieceScopes) (this : t)
    (out_var a b c : string) (scope : Z) (out_type : option string) : string :=
  if (scope =? FRAGMENT C)%Z || (scope =? BOTH C)%Z then
    ((((((((((js_text (js_or_string out_type (type this)) +:+ " ") +:+ out_var)
      +:+ " = ") +:+ name this) +:+ "(") +:+ a) +:+ ",") +:+ b) +:+ ",") +:+ c)
    +:+ (");" +:+ newline)
  else "".

Definition getCode (C : CodePieceScopes) (this : t)
    (out_var a b c : string) (scope : Z) (out_type : option string) : ShaderCode :=
  let vertex := mkCodePiece (getVertexCode C this out_var a b c scope out_type)
                  (includes this) in
  let fragment := mkCodePiece (getFragmentCode C this out_var a b c scope out_type)
                    (includes this) in
  mkShaderCode vertex fragment out_var None.

(** [LiteGraph.CodeLib]: the three composers registered by the file. *)
Definition CodeLib (key : string) : option t :=
  if String.eqb key "distance" then Some (new (Some "float") "distance")
  else if String.eqb key "refract" then Some (new None "refract")
  else if String.eqb key "mix" then Some (new None "mix")
  else None.
End P3ParamFunc.

(** ** The 3-parameter composer node *)

(** Outcome of a method that can raise a TypeError. *)
Inductive outcome (A : Type) :=
| Ok (v : A)
| Raises (msg : string).
Arguments Ok {A} v.
Arguments Raises {A} msg.

Module LGraph3ParamNode.
Record t := mk {
  id : Z;
  order : option string;                    (* [this.order], the key written by the resolver *)
  code_name : string;
  codes : gmap nat ShaderCode;               (* [this.codes], by index *)
  shader_piece : option P3ParamFunc.t;       (* [LiteGraph.CodeLib[this.getCodeName()]] *)
  output_types : option (list string);       (* the keys of [this.output_types] *)
  T_types : option (list string)             (* the keys of [this.T_types] *)
}.

Definition set_codes (v : gmap nat ShaderCode) (n : t) : t :=
  mk (id n) (order n) (code_name n) v (shader_piece n) (output_types n) (T_types n).

Definition getCodeName (this : t) : string := code_name this.

Definition getScope (C : CodePieceScopes) (this : t) : Z := FRAGMENT C.

(** [Object.keys(obj)[0]]; [Object.keys] of undefined raises. *)
Definition getOutputType (this : t) : outcome (option string) :=
  match (match output_types this with
         | Some o => Some o
         | None => T_types this
         end) with
  | Some keys => Ok (head keys)
  | None => Raises "Cannot convert undefined or null to object"
  end.

Section Composer.
Variable C : CodePieceScopes.
(** [LiteGraph.EMPTY_CODE] *)
Variable EMPTY_CODE : ShaderCode.
(** Modelled from the spec: [merge], a method of the missing [ShaderCode]
    class that updates its receiver; its result is a parameter. *)
Variable merge : ShaderCode -> ShaderCode -> ShaderCode.
(** Modelled from the spec: [getInputCode(slot)], the code of the node
    connected to the slot, and [onGetNullCode(slot)], the fallback factory of
    the node; both are methods defined outside the sources, and [None] is a
    falsy result (a disconnected slot, no fallback). *)
Variable getInputCode onGetNullCode : t -> nat -> option ShaderCode.

(** [this.getInputCode(i) || this.onGetNullCode(i)] *)
Definition input_code (this : t) (i : nat) : option ShaderCode :=
  match getInputCode this i with
  | Some c => Some c
  | None => onGetNullCode this i
  end.

(** Modelled from the spec: [getOutputVar], the output-variable identifier
    of a piece. *)
Definition getOutputVar (c : ShaderCode) : string := out_var c.

(** The node after the call; the function itself returns nothing. *)
Definition processInputCode (this : t) : outcome t :=
  let output_code := EMPTY_CODE in
  let code_A := input_code this 0 in
  let code_B := input_code this 1 in
  let code_C := input_code this 2 in
  match code_A, code_B, code_C with
  | Some code_A, Some code_B, Some code_C =>
      match shader_piece this with
      | None => Raises "Cannot read properties of undefined (reading 'getCode')"
      | Some piece =>
          match getOutputType this with
          | Raises msg => Raises msg
          | Ok out_type =>
              let output_code :=
                P3ParamFunc.getCode C piece
                  ((getCodeName this +:+ "_") +:+ pretty (id this))
                  (getOutputVar code_A) (getOutputVar code_B) (getOutputVar code_C)
                  (getScope C this) out_type in
              let output_code := set_code_order (order this) output_code in
              let output_code := merge output_code code_C in
              let output_code := merge output_code code_A in
              let output_code := merge output_code code_B in
              Ok (set_codes (<[0 := output_code]> (codes this)) this)
          end
      end
  | _, _, _ => Ok this
  end.
End Composer.
End LGraph3ParamNode.

(** * Specification vocabulary *)

(** ** Termination measure of the resolver's loop *)

Definition jsnum_pos (n : jsnum) : Prop :=
  match n with
  | Num z => (1 <= z)%Z
  | NaN => False
  end.

#[global] Instance jsnum_pos_dec n : Decision (jsnum_pos n).
Proof. destruct n; simpl; apply _. Defined.

(** Entries of [remaining_links] that can still reach zero. *)
Definition pending (rem : gmap Z jsnum) : nat :=
  size (filter (fun kv => jsnum_pos kv.2) rem).

Definition ceo_measure (st : ceo_state) : nat :=
  length (S st) + pending (remaining_links st).

(** ** Connectivity of a node, read off its slots *)

(** Link ids stored in the input slots. *)
Definition in_link_ids (n : LGraphNode) : list Z :=
  match inputs n with
  | None => []
  | Some ins => omap (fun slot => slot ≫= link) ins
  end.

(** Link ids listed by the output slots, in the order the resolver visits them. *)
Definition out_link_ids (n : LGraphNode) : list Z :=
  match outputs n with
  | None => []
  | Some outs =>
      concat ((fun o => match o with
                        | Some {| links_of := Some ls |} => ls
                        | _ => []
                        end) <$> outs)
  end.

(** Input slot [i] of [n] holds link [l]. *)
Definition input_has (n : LGraphNode) (i : nat) (l : Z) : Prop :=
  ∃ ins, inputs n = Some ins ∧ ins !! i = Some (Some {| link := Some l |}).

(** Output slot [i] of [n] lists link [l]. *)
Definition output_has (n : LGraphNode) (i : nat) (l : Z) : Prop :=
  ∃ outs ls, outputs n = Some outs ∧
             outs !! i = Some (Some {| links_of := Some ls |}) ∧ l ∈ ls.

(** ** Invariants of the data model *)

(** Node ids are unique, and the id map is consistent with the node list:
    a node it returns is registered, or carries an id that no registered node
    has (an entry that outlived its node). *)
Record ids_wf (g : LGraph) : Prop := {
  ids_nodup : NoDup (node_id g <$> _nodes g);
  ids_resolve : ∀ k r, _nodes_by_id g !! k = Some r ->
      r ∈ _nodes g ∨ node_id g r ∉ (node_id g <$> _nodes g)
}.

(** The invariants of the data model that concern links: registered nodes are
    found by their id; every link record carries its own id and is attached
    to a slot of a registered node at both ends; every link stored in a slot
    exists and names that exact slot. *)
Record graph_wf (g : LGraph) : Prop := {
  wf_ids : ids_wf g;
  wf_by_id : ∀ r, r ∈ _nodes g -> _nodes_by_id g !! node_id g r = Some r;
  wf_link : ∀ l lk, links g !! l = Some lk ->
      Link.id lk = l ∧
      (∃ o, o ∈ _nodes g ∧ node_id g o = Link.origin_id lk ∧
            output_has (heap g o) (Link.origin_slot lk) l) ∧
      (∃ t, t ∈ _nodes g ∧ node_id g t = Link.target_id lk ∧
            input_has (heap g t) (Link.target_slot lk) l);
  wf_input : ∀ t i l, t ∈ _nodes g -> input_has (heap g t) i l ->
      ∃ lk, links g !! l = Some lk ∧ Link.target_id lk = node_id g t ∧
            Link.target_slot lk = i;
  wf_output : ∀ o i l, o ∈ _nodes g -> output_has (heap g o) i l ->
      ∃ lk, links g !! l = Some lk ∧ Link.origin_id lk = node_id g o ∧
            Link.origin_slot lk = i
}.

(** [o] feeds a connected input of [t]: a link goes from [o] to [t]. *)
Definition feeds (g : LGraph) (o t : ref) : Prop :=
  o ∈ _nodes g ∧ t ∈ _nodes g ∧
  ∃ l lk, links g !! l = Some lk ∧
          Link.origin_id lk = node_id g o ∧ Link.target_id lk = node_id g t.

Definition acyclic (g : LGraph) : Prop := ∀ r, ¬ tc (feeds g) r r.

(** ** Invariant of the resolver's loop on a graph with unique ids *)

Definition pos_at (rem : gmap Z jsnum) (k : Z) : Prop :=
  ∃ n, rem !! k = Some n ∧ jsnum_pos n.

Record ceo_inv (g : LGraph) (st : ceo_state) : Prop := {
  inv_nodup : NoDup (L st ++ S st);
  inv_live : ∀ r, r ∈ L st ++ S st -> r ∈ _nodes g;
  inv_M : M st ≡ₚ (fun r => (node_id g r, r)) <$> filter (fun r => r ∉ L st) (_nodes g);
  inv_rem : ∀ k, pos_at (remaining_links st) k ->
      ∃ t, t ∈ _nodes g ∧ node_id g t = k ∧ t ∉ L st ++ S st
}.

(** ** Invariant of the resolver's loop on a graph with consistent links *)

(** Input links of [t] that the loop has not gone through yet. *)
Definition unvisited (g : LGraph) (V : gset Z) (t : ref) : list Z :=
  filter (fun l => l ∉ V) (in_link_ids (heap g t)).

Record topo_inv (g : LGraph) (st : ceo_state) : Prop := {
  ti_rem : ∀ t, t ∈ _nodes g ->
      remaining_links st !! node_id g t =
      if decide (in_link_ids (heap g t) = []) then None
      else Some (Num (Z.of_nat (length (unvisited g (visited_links st) t))));
  ti_queue : ∀ t, t ∈ _nodes g ->
      t ∈ L st ++ S st ↔ unvisited g (visited_links st) t = [];
  ti_visited : ∀ l, l ∈ visited_links st ->
      ∃ o, o ∈ L st ∧ l ∈ out_link_ids (heap g o);
  ti_before : ∀ j t l, (L st ++ S st) !! j = Some t ->
      l ∈ in_link_ids (heap g t) ->
      ∃ i o, L st !! i = Some o ∧ i < j ∧ l ∈ out_link_ids (heap g o)
}.

(** The output links of the nodes already ordered have all been visited. *)
Definition outs_visited (g : LGraph) (st : ceo_state) : Prop :=
  ∀ o l, o ∈ L st -> l ∈ out_link_ids (heap g o) -> l ∈ visited_links st.

(** The orders written on [o] and [t] are the keys of two positions, that
    of [o] below that of [t]. *)
Definition order_lt (g : LGraph) (o t : ref) : Prop :=
  ∃ i j, order (heap g o) = Some (index_key i) ∧
         order (heap g t) = Some (index_key j) ∧ i < j.

(** [a < b] on two strings, as JS evaluates it: by code units,
    lexicographically. *)
Definition js_string_lt (a b : string) : bool := String.ltb a b.

(** C1 as the spec states it, for one graph. *)
Definition topological_claim (g : LGraph) : Prop :=
  acyclic g ->
  ∃ l g', computeExecutionOrder g = Some (l, g') ∧
          ∀ o t, feeds g o t -> order_lt g' o t.

(** C2 as the spec states it, for one graph. *)
Definition coverage_claim (g : LGraph) : Prop :=
  ∃ l g', computeExecutionOrder g = Some (l, g') ∧
          length l = length (_nodes g) ∧ NoDup l ∧ l ≡ₚ _nodes g.

(** [r] is on a cycle or behind one: a node of a cycle feeds it, directly or
    through other nodes. *)
Definition behind_cycle (g : LGraph) (r : ref) : Prop :=
  ∃ c, tc (feeds g) c c ∧ rtc (feeds g) c r.

(** ** Executable checks of the invariants *)

Definition input_has_b (n : LGraphNode) (i : nat) (l : Z) : bool :=
  match inputs n with
  | Some ins =>
      match ins !! i with
      | Some (Some {| link := Some l' |}) => bool_decide (l' = l)
      | _ => false
      end
  | None => false
  end.

Definition output_has_b (n : LGraphNode) (i : nat) (l : Z) : bool :=
  match outputs n with
  | Some outs =>
      match outs !! i with
      | Some (Some {| links_of := Some ls |}) => bool_decide (l ∈ ls)
      | _ => false
      end
  | None => false
  end.

Definition ids_wf_b (g : LGraph) : bool :=
  bool_decide (NoDup (node_id g <$> _nodes g)) &&
  forallb (fun kr : Z * ref =>
             bool_decide (kr.2 ∈ _nodes g) ||
             negb (bool_decide (node_id g kr.2 ∈ node_id g <$> _nodes g)))
    (map_to_list (_nodes_by_id g)).

Definition link_wf_b (g : LGraph) (e : Z * Link.t) : bool :=
  bool_decide (Link.id e.2 = e.1) &&
  existsb (fun o => bool_decide (node_id g o = Link.origin_id e.2) &&
                    output_has_b (heap g o) (Link.origin_slot e.2) e.1) (_nodes g) &&
  existsb (fun t => bool_decide (node_id g t = Link.target_id e.2) &&
                    input_has_b (heap g t) (Link.target_slot e.2) e.1) (_nodes g).

Definition input_slot_wf_b (g : LGraph) (t : ref) (e : nat * option InputSlot) : bool :=
  match e.2 with
  | Some {| link := Some l |} =>
      match links g !! l with
      | Some lk => bool_decide (Link.target_id lk = node_id g t) &&
                   bool_decide (Link.target_slot lk = e.1)
      | None => false
      end
  | _ => true
  end.

Definition output_slot_wf_b (g : LGraph) (o : ref) (e : nat * option OutputSlot) : bool :=
  match e.2 with
  | Some {| links_of := Some ls |} =>
      forallb (fun l => match links g !! l with
                        | Some lk => bool_decide (Link.origin_id lk = node_id g o) &&
                                     bool_decide (Link.origin_slot lk = e.1)
                        | None => false
                        end) ls
  | _ => true
  end.

Definition slots_wf_b (g : LGraph) (r : ref) : bool :=
  match inputs (heap g r) with
  | None => true
  | Some ins => forallb (input_slot_wf_b g r) (imap pair ins)
  end &&
  match outputs (heap g r) with
  | None => true
  | Some outs => forallb (output_slot_wf_b g r) (imap pair outs)
  end.

Definition graph_wf_b (g : LGraph) : bool :=
  ids_wf_b g &&
  forallb (fun r => bool_decide (_nodes_by_id g !! node_id g r = Some r)) (_nodes g) &&
  forallb (link_wf_b g) (map_to_list (links g)) &&
  forallb (slots_wf_b g) (_nodes g).

(** Every link goes up along [rank]. *)
Definition ranked_b (g : LGraph) (rank : ref -> nat) : bool :=
  forallb (fun e : Z * Link.t =>
    forallb (fun o =>
      forallb (fun t =>
        implb (bool_decide (Link.origin_id e.2 = node_id g o) &&
               bool_decide (Link.target_id e.2 = node_id g t))
              (rank o <? rank t)) (_nodes g)) (_nodes g))
    (map_to_list (links g)).

(** ** Frames *)

(** [g'] has the node list, the id map, the id counter and the node ids of [g]. *)
Definition same_ids (g g' : LGraph) : Prop :=
  _nodes g' = _nodes g ∧ _nodes_by_id g' = _nodes_by_id g ∧
  last_node_id g' = last_node_id g ∧
  (∀ x, node_id g' x = node_id g x) ∧
  (∀ x, ignore_remove (heap g' x) = ignore_remove (heap g x)).

(** The outcome is a return or a throw, in a graph with the ids of [g]. *)
Definition outcome_same_ids {A} (g : LGraph) (m : result A) : Prop :=
  match m with
  | Return _ g' => same_ids g g'
  | Throw _ g' => same_ids g g'
  | Diverge => False
  end.

(** ** Invariant of a graph whose nodes all entered it unassigned *)

Record ids_inv (g : LGraph) (hist : list registration) : Prop := {
  ii_counter : (0 <= last_node_id g)%Z;
  ii_detached : ∀ r, r ∉ _nodes g -> node_id g r = (-1)%Z;
  ii_live : ∀ r, r ∈ _nodes g ->
      (0 <= node_id g r < last_node_id g)%Z ∧
      _nodes_by_id g !! node_id g r = Some r;
  ii_nodup : NoDup (node_id g <$> _nodes g);
  ii_keys : ∀ k x, _nodes_by_id g !! k = Some x -> (0 <= k)%Z;
  ii_hist_bound : ∀ e, e ∈ hist -> (reg_id e < last_node_id g)%Z;
  ii_hist_sorted : ∀ i j a b, i < j -> hist !! i = Some a -> hist !! j = Some b ->
      (reg_id a < reg_id b)%Z;
  ii_hist_live : ∀ r, r ∈ _nodes g -> mkReg r (node_id g r) true ∈ hist
}.

(** The ids that the graph took from its counter, oldest first. *)
Definition assigned_ids (hist : list registration) : list Z :=
  reg_id <$> filter (fun e => reg_assigned e = true) hist.

Definition increasing (l : list Z) : Prop :=
  ∀ i j a b, i < j -> l !! i = Some a -> l !! j = Some b -> (a < b)%Z.

(** ** Vocabulary of the execution loop *)

(** The structural data of the graph: the nodes, the id map, the links and
    the node objects. *)
Definition same_structure (g g' : LGraph) : Prop :=
  _nodes g' = _nodes g ∧ _nodes_by_id g' = _nodes_by_id g ∧
  links g' = links g ∧ ∀ r, heap g' r = heap g r.

(** The enumeration of [keys], started in the graph [g], comes to the node
    [r] in the graph [gp]: the keys before it were gone, or their callbacks
    returned. *)
Inductive reaches (method : string -> ref -> option callback)
    (read : LGraph -> nat -> option ref) (eventname : string)
  : list nat -> LGraph -> ref -> LGraph -> Prop :=
| reaches_here j keys g r :
    read g j = Some r -> reaches method read eventname (j :: keys) g r g
| reaches_gone j keys g r gp :
    read g j = None ->
    reaches method read eventname keys g r gp ->
    reaches method read eventname (j :: keys) g r gp
| reaches_next j keys g r0 g1 r gp :
    read g j = Some r0 ->
    call_if_present (method eventname r0) g = Return tt g1 ->
    reaches method read eventname keys g1 r gp ->
    reaches method read eventname (j :: keys) g r gp.

(** During tick [k] of a run of ticks started in [g0], the [onExecute]
    callback of a node throws [e], leaving the graph [ge]: the ticks before
    returned, the dispatch of that tick came to the node, and its callback
    threw. *)
Definition node_callback_throws (method : string -> ref -> option callback)
    (onExecuteStep : option callback) (g0 : LGraph) (k : nat)
    (e : error) (ge : LGraph) : Prop :=
  ∃ gk r f gp,
    ticks method onExecuteStep k g0 = Return tt gk ∧
    reaches method (event_array gk) "onExecute" (event_keys gk) gk r gp ∧
    method "onExecute" r = Some f ∧
    f gp = Throw e ge.

(** A callback that returns and touches neither the structure nor the
    scheduler's flags. *)
Definition quiet (f : callback) : Prop :=
  ∀ g, ∃ g', f g = Return tt g' ∧ same_structure g g' ∧
             status g' = status g ∧
             errors_in_execution g' = errors_in_execution g.

Definition stop_hooks_quiet (method : string -> ref -> option callback)
    (onStopEvent : option callback) : Prop :=
  (∀ f, onStopEvent = Some f -> quiet f) ∧
  (∀ r f, method "onStop" r = Some f -> quiet f).

(** A callback that does not start or clear the timer of the graph. *)
Definition keeps_timer (f : callback) : Prop :=
  ∀ g g', f g = Return tt g' -> execution_timer_id g' = execution_timer_id g.

(** ** Vocabulary of the registry of global inputs *)

(** [name] is registered: the registry object has an own property of that
    name. *)
Definition registered (g : LGraph) (name : string) : Prop :=
  ∃ o, objects g !! global_inputs g = Some o ∧ is_Some (JS.props o !! name).

(** The registry holds under [name] the entry object [e], whose state is [eo]. *)
Definition entry_at (g : LGraph) (name : string) (e : JS.loc) (eo : JS.object) : Prop :=
  (∃ o, objects g !! global_inputs g = Some o ∧ JS.props o !! name = Some (JS.Obj e)) ∧
  objects g !! e = Some eo.

(** [name] is a property that every plain object inherits: a property of
    [Object.prototype]. *)
Definition inherited (g : LGraph) (name : string) : Prop :=
  name = "__proto__" ∨
  ∃ op, objects g !! JS.Object_prototype = Some op ∧ is_Some (JS.props op !! name).

(** The registry is a plain object: its prototype is [Object.prototype],
    where the chain ends. *)
Record registry_plain (g : LGraph) : Prop := {
  rp_registry : ∃ o, objects g !! global_inputs g = Some o ∧
                     JS.proto o = Some JS.Object_prototype;
  rp_root : ∃ op, objects g !! JS.Object_prototype = Some op ∧ JS.proto op = None;
  rp_distinct : global_inputs g ≠ JS.Object_prototype
}.

Definition registry_plain_b (g : LGraph) : bool :=
  bool_decide (objects g !! global_inputs g ≫= JS.proto = Some JS.Object_prototype) &&
  bool_decide (JS.proto <$> objects g !! JS.Object_prototype = Some None) &&
  bool_decide (global_inputs g ≠ JS.Object_prototype).

(** The registry is plain and holds entry objects only: each own property
    is a reference to an object other than the registry, with a property
    [value] of its own. This is what [addGlobalInput] makes. *)
Record registry_wf (g : LGraph) : Prop := {
  rw_plain : registry_plain g;
  rw_entries : ∀ o k v,
      objects g !! global_inputs g = Some o -> JS.props o !! k = Some v ->
      ∃ e eo, v = JS.Obj e ∧ e ≠ global_inputs g ∧ objects g !! e = Some eo ∧
              is_Some (JS.props eo !! "value")
}.

Definition entry_wf_b (g : LGraph) (kv : string * JS.jsval) : bool :=
  match kv.2 with
  | JS.Obj e =>
      bool_decide (e ≠ global_inputs g) &&
      match objects g !! e with
      | Some eo => bool_decide (is_Some (JS.props eo !! "value"))
      | None => false
      end
  | JS.Prim _ => false
  end.

Definition registry_wf_b (g : LGraph) : bool :=
  registry_plain_b g &&
  match objects g !! global_inputs g with
  | Some o => forallb (entry_wf_b g) (map_to_list (JS.props o))
  | None => false
  end.

(** C10 as the spec states it, for one graph: a name that is not registered
    reads as null, and setting it changes nothing. *)
Definition unregistered_claim (g : LGraph) : Prop :=
  ∀ name data, ¬ registered g name ->
    getGlobalInputData g name = JS.Prim VNull ∧
    setGlobalInputData g name data = Return tt g.

(** ** Vocabulary of the composer *)

(** The statement that the spec gives for a stage:
    [<type> <out_var> = <function_name>(<a>,<b>,<c>);] and a newline. *)
Definition assignment_text (ty out_var fname a b c : string) : string :=
  ty +:+ " " +:+ out_var +:+ " = " +:+ fname +:+ "(" +:+ a +:+ "," +:+ b +:+ ","
     +:+ c +:+ ");" +:+ newline.

(** The type that heads the statement: [out_type] when one is provided (a
    non-empty string), the declared type of the composer otherwise; an
    undefined type prints as [undefined]. *)
Definition statement_type (declared out_type : option string) : string :=
  match out_type with
  | Some t => if decide (t = "") then js_text declared else t
  | None => js_text declared
  end.

(** ** Vocabulary of the further properties *)

(** The nodes without a connected input, in the order of the node list. *)
Definition source_nodes (g : LGraph) : list ref :=
  filter (fun r => count_inputs (heap g r) = 0) (_nodes g).

(** Every registered node has an id that is an array index as a property key. *)
Definition index_ids_b (g : LGraph) : bool :=
  forallb (fun r => is_index (node_id g r)) (_nodes g).

(** A callback that returns and leaves the fixed-step clock and the
    iteration counter alone. *)
Definition steady (f : callback) : Prop :=
  ∀ g, ∃ g', f g = Return tt g' ∧
             fixedtime g' = fixedtime g ∧
             fixedtime_lapse g' = fixedtime_lapse g ∧
             iteration g' = iteration g.

(** The fixed-step clock after [n] ticks: [n] additions of the lapse, each
    rounded as a double. *)
Fixpoint fixedtime_after (n : nat) (t lapse : float) : float :=
  match n with
  | O => t
  | Datatypes.S n' => fixedtime_after n' (PrimFloat.add t lapse) lapse
  end.

(** * Example graphs *)

Definition connected_inputs (ls : list Z) : option (list (option InputSlot)) :=
  Some ((fun l => Some {| link := Some l |}) <$> ls).

Definition connected_outputs (ls : list (list Z)) : option (list (option OutputSlot)) :=
  Some ((fun l => Some {| links_of := Some l |}) <$> ls).

Definition example_node (i : Z) (ins : list Z) (outs : list (list Z)) : LGraphNode :=
  mkNode i "" "" (connected_inputs ins) (connected_outputs outs) None false true.

Definition detached_node : LGraphNode :=
  mkNode (-1) "" "" None None None false false.

Definition example_graph (h : ref -> LGraphNode) (nodes : list ref)
    (by_id : list (Z * ref)) (lks : list Link.t) : LGraph :=
  let g := LGraph_new h in
  mkGraph h STATUS_STOPPED (Z.of_nat (length nodes)) nodes (list_to_map by_id)
    (Z.of_nat (length lks)) (list_to_map ((fun lk => (Link.id lk, lk)) <$> lks))
    0 0%Q 0%float 0.01%float (1 # 100)%Q 0
    (objects g) (global_inputs g) (global_outputs g) None None None.

(** Node 0 feeds node 1 (link 1) and node 1 feeds node 0 (link 2). *)
Definition two_cycle_graph : LGraph :=
  example_graph
    (fun r => match r with
              | 0 => example_node 0 [2%Z] [[1%Z]]
              | 1 => example_node 1 [1%Z] [[2%Z]]
              | _ => detached_node
              end)
    [0; 1] [(0%Z, 0); (1%Z, 1)]
    [Link.mk 1 0 0 1 0; Link.mk 2 1 0 0 0].

(** Nodes 0 and 1 have no inputs; node 2 has its two inputs connected from
    them (links 1 and 2). *)
Definition fan_in_graph : LGraph :=
  example_graph
    (fun r => match r with
              | 0 => example_node 0 [] [[1%Z]]
              | 1 => example_node 1 [] [[2%Z]]
              | 2 => example_node 2 [1%Z; 2%Z] []
              | _ => detached_node
              end)
    [0; 1; 2] [(0%Z, 0); (1%Z, 1); (2%Z, 2)]
    [Link.mk 1 0 0 2 0; Link.mk 2 1 0 2 1].

(** A graph holding the single node 0, registered under id 0. *)
Definition one_node_graph : LGraph :=
  example_graph
    (fun r => match r with
              | 0 => example_node 0 [] []
              | _ => detached_node
              end)
    [0] [(0%Z, 0)] [].

(** Node objects of which node 0 carries the id 0 before it is added (as
    [configure] prepares a node) and the others are unassigned. *)
Definition preset_heap : ref -> LGraphNode :=
  fun r => match r with
           | 0 => set_id 0 detached_node
           | _ => detached_node
           end.

Definition fresh_heap : ref -> LGraphNode := fun _ => detached_node.

(** Callbacks for the one-node graph: the [onExecute] of node 0 throws. *)
Definition failing_method (eventname : string) (r : ref) : option callback :=
  if String.eqb eventname "onExecute" && (r =? 0)
  then Some (fun g => Throw (Thrown (VStr "boom")) g)
  else None.

Definition running_one_node_graph : LGraph :=
  set_execution_timer_id (Some 1) (set_status STATUS_RUNNING one_node_graph).

(** Scope tags, and pieces for a 3-parameter node whose inputs A and B are
    connected and whose input C is not, with no fallback. *)
Definition example_scopes : CodePieceScopes := mkScopes 1 2 3.

Definition example_piece (v : string) : ShaderCode :=
  mkShaderCode (mkCodePiece "" ∅) (mkCodePiece ("float " +:+ v +:+ " = 1.000;") ∅) v None.

Definition example_empty_code : ShaderCode :=
  mkShaderCode (mkCodePiece "" ∅) (mkCodePiece "" ∅) "" None.

Definition example_merge (c other : ShaderCode) : ShaderCode :=
  mkShaderCode
    (mkCodePiece (body (vertex other) +:+ body (vertex c))
       (includes (vertex c) ∪ includes (vertex other)))
    (mkCodePiece (body (fragment other) +:+ body (fragment c))
       (includes (fragment c) ∪ includes (fragment other)))
    (out_var c) (code_order c).

Definition inputs_A_B_only (n : LGraph3ParamNode.t) (slot : nat) : option ShaderCode :=
  match slot with
  | 0 => Some (example_piece "float_1")
  | 1 => Some (example_piece "float_2")
  | _ => None
  end.

Definition inputs_A_B_C (n : LGraph3ParamNode.t) (slot : nat) : option ShaderCode :=
  match slot with
  | 0 => Some (example_piece "float_1")
  | 1 => Some (example_piece "float_2")
  | 2 => Some (example_piece "float_3")
  | _ => None
  end.

Definition no_fallback (n : LGraph3ParamNode.t) (slot : nat) : option ShaderCode := None.

(** A "mix" node that ran once with its three inputs connected. *)
Definition mix_node_after_run : LGraph3ParamNode.t :=
  LGraph3ParamNode.mk 4 (Some "3") "mix"
    {[ 0 := example_piece "mix_4" ]}
    (P3ParamFunc.CodeLib "mix") None (Some ["vec3"; "float"]).

(** Node 5 has no inputs; nodes 3 and 9 form a cycle and were registered with
    the larger id first. Node [r] carries the id [r]. *)
Definition late_cycle_graph : LGraph :=
  example_graph
    (fun r => match r with
              | 9 => example_node 9 [2%Z] [[1%Z]]
              | 3 => example_node 3 [1%Z] [[2%Z]]
              | 5 => example_node 5 [] []
              | _ => detached_node
              end)
    [9; 3; 5] [(9%Z, 9); (3%Z, 3); (5%Z, 5)]
    [Link.mk 1 9 0 3 0; Link.mk 2 3 0 9 0].

(** Callbacks for the one-node graph: the [onExecute] of node 0 registers a
    global input and returns. *)
Definition marking_method (eventname : string) (r : ref) : option callback :=
  if String.eqb eventname "onExecute" && (r =? 0)
  then Some (fun g => addGlobalInput g "ran" "boolean" (VBool true))
  else None.

(** The graph after the calls [cs], made on [g]. *)
Definition after_calls (MAX : nat) (cs : list call) (g : LGraph) : LGraph :=
  match run_calls MAX cs g [] with
  | Some (g', _) => g'
  | None => g
  end.

(** Two node objects, each with an input slot that names a link: node 0
    carries the id 0 (as a node that [configure] loads does), node 1 is
    unassigned. *)
Definition loaded_heap : ref -> LGraphNode :=
  fun r => match r with
           | 0 => mkNode 0 "" "" (connected_inputs [7%Z]) None None false false
           | 1 => mkNode (-1) "" "" (connected_inputs [8%Z]) None None false false
           | _ => detached_node
           end.

(** The graph after [add] of node 0 and [add] of node 1: the counter gives
    node 1 the id 0, which node 0 carries already. *)
Definition duplicate_id_graph : LGraph :=
  after_calls 1000 [CallAdd 0 true; CallAdd 1 true] (LGraph_new loaded_heap).

(** Nodes 5 and 3, with a link from 5 to 3 (link 2) and a link into 5
    (link 1) from a node 9 that is not in the graph: no cycle. *)
Definition dangling_link_graph : LGraph :=
  example_graph
    (fun r => match r with
              | 5 => example_node 5 [1%Z] [[2%Z]]
              | 3 => example_node 3 [2%Z] []
              | _ => detached_node
              end)
    [5; 3] [(5%Z, 5); (3%Z, 3)]
    [Link.mk 1 9 0 5 0; Link.mk 2 5 0 3 0].

(** A chain of eleven nodes: node [r] carries the id [r] and feeds node
    [r + 1] through the link [r + 1]. *)
Definition chain_graph : LGraph :=
  example_graph
    (fun r => if r =? 0 then example_node 0 [] [[1%Z]]
              else if r =? 10 then example_node 10 [10%Z] []
              else if r <? 10 then example_node (Z.of_nat r) [Z.of_nat r] [[Z.of_nat r + 1]%Z]
              else detached_node)
    (seq 0 11) ((fun r => (Z.of_nat r, r)) <$> seq 0 11)
    ((fun r => Link.mk (Z.of_nat r + 1) (Z.of_nat r) 0 (Z.of_nat r + 1) 0) <$> seq 0 10).

(** Nodes 0, 1 and 2 in a graph whose order was never computed
    ([_nodes_in_order] is unset): the [onExecute] of node 0 removes node 1,
    that of node 1 throws, and that of node 2 registers a global input. *)
Definition three_node_graph : LGraph :=
  example_graph
    (fun r => match r with
              | 0 => example_node 0 [] []
              | 1 => example_node 1 [] []
              | 2 => example_node 2 [] []
              | _ => detached_node
              end)
    [0; 1; 2] [(0%Z, 0); (1%Z, 1); (2%Z, 2)] [].

Definition removing_method (eventname : string) (r : ref) : option callback :=
  if String.eqb eventname "onExecute" then
    match r with
    | 0 => Some (fun g => remove g 1)
    | 1 => Some (fun g => Throw (Thrown (VStr "boom")) g)
    | 2 => Some (fun g => addGlobalInput g "ran" "boolean" (VBool true))
    | _ => None
    end
  else None.

(** A graph with the global inputs "speed" and "gain". *)
Definition globals_graph : LGraph :=
  match addGlobalInput (LGraph_new fresh_heap) "speed" "number" (VNum 3) with
  | Return _ g1 =>
      match addGlobalInput g1 "gain" "number" (VNum 5) with
      | Return _ g2 => g2
      | _ => g1
      end
  | _ => LGraph_new fresh_heap
  end.

(** * The execution-order resolver *)

(** ** The loop finishes *)

Lemma pending_insert_le (rem : gmap Z jsnum) k v :
  pending (<[k := v]> rem) ≤ Datatypes.S (pending rem).
Proof.
  unfold pending.
  destruct (decide (jsnum_pos v)) as [Hp | Hp].
  - rewrite map_filter_insert_True by done.
    rewrite map_size_insert. destruct (filter _ rem !! k); simpl; lia.
  - rewrite map_filter_insert_False by done.
    rewrite map_filter_delete, map_size_delete.
    destruct (filter _ rem !! k); simpl; lia.
Qed.

Lemma pending_dec1 (rem : gmap Z jsnum) k :
  let left := jsnum_dec1 (rem !! k) in
  (if jsnum_is_zero left then 1 else 0) + pending (<[k := left]> rem) ≤ pending rem.
Proof.
  unfold pending. simpl.
  set (P := fun kv : Z * jsnum => jsnum_pos kv.2).
  assert (Hdel : size (filter P (delete k rem)) ≤ size (filter P rem)).
  { rewrite map_filter_delete, map_size_delete.
    destruct (filter P rem !! k); simpl; lia. }
  destruct (rem !! k) as [[z|]|] eqn:Hk; simpl.
  - destruct (Z.eqb_spec (z - 1) 0) as [Hz | Hz].
    + rewrite map_filter_insert_False by (unfold P; simpl; lia).
      rewrite map_filter_delete.
      assert (Hf : filter P rem !! k = Some (Num z)).
      { apply map_lookup_filter_Some. split; [done|]. unfold P; simpl; lia. }
      rewrite map_size_delete_Some by (by eexists).
      assert (size (filter P rem) ≠ 0); [|lia].
      intros H0. apply map_size_empty_iff in H0. rewrite H0 in Hf.
      by rewrite lookup_empty in Hf.
    + destruct (decide (1 <= z - 1)%Z) as [Hp | Hp].
      * rewrite map_filter_insert_True by done.
        rewrite map_size_insert_Some; [done|].
        exists (Num z). apply map_lookup_filter_Some. split; [done|].
        unfold P; simpl; lia.
      * rewrite map_filter_insert_False by done. simpl. lia.
  - rewrite map_filter_insert_False by (unfold P; simpl; tauto). simpl. lia.
  - rewrite map_filter_insert_False by (unfold P; simpl; tauto). simpl. lia.
Qed.

Lemma ceo_link_measure g st l :
  ceo_measure (ceo_link g st l) ≤ ceo_measure st.
Proof.
  unfold ceo_link.
  destruct (links g !! l) as [lk|]; [|done].
  case_decide; [done|].
  destruct (getNodeById g _) as [t|]; [|done].
  pose proof (pending_dec1 (remaining_links st) (node_id g t)) as Hd.
  simpl in Hd. unfold ceo_measure.
  destruct (jsnum_is_zero _); simpl; rewrite ?length_app; simpl; lia.
Qed.

Lemma foldl_measure {B} (f : ceo_state -> B -> ceo_state) (l : list B) st :
  (∀ s b, ceo_measure (f s b) ≤ ceo_measure s) ->
  ceo_measure (foldl f st l) ≤ ceo_measure st.
Proof.
  intros Hf. revert st. induction l as [|b l IH]; intros st; simpl; [done|].
  etrans; [apply IH|apply Hf].
Qed.

Lemma ceo_output_measure g st o :
  ceo_measure (ceo_output g st o) ≤ ceo_measure st.
Proof.
  destruct o as [[[ls|]]|]; simpl; [|done..].
  apply foldl_measure, ceo_link_measure.
Qed.

Lemma ceo_outputs_measure g st n :
  ceo_measure (ceo_outputs g st n) ≤ ceo_measure st.
Proof.
  unfold ceo_outputs. destruct (outputs n); [|done].
  apply foldl_measure, ceo_output_measure.
Qed.

Lemma ceo_turn_measure g st r S' :
  S st = r :: S' -> ceo_measure (ceo_turn g st r S') < ceo_measure st.
Proof.
  intros HS. unfold ceo_turn.
  eapply Nat.le_lt_trans; [apply ceo_outputs_measure|].
  unfold ceo_measure. simpl. rewrite HS. simpl. lia.
Qed.

Lemma ceo_loop_fuel g fuel st :
  ceo_measure st ≤ fuel -> is_Some (ceo_loop fuel g st).
Proof.
  revert st. induction fuel as [|fuel IH]; intros st Hm.
  - unfold ceo_measure in Hm. simpl.
    destruct (S st) eqn:HS; [by eexists|]. simpl in Hm. lia.
  - simpl. destruct (S st) as [|r S'] eqn:HS; [by eexists|].
    apply IH. pose proof (ceo_turn_measure g st r S' HS). lia.
Qed.

Lemma ceo_scan_measure g st r :
  ceo_measure (ceo_scan g st r) ≤ Datatypes.S (ceo_measure st).
Proof.
  unfold ceo_scan, ceo_measure.
  destruct (count_inputs _ =? 0); simpl.
  - rewrite length_app. simpl. lia.
  - pose proof (pending_insert_le (remaining_links st) (id (heap g r))
                  (Num (Z.of_nat (count_inputs (heap g r))))). lia.
Qed.

Lemma ceo_scan_all_measure g l st :
  ceo_measure (foldl (ceo_scan g) st l) ≤ length l + ceo_measure st.
Proof.
  revert st. induction l as [|r l IH]; intros st; simpl; [lia|].
  etrans; [apply IH|]. pose proof (ceo_scan_measure g st r). lia.
Qed.

Lemma ceo_loop_total g :
  is_Some (ceo_loop (Datatypes.S (length (_nodes g))) g
             (foldl (ceo_scan g) ceo_init (_nodes g))).
Proof.
  apply ceo_loop_fuel.
  pose proof (ceo_scan_all_measure g (_nodes g) ceo_init) as H.
  unfold ceo_measure at 2 in H. simpl in H.
  unfold pending in H. rewrite map_filter_empty, map_size_empty in H. lia.
Qed.

(** On every graph, whatever its ids and links, the loop of
    [computeExecutionOrder] finishes within one turn per node: the function
    returns a list. *)
Lemma computeExecutionOrder_total g : is_Some (computeExecutionOrder g).
Proof.
  unfold computeExecutionOrder.
  destruct (ceo_loop_total g) as [st ->]. by eexists.
Qed.

(** ** List and dictionary facts *)

Lemma filter_ext_elem {A} (P Q : A -> Prop) `{∀ x, Decision (P x)}
    `{∀ x, Decision (Q x)} (l : list A) :
  (∀ x, x ∈ l -> P x ↔ Q x) -> filter P l = filter Q l.
Proof.
  induction l as [|a l IH]; intros HPQ; [done|].
  rewrite !filter_cons.
  rewrite IH by (intros x Hx; apply HPQ; by right).
  pose proof (HPQ a ltac:(by left)).
  destruct (decide (P a)), (decide (Q a)); tauto.
Qed.

Lemma filter_fmap_pair {A B} (f : A -> B) (P : B -> Prop)
    `{∀ y, Decision (P y)} (l : list A) :
  filter P (f <$> l) = f <$> filter (fun x => P (f x)) l.
Proof.
  induction l as [|a l IH]; [done|].
  rewrite fmap_cons, !filter_cons, IH. simpl.
  by destruct (decide (P (f a))).
Qed.

Lemma foldl_inv {A B} (I : A -> Prop) (f : A -> B -> A) (l : list B) (a : A) :
  (∀ s b, b ∈ l -> I s -> I (f s b)) -> I a -> I (foldl f a l).
Proof.
  revert a. induction l as [|b l IH]; intros a Hf Ha; simpl; [done|].
  apply IH.
  - intros s b' Hb'. apply Hf. by right.
  - apply Hf; [by left|done].
Qed.

Lemma has_key_false {V} (M : list (Z * V)) k :
  has_key M k = false ↔ k ∉ M.*1.
Proof.
  unfold has_key. induction M as [|[k' v] M IH]; simpl.
  - split; [intros _; apply not_elem_of_nil|done].
  - rewrite orb_false_iff, IH, not_elem_of_cons.
    destruct (Z.eqb_spec k' k); split; intros [? ?]; split; try done; congruence.
Qed.

Lemma obj_insert_index_perm {V} (M : list (Z * V)) k v :
  obj_insert_index M k v ≡ₚ (k, v) :: M.
Proof.
  induction M as [|e M IH]; simpl; [done|].
  destruct (_ || _); [done|].
  rewrite IH. apply Permutation_swap.
Qed.

Lemma obj_set_fresh {V} (M : list (Z * V)) k v :
  k ∉ M.*1 -> obj_set M k v ≡ₚ (k, v) :: M.
Proof.
  intros Hk. unfold obj_set.
  apply has_key_false in Hk. rewrite Hk.
  destruct (is_index k).
  - apply obj_insert_index_perm.
  - by rewrite Permutation_app_comm.
Qed.

Lemma list_filter_filter_r_all (l : list ref) :
  filter (fun r => r ∉ @nil ref) l = l.
Proof.
  induction l as [|a l IH]; [done|].
  rewrite filter_cons_True by apply not_elem_of_nil. by rewrite IH.
Qed.

(** ** The nested loops over the outputs visit [out_link_ids] in order *)

Lemma ceo_outputs_flat g st n :
  ceo_outputs g st n = foldl (ceo_link g) st (out_link_ids n).
Proof.
  unfold ceo_outputs, out_link_ids.
  destruct (outputs n) as [outs|]; [|done].
  revert st. induction outs as [|o outs IH]; intros st; [done|].
  rewrite fmap_cons. simpl. rewrite foldl_app, IH. f_equal.
  by destruct o as [[[ls|]]|].
Qed.

Lemma count_inputs_length n : count_inputs n = length (in_link_ids n).
Proof.
  unfold count_inputs, in_link_ids.
  destruct (inputs n) as [ins|]; [|done].
  assert (Hgen : ∀ k, foldl (fun num slot =>
               match slot with
               | Some {| link := Some _ |} => num + 1
               | _ => num
               end) k ins = k + length (omap (fun slot => slot ≫= link) ins)).
  { induction ins as [|s ins IH]; intros k; simpl; [lia|].
    rewrite IH. destruct s as [[[l|]]|]; simpl; unfold omap; lia. }
  apply Hgen.
Qed.

(** ** Coverage: the invariant of the loop *)

Section Cover.
Variable g : LGraph.
Hypothesis Hwf : ids_wf g.

Local Abbreviation N := (_nodes g).
Local Abbreviation idr := (node_id g).
Local Abbreviation entry := (fun r => (node_id g r, r)).

Lemma ids_inj r1 r2 : r1 ∈ N -> r2 ∈ N -> idr r1 = idr r2 -> r1 = r2.
Proof.
  intros H1 H2 Heq.
  apply list_elem_of_lookup in H1 as [i Hi], H2 as [j Hj].
  assert (i = j) as ->; [|congruence].
  apply (NoDup_lookup (idr <$> N) i j (idr r1)).
  - apply (ids_nodup g Hwf).
  - by rewrite list_lookup_fmap, Hi.
  - rewrite list_lookup_fmap, Hj. simpl. by rewrite Heq.
Qed.

Lemma nodes_nodup : NoDup N.
Proof. eapply NoDup_fmap_1, (ids_nodup g Hwf). Qed.

Lemma ceo_link_inv st l : ceo_inv g st -> ceo_inv g (ceo_link g st l).
Proof.
  intros [Hnd Hlive HM Hrem]. unfold ceo_link.
  destruct (links g !! l) as [lk|]; [|done].
  case_decide; [done|].
  destruct (getNodeById g _) as [t|] eqn:Ht; [|done].
  simpl in Ht.
  set (tid := idr t).
  destruct (jsnum_is_zero _) eqn:Hz.
  - (* the count of [t] reaches zero *)
    assert (Hpos : pos_at (remaining_links st) tid).
    { destruct (remaining_links st !! tid) as [[z|]|] eqn:Hl; simpl in Hz; try done.
      exists (Num z). split; [done|]. simpl.
      apply Z.eqb_eq in Hz. lia. }
    destruct (Hrem _ Hpos) as (t0 & Ht0 & Hid0 & Hnin).
    assert (t = t0) as <-.
    { destruct (ids_resolve g Hwf _ _ Ht) as [Hin | Hout].
      - by apply ids_inj.
      - exfalso. apply Hout. apply list_elem_of_fmap. by exists t0. }
    constructor; simpl.
    + rewrite app_assoc. apply NoDup_app. split_and!; [done| |apply NoDup_singleton].
      intros x Hx ->%list_elem_of_singleton. done.
    + intros r. rewrite app_assoc, elem_of_app, list_elem_of_singleton.
      intros [?| ->]; auto.
    + done.
    + intros k (n & Hk & Hn).
      destruct (decide (k = tid)) as [-> | Hne].
      { rewrite lookup_insert_eq in Hk. injection Hk as <-.
        destruct (jsnum_dec1 _) as [z|]; simpl in *; [|done].
        apply Z.eqb_eq in Hz. lia. }
      rewrite lookup_insert_ne in Hk by done.
      destruct (Hrem k) as (t1 & ? & ? & ?); [by exists n|].
      exists t1. split_and!; [done..|].
      rewrite app_assoc, elem_of_app, list_elem_of_singleton.
      intros [?| ->]; [done|]. by apply Hne.
  - constructor; simpl; [done..|].
    intros k (n & Hk & Hn).
    destruct (decide (k = tid)) as [-> | Hne].
    + rewrite lookup_insert_eq in Hk. injection Hk as <-.
      apply Hrem.
      destruct (remaining_links st !! tid) as [[z|]|] eqn:Hl; simpl in Hn; try done.
      exists (Num z). split; [done|]. simpl. lia.
    + rewrite lookup_insert_ne in Hk by done. apply Hrem. by exists n.
Qed.

Lemma ceo_turn_inv st r S' :
  S st = r :: S' -> ceo_inv g st -> ceo_inv g (ceo_turn g st r S').
Proof.
  intros HS [Hnd Hlive HM Hrem]. rewrite HS in *.
  unfold ceo_turn. rewrite ceo_outputs_flat.
  apply foldl_inv; [intros s b _; apply ceo_link_inv|].
  assert (HrN : r ∈ N) by (apply Hlive; set_solver).
  assert (HrL : r ∉ L st).
  { apply NoDup_app in Hnd as (_ & Hd & _). intros Hr. apply (Hd r Hr). by left. }
  constructor; simpl.
  - by rewrite <- app_assoc.
  - intros x. rewrite <- app_assoc. apply Hlive.
  - unfold obj_delete. rewrite HM.
    rewrite (filter_fmap_pair entry (fun e => e.1 ≠ idr r)). simpl.
    rewrite list_filter_filter.
    erewrite filter_ext_elem; [done|].
    intros x Hx. simpl. rewrite elem_of_app, list_elem_of_singleton.
    split.
    + intros [Hid HxL] [?| ->]; done.
    + intros Hn. split; [|tauto].
      intros Hid. apply Hn. right. by apply ids_inj.
  - intros k Hk. destruct (Hrem k Hk) as (t & ? & ? & ?).
    exists t. split_and!; [done..|]. by rewrite <- app_assoc.
Qed.

Lemma ceo_loop_inv fuel st st' :
  ceo_loop fuel g st = Some st' -> ceo_inv g st -> ceo_inv g st' ∧ S st' = [].
Proof.
  revert st. induction fuel as [|fuel IH]; intros st; simpl.
  - destruct (S st) eqn:HS; [|done]. intros [= <-]. done.
  - destruct (S st) as [|r S'] eqn:HS.
    + intros [= <-]. done.
    + intros Hl Hinv. eapply IH; [done|]. by apply ceo_turn_inv.
Qed.

(** The first loop, on a list of nodes with distinct ids. *)
Lemma ceo_scan_inv l :
  NoDup (idr <$> l) ->
  let st := foldl (ceo_scan g) ceo_init l in
  L st = [] ∧ NoDup (S st) ∧ (∀ r, r ∈ S st -> r ∈ l) ∧
  M st ≡ₚ entry <$> l ∧
  (∀ k, pos_at (remaining_links st) k -> ∃ t, t ∈ l ∧ idr t = k ∧ t ∉ S st).
Proof.
  induction l as [|r l IH] using rev_ind; intros Hnd; simpl.
  - split_and!; try done; [apply NoDup_nil_2|].
    intros k (n & Hk & _). by rewrite lookup_empty in Hk.
  - rewrite fmap_app in Hnd. apply NoDup_app in Hnd as (Hndl & Hfresh & _).
    destruct (IH Hndl) as (HL & HS & HSl & HM & Hrem). clear IH.
    rewrite foldl_snoc.
    set (st := foldl (ceo_scan g) ceo_init l) in *.
    assert (Hr : r ∉ l).
    { intros Hr. apply (Hfresh (idr r)); [|simpl; by left].
      apply list_elem_of_fmap. by exists r. }
    assert (HM' : obj_set (M st) (id (heap g r)) r ≡ₚ entry <$> l ++ [r]).
    { rewrite obj_set_fresh.
      - rewrite fmap_app, HM. simpl. by rewrite Permutation_app_comm.
      - rewrite HM, <- list_fmap_compose. intros Hin.
        apply list_elem_of_fmap in Hin as (x & Hx & Hxl). simpl in Hx.
        apply (Hfresh (idr x)); [apply list_elem_of_fmap; by exists x|].
        rewrite <- Hx. apply list_elem_of_fmap. exists r. split; [done|by left]. }
    unfold ceo_scan. destruct (count_inputs _ =? 0); simpl.
    + split_and!; [done| | |done|].
      * apply NoDup_app. split_and!; [done| |apply NoDup_singleton].
        intros x Hx ->%list_elem_of_singleton. auto.
      * intros x [?| ->%list_elem_of_singleton]%elem_of_app; set_solver.
      * intros k Hk. destruct (Hrem k Hk) as (t & ? & ? & ?).
        exists t. split_and!; [set_solver|done|].
        intros [?| ->%list_elem_of_singleton]%elem_of_app; done.
    + split_and!; [done|done|set_solver|done|].
      intros k (n & Hk & Hn).
      destruct (decide (k = id (heap g r))) as [-> | Hne].
      * exists r. split_and!; [set_solver|done|]. intros Hin. auto.
      * rewrite lookup_insert_ne in Hk by done.
        destruct (Hrem k) as (t & ? & ? & ?); [by exists n|].
        exists t. split_and!; [set_solver|done..].
Qed.

Lemma ceo_scan_establishes :
  ceo_inv g (foldl (ceo_scan g) ceo_init N).
Proof.
  destruct (ceo_scan_inv N (ids_nodup g Hwf)) as (HL & HS & HSl & HM & Hrem).
  constructor; rewrite ?HL; simpl; try done.
  - by rewrite HM, list_filter_filter_r_all.
Qed.

(** The list that [computeExecutionOrder] returns is a rearrangement of the
    node list. *)
Lemma ceo_result_perm st :
  ceo_inv g st -> S st = [] -> L st ++ (M st).*2 ≡ₚ N.
Proof.
  intros [Hnd Hlive HM Hrem] HS. rewrite HS, app_nil_r in *.
  rewrite HM, <- list_fmap_compose.
  rewrite (list_fmap_ext _ Datatypes.id (filter (fun r => r ∉ L st) N)),
    list_fmap_id by done.
  rewrite <- (filter_app_complement (fun r => r ∈ L st) N) at 2.
  apply Permutation_app_tail.
  apply NoDup_Permutation; [done|apply NoDup_filter, nodes_nodup|].
  intros x. rewrite list_elem_of_filter. split; [auto|tauto].
Qed.
End Cover.

(** ** Consequences of the link invariants *)

Lemma elem_of_in_link_ids n l : l ∈ in_link_ids n ↔ ∃ i, input_has n i l.
Proof.
  unfold in_link_ids, input_has. destruct (inputs n) as [ins|].
  - rewrite list_elem_of_omap. split.
    + intros (s & Hs & Hl). apply list_elem_of_lookup in Hs as [i Hi].
      exists i, ins. split; [done|]. rewrite Hi.
      destruct s as [[[l'|]]|]; simpl in Hl; by simplify_eq.
    + intros (i & ins' & [= <-] & Hi).
      eexists. split; [by eapply list_elem_of_lookup_2|done].
  - split; [by intros ?%elem_of_nil|]. by intros (i & ins & ? & _).
Qed.

Lemma elem_of_concat {A} (x : A) (ls : list (list A)) :
  x ∈ concat ls ↔ ∃ l, l ∈ ls ∧ x ∈ l.
Proof.
  induction ls as [|l ls IH]; simpl.
  - split; [by intros ?%elem_of_nil|]. by intros (l & ?%elem_of_nil & _).
  - rewrite elem_of_app, IH. split.
    + intros [?|(l' & ? & ?)]; [exists l|exists l']; split; auto; by constructor.
    + intros (l' & [-> | ?]%elem_of_cons & ?); [by left|right; eauto].
Qed.

Lemma elem_of_out_link_ids n l : l ∈ out_link_ids n ↔ ∃ i, output_has n i l.
Proof.
  unfold out_link_ids, output_has. destruct (outputs n) as [outs|].
  - rewrite elem_of_concat. split.
    + intros (ls & Hls & Hl). apply list_elem_of_fmap in Hls as (o & -> & Ho).
      apply list_elem_of_lookup in Ho as [i Hi].
      destruct o as [[[ls|]]|]; try by apply elem_of_nil in Hl.
      exists i, outs, ls. by rewrite Hi.
    + intros (i & outs' & ls & [= <-] & Hi & Hl).
      exists ls. split; [|done]. apply list_elem_of_fmap.
      eexists. split; [|by eapply list_elem_of_lookup_2]. done.
  - split; [by intros ?%elem_of_nil|]. by intros (i & outs & ls & ? & _).
Qed.

Lemma NoDup_omap_index {A B} (f : A -> option B) (l : list A) :
  (∀ i j a b x, l !! i = Some a -> l !! j = Some b ->
                f a = Some x -> f b = Some x -> i = j) ->
  NoDup (omap f l).
Proof.
  induction l as [|a l IH]; intros Hinj; simpl; [apply NoDup_nil_2|].
  assert (Htl : NoDup (omap f l)).
  { apply IH. intros i j a' b' x Hi Hj Ha' Hb'.
    assert (Datatypes.S i = Datatypes.S j) by (eapply Hinj; eauto). lia. }
  destruct (f a) as [x|] eqn:Hfa; [|done].
  apply NoDup_cons. split; [|done].
  intros (b & Hb & Hfb)%list_elem_of_omap.
  apply list_elem_of_lookup in Hb as [j Hj].
  assert (0 = Datatypes.S j); [|lia].
  eapply (Hinj 0 (Datatypes.S j) a b x); eauto.
Qed.

Lemma length_filter_visit (V : gset Z) (l : Z) (ins : list Z) :
  NoDup ins -> l ∈ ins -> l ∉ V ->
  Datatypes.S (length (filter (fun x => x ∉ {[l]} ∪ V) ins))
  = length (filter (fun x => x ∉ V) ins).
Proof.
  induction ins as [|a ins IH]; intros Hnd Hin HV.
  - by apply elem_of_nil in Hin.
  - apply NoDup_cons in Hnd as [Ha Hnd]. rewrite !filter_cons.
    destruct (decide (a = l)) as [-> | Hne].
    + destruct (decide (l ∉ {[l]} ∪ V)) as [Hc|_]; [set_solver|].
      destruct (decide (l ∉ V)); [|done]. simpl. f_equal.
      f_equal. apply filter_ext_elem. intros x Hx. set_solver.
    + apply elem_of_cons in Hin as [?|Hin]; [congruence|].
      specialize (IH Hnd Hin HV).
      destruct (decide (a ∉ {[l]} ∪ V)), (decide (a ∉ V)); simpl; try lia; set_solver.
Qed.

Lemma tc_cycle_of_closed {A} `{EqDecision A} (R : relation A) (X : list A) :
  X ≠ [] -> (∀ t, t ∈ X -> ∃ o, o ∈ X ∧ tc R o t) -> ∃ r, tc R r r.
Proof.
  induction X as [|a X IH]; intros Hne Hpred; [done|].
  destruct (Hpred a) as (o0 & Ho0 & Hoa); [by left|].
  destruct (decide (o0 = a)) as [-> | Hoa'].
  { by exists a. }
  apply elem_of_cons in Ho0 as [?|Ho0]; [done|].
  apply IH.
  - intros ->. by apply elem_of_nil in Ho0.
  - intros t Ht. destruct (Hpred t) as (o & Ho & Hot); [by right|].
    destruct (decide (o = a)) as [-> | Hne'].
    + exists o0. split; [done|]. by etrans.
    + apply elem_of_cons in Ho as [?|Ho]; [done|]. by exists o.
Qed.

Section Links.
Variable g : LGraph.
Hypothesis Hwf : graph_wf g.

Local Abbreviation N := (_nodes g).
Local Abbreviation idr := (node_id g).

Lemma out_link_target o l :
  o ∈ N -> l ∈ out_link_ids (heap g o) ->
  ∃ lk t, links g !! l = Some lk ∧ Link.id lk = l ∧
          Link.origin_id lk = idr o ∧ t ∈ N ∧ Link.target_id lk = idr t ∧
          l ∈ in_link_ids (heap g t) ∧
          _nodes_by_id g !! Link.target_id lk = Some t.
Proof.
  intros Ho [i Hi]%elem_of_out_link_ids.
  destruct (wf_output g Hwf o i l Ho Hi) as (lk & Hlk & Horig & _).
  destruct (wf_link g Hwf l lk Hlk) as (Hid & _ & t & Ht & Htid & Hin).
  exists lk, t. split_and!; try done.
  - apply elem_of_in_link_ids. eauto.
  - rewrite <- Htid. by apply (wf_by_id g Hwf).
Qed.

Lemma in_link_origin t l :
  t ∈ N -> l ∈ in_link_ids (heap g t) ->
  ∃ lk o, links g !! l = Some lk ∧ Link.target_id lk = idr t ∧
          o ∈ N ∧ Link.origin_id lk = idr o ∧ l ∈ out_link_ids (heap g o).
Proof.
  intros Ht [i Hi]%elem_of_in_link_ids.
  destruct (wf_input g Hwf t i l Ht Hi) as (lk & Hlk & Htgt & _).
  destruct (wf_link g Hwf l lk Hlk) as (Hid & (o & Ho & Hoid & Hout) & _).
  exists lk, o. split_and!; try done.
  apply elem_of_out_link_ids. eauto.
Qed.

Lemma in_link_unique t1 t2 l :
  t1 ∈ N -> t2 ∈ N -> l ∈ in_link_ids (heap g t1) ->
  l ∈ in_link_ids (heap g t2) -> t1 = t2.
Proof.
  intros H1 H2 Hl1 Hl2.
  destruct (in_link_origin t1 l H1 Hl1) as (lk1 & _ & Hlk1 & Ht1 & _).
  destruct (in_link_origin t2 l H2 Hl2) as (lk2 & _ & Hlk2 & Ht2 & _).
  apply (ids_inj g (wf_ids g Hwf)); [done..|]. congruence.
Qed.

Lemma out_link_unique o1 o2 l :
  o1 ∈ N -> o2 ∈ N -> l ∈ out_link_ids (heap g o1) ->
  l ∈ out_link_ids (heap g o2) -> o1 = o2.
Proof.
  intros H1 H2 Hl1 Hl2.
  destruct (out_link_target o1 l H1 Hl1) as (lk1 & _ & Hlk1 & _ & Ho1 & _).
  destruct (out_link_target o2 l H2 Hl2) as (lk2 & _ & Hlk2 & _ & Ho2 & _).
  apply (ids_inj g (wf_ids g Hwf)); [done..|]. congruence.
Qed.

Lemma in_link_ids_nodup t : t ∈ N -> NoDup (in_link_ids (heap g t)).
Proof.
  intros Ht. unfold in_link_ids.
  destruct (inputs (heap g t)) as [ins|] eqn:Hins; [|apply NoDup_nil_2].
  apply NoDup_omap_index. intros i j a b x Hi Hj Ha Hb.
  assert (Hhas : ∀ k s, ins !! k = Some s -> s ≫= link = Some x ->
                        input_has (heap g t) k x).
  { intros k s Hk Hs. exists ins. split; [done|]. rewrite Hk.
    destruct s as [[[l'|]]|]; simpl in Hs; by simplify_eq. }
  destruct (wf_input g Hwf t i x Ht (Hhas i a Hi Ha)) as (lk1 & Hlk1 & _ & <-).
  destruct (wf_input g Hwf t j x Ht (Hhas j b Hj Hb)) as (lk2 & Hlk2 & _ & <-).
  congruence.
Qed.

(** A link record between registered nodes is stored on both of them. *)
Lemma feeds_link o t :
  feeds g o t ->
  ∃ l, l ∈ out_link_ids (heap g o) ∧ l ∈ in_link_ids (heap g t).
Proof.
  intros (Ho & Ht & l & lk & Hlk & Horig & Htgt).
  destruct (wf_link g Hwf l lk Hlk) as
    (_ & (o' & Ho' & Hoid & Hout) & (t' & Ht' & Htid & Hin)).
  assert (o' = o) as -> by (apply (ids_inj g (wf_ids g Hwf)); congruence).
  assert (t' = t) as -> by (apply (ids_inj g (wf_ids g Hwf)); congruence).
  exists l. split; [apply elem_of_out_link_ids|apply elem_of_in_link_ids]; eauto.
Qed.
End Links.

(** ** Topological order: the invariant of the loop *)

Lemma ceo_link_L g st l : L (ceo_link g st l) = L st.
Proof.
  unfold ceo_link. destruct (links g !! l); [|done].
  case_decide; [done|]. destruct (getNodeById g _); [|done].
  by destruct (jsnum_is_zero _).
Qed.

Lemma ceo_link_visited_mono g st l x :
  x ∈ visited_links st -> x ∈ visited_links (ceo_link g st l).
Proof.
  intros Hx. unfold ceo_link. destruct (links g !! l); [|done].
  case_decide; [done|]. destruct (getNodeById g _); [|set_solver].
  destruct (jsnum_is_zero _); set_solver.
Qed.

Lemma ceo_link_marks g st l lk :
  links g !! l = Some lk -> Link.id lk = l -> l ∈ visited_links (ceo_link g st l).
Proof.
  intros Hlk Hid. unfold ceo_link. rewrite Hlk, Hid.
  case_decide; [done|]. destruct (getNodeById g _); [|set_solver].
  destruct (jsnum_is_zero _); set_solver.
Qed.

Lemma ceo_links_L g ls st : L (foldl (ceo_link g) st ls) = L st.
Proof.
  revert st. induction ls as [|l ls IH]; intros st; simpl; [done|].
  by rewrite IH, ceo_link_L.
Qed.

Lemma ceo_links_visited_mono g ls st x :
  x ∈ visited_links st -> x ∈ visited_links (foldl (ceo_link g) st ls).
Proof.
  revert st. induction ls as [|l ls IH]; intros st Hx; simpl; [done|].
  by apply IH, ceo_link_visited_mono.
Qed.

Lemma ceo_links_mark g ls st :
  (∀ l, l ∈ ls -> ∃ lk, links g !! l = Some lk ∧ Link.id lk = l) ->
  ∀ l, l ∈ ls -> l ∈ visited_links (foldl (ceo_link g) st ls).
Proof.
  revert st. induction ls as [|a ls IH]; intros st Hls l Hl; simpl.
  - by apply elem_of_nil in Hl.
  - apply elem_of_cons in Hl as [-> | Hl].
    + destruct (Hls a) as (lk & Hlk & Hid); [by left|].
      apply ceo_links_visited_mono. by eapply ceo_link_marks.
    + apply IH; [|done]. intros l' Hl'. apply Hls. by right.
Qed.

Section Topological.
Variable g : LGraph.
Hypothesis Hwf : graph_wf g.

Local Abbreviation N := (_nodes g).
Local Abbreviation idr := (node_id g).

Lemma unvisited_other V l t t' :
  t ∈ N -> t' ∈ N -> t' ≠ t -> l ∈ in_link_ids (heap g t) ->
  unvisited g ({[l]} ∪ V) t' = unvisited g V t'.
Proof.
  intros Ht Ht' Hne Hl. unfold unvisited.
  apply filter_ext_elem. intros x Hx.
  assert (x ≠ l); [|set_solver].
  intros ->. apply Hne. by eapply (in_link_unique g Hwf).
Qed.

(** One link of the node [r] being processed. *)
Lemma ceo_link_topo st r l :
  r ∈ N -> r ∈ L st -> l ∈ out_link_ids (heap g r) ->
  topo_inv g st -> topo_inv g (ceo_link g st l).
Proof.
  intros Hr HrL Hl [Hrem Hq Hvis Hbef].
  destruct (out_link_target g Hwf r l Hr Hl)
    as (lk & t & Hlk & Hid & Horig & Ht & Htid & Hin & Hby).
  unfold ceo_link. rewrite Hlk, Hid.
  case_decide as HV; [done|].
  simpl. rewrite Hby.
  set (V' := {[l]} ∪ visited_links st).
  assert (Hne : in_link_ids (heap g t) ≠ []).
  { intros Heq. rewrite Heq in Hin. by apply elem_of_nil in Hin. }
  assert (Hlen : Datatypes.S (length (unvisited g V' t))
                 = length (unvisited g (visited_links st) t)).
  { apply length_filter_visit; [by apply (in_link_ids_nodup g Hwf)|done..]. }
  assert (Hleft : jsnum_dec1 (remaining_links st !! idr t)
                  = Num (Z.of_nat (length (unvisited g V' t)))).
  { rewrite (Hrem t Ht). destruct (decide _) as [|_]; [done|].
    simpl. f_equal. lia. }
  rewrite Hleft.
  assert (Hrem' : ∀ t', t' ∈ N ->
    <[idr t := Num (Z.of_nat (length (unvisited g V' t)))]> (remaining_links st)
      !! idr t' =
    if decide (in_link_ids (heap g t') = []) then None
    else Some (Num (Z.of_nat (length (unvisited g V' t'))))).
  { intros t' Ht'. destruct (decide (t' = t)) as [-> | Hne'].
    - rewrite lookup_insert_eq. by destruct (decide _).
    - rewrite lookup_insert_ne.
      + rewrite (Hrem t' Ht'). unfold V'.
        by rewrite (unvisited_other _ l t t').
      + intros Heq. apply Hne'. symmetry.
        by apply (ids_inj g (wf_ids g Hwf)). }
  assert (Hvis' : ∀ x, x ∈ V' -> ∃ o, o ∈ L st ∧ x ∈ out_link_ids (heap g o)).
  { intros x [->%elem_of_singleton | Hx]%elem_of_union; [by exists r|auto]. }
  assert (HtQ : t ∉ L st ++ S st).
  { rewrite (Hq t Ht). intros Heq.
    assert (l ∈ unvisited g (visited_links st) t) as Hin'
      by (by apply list_elem_of_filter).
    rewrite Heq in Hin'. by apply elem_of_nil in Hin'. }
  simpl. destruct (Z.eqb_spec (Z.of_nat (length (unvisited g V' t))) 0) as [Hz | Hz].
  - (* all the inputs of [t] have been visited: [t] joins [S] *)
    assert (Hnil : unvisited g V' t = []).
    { apply length_zero_iff_nil. lia. }
    constructor; simpl; [done| | done|].
    + intros t' Ht'. rewrite app_assoc, elem_of_app, list_elem_of_singleton.
      destruct (decide (t' = t)) as [-> | Hne'].
      * split; [done|auto].
      * unfold V'. rewrite (unvisited_other _ l t t') by done.
        rewrite <- (Hq t' Ht'). tauto.
    + intros j t' l' Hj Hl'. rewrite app_assoc in Hj.
      apply lookup_app_Some in Hj as [Hj | [Hge Hj]]; [by eapply Hbef|].
      apply list_lookup_singleton_Some in Hj as [_ <-].
      assert (l' ∈ V') as Hl'V.
      { destruct (decide (l' ∈ V')) as [|Hn]; [done|].
        assert (l' ∈ unvisited g V' t) as Hu by (by apply list_elem_of_filter).
        rewrite Hnil in Hu. by apply elem_of_nil in Hu. }
      destruct (Hvis' l' Hl'V) as (o & Ho & Hout).
      apply list_elem_of_lookup in Ho as [i Hi].
      exists i, o. split_and!; [done| |done].
      apply lookup_lt_Some in Hi. rewrite length_app in Hge. lia.
  - constructor; simpl; [done| |done|done].
    intros t' Ht'. destruct (decide (t' = t)) as [-> | Hne'].
    + split; [done|]. intros Hnil. rewrite Hnil in Hz. done.
    + unfold V'. rewrite (unvisited_other _ l t t') by done. by apply Hq.
Qed.

Lemma ceo_links_topo st r ls :
  r ∈ N -> r ∈ L st -> (∀ l, l ∈ ls -> l ∈ out_link_ids (heap g r)) ->
  topo_inv g st -> topo_inv g (foldl (ceo_link g) st ls).
Proof.
  intros Hr HrL Hls Hinv.
  apply (foldl_inv (fun s => topo_inv g s ∧ r ∈ L s)); [|done].
  intros s l Hl [Hs HsL]. split.
  - eapply ceo_link_topo; eauto.
  - by rewrite ceo_link_L.
Qed.

Lemma ceo_turn_topo st r S' :
  S st = r :: S' -> ceo_inv g st -> topo_inv g st -> outs_visited g st ->
  topo_inv g (ceo_turn g st r S') ∧ outs_visited g (ceo_turn g st r S').
Proof.
  intros HS Hci [Hrem Hq Hvis Hbef] Hov.
  assert (Hr : r ∈ N).
  { apply (inv_live g st Hci). rewrite HS. set_solver. }
  unfold ceo_turn. rewrite ceo_outputs_flat.
  set (st1 := mkCeo _ _ _ _ _).
  assert (Hl1 : L st1 ++ S st1 = L st ++ S st).
  { simpl. by rewrite HS, <- app_assoc. }
  assert (Hinv1 : topo_inv g st1).
  { constructor.
    - done.
    - intros t Ht. rewrite Hl1. by apply Hq.
    - intros l Hl. destruct (Hvis l Hl) as (o & Ho & Hout).
      exists o. split; [|done]. simpl. set_solver.
    - intros j t l. rewrite Hl1. intros Hj Hl.
      destruct (Hbef j t l Hj Hl) as (i & o & Hi & Hij & Hout).
      exists i, o. split_and!; [|done..]. simpl. by apply lookup_app_l_Some. }
  split.
  - apply (ceo_links_topo st1 r); [done|simpl; set_solver|done|done].
  - intros o l Ho Hl. rewrite ceo_links_L in Ho. simpl in Ho.
    apply elem_of_app in Ho as [Ho | ->%list_elem_of_singleton].
    + apply ceo_links_visited_mono. simpl. by eapply Hov.
    + apply ceo_links_mark; [|done].
      intros l' Hl'. destruct (out_link_target g Hwf r l' Hr Hl')
        as (lk & t & Hlk & Hid & _). eauto.
Qed.

Lemma ceo_loop_topo fuel st st' :
  ceo_loop fuel g st = Some st' ->
  ceo_inv g st -> topo_inv g st -> outs_visited g st ->
  topo_inv g st' ∧ outs_visited g st'.
Proof.
  revert st. induction fuel as [|fuel IH]; intros st; simpl.
  - destruct (S st) eqn:HS; [|done]. intros [= <-]. done.
  - destruct (S st) as [|r S'] eqn:HS.
    + intros [= <-]. done.
    + intros Hl Hci Hti Hov.
      destruct (ceo_turn_topo st r S' HS Hci Hti Hov).
      eapply IH; [done| |done..].
      by apply (ceo_turn_inv g (wf_ids g Hwf)).
Qed.

(** The first loop. *)
Lemma ceo_scan_topo l :
  NoDup (idr <$> l) ->
  let st := foldl (ceo_scan g) ceo_init l in
  visited_links st = ∅ ∧ L st = [] ∧
  (∀ t, t ∈ l -> remaining_links st !! idr t =
     if decide (in_link_ids (heap g t) = []) then None
     else Some (Num (Z.of_nat (length (in_link_ids (heap g t)))))) ∧
  (∀ k, k ∉ idr <$> l -> remaining_links st !! k = None) ∧
  (∀ t, t ∈ S st ↔ t ∈ l ∧ in_link_ids (heap g t) = []).
Proof.
  induction l as [|r l IH] using rev_ind; intros Hnd; simpl.
  - split_and!; try done; [by intros t ?%elem_of_nil|].
    intros t. split; [by intros ?%elem_of_nil|by intros [?%elem_of_nil _]].
  - rewrite fmap_app in Hnd. apply NoDup_app in Hnd as (Hndl & Hfresh & _).
    destruct (IH Hndl) as (HV & HL & Hrem & Hout & HS). clear IH.
    rewrite foldl_snoc.
    set (st := foldl (ceo_scan g) ceo_init l) in *.
    assert (Hrid : idr r ∉ idr <$> l).
    { intros Hin. apply (Hfresh _ Hin). simpl. by left. }
    assert (Hrl : ∀ t, t ∈ l -> idr t ≠ idr r).
    { intros t Ht Heq. apply Hrid. rewrite <- Heq.
      apply list_elem_of_fmap. by exists t. }
    unfold ceo_scan. rewrite count_inputs_length.
    fold (node_id g r).
    destruct (Nat.eqb_spec (length (in_link_ids (heap g r))) 0) as [Hz | Hz]; simpl.
    + apply length_zero_iff_nil in Hz.
      split_and!; [done..| | |].
      * intros t [Ht| ->%list_elem_of_singleton]%elem_of_app; [auto|].
        rewrite Hout by done. by rewrite decide_True.
      * intros k Hk. apply Hout. rewrite fmap_app in Hk. set_solver.
      * intros t. rewrite !elem_of_app, HS, list_elem_of_singleton.
        split; [intros [[? ?]| ->]; auto|]. intros [[?| ->] ?]; auto.
    + assert (in_link_ids (heap g r) ≠ []) as Hne.
      { intros Heq. by rewrite Heq in Hz. }
      split_and!; [done..| | |].
      * intros t [Ht| ->%list_elem_of_singleton]%elem_of_app.
        -- rewrite lookup_insert_ne by (apply not_eq_sym; auto). auto.
        -- rewrite lookup_insert_eq. by rewrite decide_False.
      * intros k Hk. rewrite fmap_app in Hk.
        rewrite lookup_insert_ne; [apply Hout|]; set_solver.
      * intros t. rewrite HS, elem_of_app, list_elem_of_singleton.
        split; [intros [? ?]; auto|]. intros [[?| ->] ?]; done.
Qed.

Lemma unvisited_empty t : unvisited g ∅ t = in_link_ids (heap g t).
Proof.
  unfold unvisited.
  induction (in_link_ids (heap g t)) as [|a l IH]; [done|].
  rewrite filter_cons_True by set_solver. by rewrite IH.
Qed.

Lemma ceo_scan_topo_establishes :
  let st := foldl (ceo_scan g) ceo_init N in
  topo_inv g st ∧ outs_visited g st.
Proof.
  destruct (ceo_scan_topo N (ids_nodup g (wf_ids g Hwf)))
    as (HV & HL & Hrem & _ & HS).
  simpl. split.
  - constructor.
    + intros t Ht. rewrite HV, unvisited_empty. by apply Hrem.
    + intros t Ht. rewrite HL, HV, unvisited_empty, HS. simpl. tauto.
    + intros l. rewrite HV. set_solver.
    + intros j t l Hj Hl. rewrite HL in Hj. simpl in Hj.
      apply list_elem_of_lookup_2, HS in Hj as [_ Hnil].
      rewrite Hnil in Hl. by apply elem_of_nil in Hl.
  - intros o l. rewrite HL. by intros ?%elem_of_nil.
Qed.

(** In an acyclic graph no node is left pending when [S] runs empty. *)
Lemma ceo_acyclic_all_ordered st :
  acyclic g -> ceo_inv g st -> topo_inv g st -> outs_visited g st ->
  S st = [] -> filter (fun r => r ∉ L st) N = [].
Proof.
  intros Hac Hci [Hrem Hq Hvis Hbef] Hov HS.
  destruct (filter (fun r => r ∉ L st) N) as [|a X] eqn:HX; [done|].
  exfalso.
  destruct (tc_cycle_of_closed (feeds g) (a :: X)) as [r Hcyc]; [done| |by eapply Hac].
  rewrite <- HX. intros t [HtL Ht]%list_elem_of_filter.
  assert (Hu : unvisited g (visited_links st) t ≠ []).
  { rewrite <- (Hq t Ht), HS, app_nil_r. done. }
  destruct (unvisited g (visited_links st) t) as [|l u] eqn:Hun; [done|].
  assert (Hl : l ∈ unvisited g (visited_links st) t) by (rewrite Hun; by left).
  apply list_elem_of_filter in Hl as [HlV Hlin].
  destruct (in_link_origin g Hwf t l Ht Hlin) as (lk & o & Hlk & Htgt & Ho & Hoid & Hout).
  exists o. split.
  - apply list_elem_of_filter. split; [|done].
    intros HoL. apply HlV. by eapply Hov.
  - apply tc_once. split_and!; [done..|]. by exists l, lk.
Qed.
End Topological.

(** ** The orders written on the nodes *)

Lemma assign_order_notin h i l r : r ∉ l -> assign_order h i l r = h r.
Proof.
  revert h i. induction l as [|a l IH]; intros h i Hr; simpl; [done|].
  apply not_elem_of_cons in Hr as [Hne Hr].
  rewrite IH by done. by rewrite fn_lookup_insert_ne.
Qed.

Lemma assign_order_index h i l j r :
  NoDup l -> l !! j = Some r ->
  order (assign_order h i l r) = Some (index_key (i + j)).
Proof.
  revert h i j. induction l as [|a l IH]; intros h i j Hnd Hj; [done|].
  apply NoDup_cons in Hnd as [Ha Hnd]. simpl.
  destruct j as [|j]; simpl in Hj.
  - injection Hj as ->. rewrite assign_order_notin by done.
    rewrite fn_lookup_insert. simpl. by rewrite Nat.add_0_r.
  - rewrite (IH _ _ j) by done. by rewrite Nat.add_succ_r.
Qed.

Lemma order_lt_trans g x y z : order_lt g x y -> order_lt g y z -> order_lt g x z.
Proof.
  intros (i & j & Hi & Hj & Hij) (j' & k & Hj' & Hk & Hjk).
  exists i, k. split_and!; [done..|]. rewrite Hj in Hj'.
  injection Hj' as Heq. apply (inj pretty) in Heq as <-. lia.
Qed.

(** ** The two properties of the resolver *)

(** C2, amended. On every graph whose nodes have distinct ids and whose id
    map is consistent with the node list, cyclic or not,
    [computeExecutionOrder] returns, and the list it returns has as many
    elements as the graph has nodes and contains every node exactly once. *)
Theorem computeExecutionOrder_covers (g : LGraph) :
  ids_wf g ->
  ∃ l g', computeExecutionOrder g = Some (l, g') ∧
          length l = length (_nodes g) ∧ NoDup l ∧ l ≡ₚ _nodes g.
Proof.
  intros Hwf. unfold computeExecutionOrder.
  destruct (ceo_loop_total g) as [st Hst]. rewrite Hst.
  destruct (ceo_loop_inv g Hwf _ _ _ Hst (ceo_scan_establishes g Hwf)) as [Hinv HS].
  pose proof (ceo_result_perm g Hwf st Hinv HS) as Hperm.
  eexists _, _. split_and!; [done| | |done].
  - by rewrite Hperm.
  - rewrite Hperm. by apply nodes_nodup.
Qed.

(** C1, amended. On an acyclic graph that satisfies the invariants of the
    data model (distinct ids, every link attached to a slot of a registered
    node at both ends, every link of a slot in the link map), after
    [computeExecutionOrder] the order written on a node is the key of its
    position in the list returned, and the origin of every link, and of
    every chain of links, has its position below that of the target. *)
Theorem computeExecutionOrder_topological (g : LGraph) :
  graph_wf g -> acyclic g ->
  ∃ l g', computeExecutionOrder g = Some (l, g') ∧
          (∀ i r, l !! i = Some r -> order (heap g' r) = Some (index_key i)) ∧
          (∀ o t, tc (feeds g) o t ->
             ∃ i j, l !! i = Some o ∧ l !! j = Some t ∧ i < j) ∧
          (∀ o t, feeds g o t -> order_lt g' o t) ∧
          (∀ o t, tc (feeds g) o t -> order_lt g' o t).
Proof.
  intros Hwf Hac. unfold computeExecutionOrder.
  pose proof (wf_ids g Hwf) as Hids.
  destruct (ceo_loop_total g) as [st Hst]. rewrite Hst.
  pose proof (ceo_scan_establishes g Hids) as Hci0.
  destruct (ceo_scan_topo_establishes g Hwf) as [Hti0 Hov0].
  destruct (ceo_loop_inv g Hids _ _ _ Hst Hci0) as [Hci HS].
  destruct (ceo_loop_topo g Hwf _ _ _ Hst Hci0 Hti0 Hov0) as [Hti Hov].
  pose proof (ceo_acyclic_all_ordered g Hwf st Hac Hci Hti Hov HS) as Hall.
  assert (HM : M st = []).
  { apply Permutation_nil_r. rewrite (inv_M g st Hci), Hall. done. }
  rewrite HM. simpl. rewrite app_nil_r.
  assert (Hnd : NoDup (L st)).
  { pose proof (inv_nodup g st Hci) as H. by rewrite HS, app_nil_r in H. }
  assert (Hkey : ∀ i r, L st !! i = Some r ->
            order (assign_order (heap g) 0 (L st) r) = Some (index_key i)).
  { intros i r Hi. by rewrite (assign_order_index _ 0 _ i). }
  assert (Hdirect : ∀ o t, feeds g o t ->
            ∃ i j, L st !! i = Some o ∧ L st !! j = Some t ∧ i < j).
  { intros o t Hf. pose proof Hf as (Ho & Ht & _).
    destruct (feeds_link g Hwf o t Hf) as (l & Hout & Hin).
    assert (HtL : t ∈ L st).
    { destruct (decide (t ∈ L st)) as [|Hn]; [done|].
      assert (t ∈ filter (fun r => r ∉ L st) (_nodes g)) as Hx
        by (by apply list_elem_of_filter).
      rewrite Hall in Hx. by apply elem_of_nil in Hx. }
    apply list_elem_of_lookup in HtL as [j Hj].
    destruct (ti_before g st Hti j t l) as (i & o' & Hi & Hij & Hout');
      [by rewrite HS, app_nil_r|done|].
    assert (o' = o) as ->.
    { apply (out_link_unique g Hwf _ _ l); [|done..].
      apply (inv_live g st Hci). rewrite elem_of_app. left.
      by eapply list_elem_of_lookup_2. }
    by exists i, j. }
  assert (Hchain : ∀ o t, tc (feeds g) o t ->
            ∃ i j, L st !! i = Some o ∧ L st !! j = Some t ∧ i < j).
  { intros o t Htc. induction Htc as [x y Hxy | x y z Hxy _ IH].
    - by apply Hdirect.
    - destruct IH as (i' & j & Hi' & Hj & Hlt).
      destruct (Hdirect x y Hxy) as (i & i'' & Hi & Hi'' & Hlt').
      pose proof (NoDup_lookup _ i' i'' y Hnd Hi' Hi'') as ->.
      exists i, j. split_and!; [done..|lia]. }
  assert (Horder : ∀ o t, tc (feeds g) o t ->
            order_lt (set_heap (assign_order (heap g) 0 (L st)) g) o t).
  { intros o t Htc. destruct (Hchain o t Htc) as (i & j & Hi & Hj & Hij).
    exists i, j. simpl. split_and!; [by apply Hkey..|done]. }
  eexists _, _. split_and!; [done|done|done| |done].
  intros o t Hf. by apply Horder, tc_once.
Qed.

(** ** Soundness of the executable checks *)

Lemma forallb_elem {A} (f : A -> bool) (l : list A) x :
  forallb f l = true -> x ∈ l -> f x = true.
Proof.
  intros Hf Hx. rewrite forallb_forall in Hf. apply Hf. by apply list_elem_of_In.
Qed.

Lemma existsb_elem {A} (f : A -> bool) (l : list A) :
  existsb f l = true -> ∃ x, x ∈ l ∧ f x = true.
Proof.
  intros (x & Hx & Hfx)%existsb_exists. exists x. split; [|done].
  by apply list_elem_of_In.
Qed.

Lemma input_has_b_sound n i l : input_has_b n i l = true -> input_has n i l.
Proof.
  unfold input_has_b, input_has. destruct (inputs n) as [ins|]; [|done].
  destruct (ins !! i) as [[[[l'|]]|]|] eqn:Hi; try done.
  intros ->%bool_decide_eq_true. by exists ins.
Qed.

Lemma output_has_b_sound n i l : output_has_b n i l = true -> output_has n i l.
Proof.
  unfold output_has_b, output_has. destruct (outputs n) as [outs|]; [|done].
  destruct (outs !! i) as [[[[ls|]]|]|] eqn:Hi; try done.
  intros Hl%bool_decide_eq_true. by exists outs, ls.
Qed.

Lemma ids_wf_b_sound g : ids_wf_b g = true -> ids_wf g.
Proof.
  unfold ids_wf_b. intros [Hnd Hres]%andb_true_iff.
  apply bool_decide_eq_true in Hnd. constructor; [done|].
  intros k r Hk.
  apply (forallb_elem _ _ (k, r)) in Hres; [|by apply elem_of_map_to_list].
  simpl in Hres. apply orb_true_iff in Hres as [Hin | Hout].
  - left. by apply bool_decide_eq_true in Hin.
  - right. apply negb_true_iff in Hout. by apply bool_decide_eq_false in Hout.
Qed.

Lemma graph_wf_b_sound g : graph_wf_b g = true -> graph_wf g.
Proof.
  unfold graph_wf_b.
  intros [[[Hids Hby]%andb_true_iff Hlk]%andb_true_iff Hsl]%andb_true_iff.
  constructor.
  - by apply ids_wf_b_sound.
  - intros r Hr. apply (forallb_elem _ _ r) in Hby; [|done].
    by apply bool_decide_eq_true in Hby.
  - intros l lk Hl.
    apply (forallb_elem _ _ (l, lk)) in Hlk; [|by apply elem_of_map_to_list].
    unfold link_wf_b in Hlk. simpl in Hlk.
    apply andb_true_iff in Hlk as [[Hid Ho]%andb_true_iff Ht].
    apply bool_decide_eq_true in Hid.
    apply existsb_elem in Ho as (o & Ho & [Hoid Hout]%andb_true_iff).
    apply existsb_elem in Ht as (t & Ht & [Htid Hin]%andb_true_iff).
    apply bool_decide_eq_true in Hoid, Htid.
    split_and!; [done|exists o|exists t]; split_and!; try done.
    + by apply output_has_b_sound.
    + by apply input_has_b_sound.
  - intros t i l Ht (ins & Hins & Hi).
    apply (forallb_elem _ _ t) in Hsl; [|done].
    unfold slots_wf_b in Hsl. rewrite Hins in Hsl.
    apply andb_true_iff in Hsl as [Hsl _].
    apply (forallb_elem _ _ (i, Some {| link := Some l |})) in Hsl.
    + unfold input_slot_wf_b in Hsl. simpl in Hsl.
      destruct (links g !! l) as [lk|]; [|done].
      apply andb_true_iff in Hsl as [?%bool_decide_eq_true ?%bool_decide_eq_true].
      by exists lk.
    + apply list_elem_of_lookup. exists i. by rewrite list_lookup_imap, Hi.
  - intros o i l Ho (outs & ls & Houts & Hi & Hl).
    apply (forallb_elem _ _ o) in Hsl; [|done].
    unfold slots_wf_b in Hsl. rewrite Houts in Hsl.
    apply andb_true_iff in Hsl as [_ Hsl].
    apply (forallb_elem _ _ (i, Some {| links_of := Some ls |})) in Hsl.
    + unfold output_slot_wf_b in Hsl. simpl in Hsl.
      apply (forallb_elem _ _ l) in Hsl; [|done]. simpl in Hsl.
      destruct (links g !! l) as [lk|]; [|done].
      apply andb_true_iff in Hsl as [?%bool_decide_eq_true ?%bool_decide_eq_true].
      by exists lk.
    + apply list_elem_of_lookup. exists i. by rewrite list_lookup_imap, Hi.
Qed.

Lemma ranked_b_sound g rank : ranked_b g rank = true -> acyclic g.
Proof.
  intros Hr.
  assert (Hstep : ∀ o t, feeds g o t -> rank o < rank t).
  { intros o t (Ho & Ht & l & lk & Hl & Hoid & Htid).
    apply (forallb_elem _ _ (l, lk)) in Hr; [|by apply elem_of_map_to_list].
    apply (forallb_elem _ _ o) in Hr; [|done].
    apply (forallb_elem _ _ t) in Hr; [|done].
    simpl in Hr. rewrite !bool_decide_eq_true_2 in Hr by done.
    simpl in Hr. by apply Nat.ltb_lt in Hr. }
  assert (Htc : ∀ o t, tc (feeds g) o t -> rank o < rank t).
  { intros o t Htc. induction Htc as [x y Hxy | x y z Hxy _ IH].
    - by apply Hstep.
    - apply Hstep in Hxy. lia. }
  intros r Hcyc. apply Htc in Hcyc. lia.
Qed.

(** ** The resolver on the example graphs *)

Lemma computeExecutionOrder_covers_witness :
  ∃ l g', computeExecutionOrder two_cycle_graph = Some (l, g') ∧
          length l = length (_nodes two_cycle_graph) ∧ NoDup l ∧
          l ≡ₚ _nodes two_cycle_graph.
Proof.
  apply computeExecutionOrder_covers.
  apply ids_wf_b_sound. vm_compute. reflexivity.
Defined.

Example two_cycle_order :
  fst <$> computeExecutionOrder two_cycle_graph = Some [0; 1].
Proof. vm_compute. reflexivity. Qed.

Lemma computeExecutionOrder_topological_witness :
  ∃ l g', computeExecutionOrder fan_in_graph = Some (l, g') ∧
          (∀ i r, l !! i = Some r -> order (heap g' r) = Some (index_key i)) ∧
          (∀ o t, tc (feeds fan_in_graph) o t ->
             ∃ i j, l !! i = Some o ∧ l !! j = Some t ∧ i < j) ∧
          (∀ o t, feeds fan_in_graph o t -> order_lt g' o t) ∧
          (∀ o t, tc (feeds fan_in_graph) o t -> order_lt g' o t).
Proof.
  apply computeExecutionOrder_topological.
  - apply graph_wf_b_sound. vm_compute. reflexivity.
  - apply (ranked_b_sound _ (fun r => r)). vm_compute. reflexivity.
Defined.

Example fan_in_order :
  (fun r => (r.1, (fun x => order (heap r.2 x)) <$> [0; 1; 2]))
    <$> computeExecutionOrder fan_in_graph
  = Some ([0; 1; 2], [Some "0"; Some "1"; Some "2"]).
Proof. vm_compute. reflexivity. Qed.

(** C2 fails on a graph that two calls of [add] build: a node that carries
    an id and an unassigned node that the counter gives the same id. With a
    connected input each, the two wait under one key of [M], and the list
    returned has one node for the two of the graph. *)
Lemma computeExecutionOrder_covers_counterexample :
  ¬ coverage_claim duplicate_id_graph.
Proof.
  intros (l & g' & Hc & Hlen & _).
  assert (Hl : fst <$> computeExecutionOrder duplicate_id_graph = Some [1])
    by (vm_compute; reflexivity).
  rewrite Hc in Hl. injection Hl as ->.
  vm_compute in Hlen. discriminate.
Qed.

Example duplicate_id_order :
  _nodes duplicate_id_graph = [0; 1] ∧
  node_id duplicate_id_graph 0 = node_id duplicate_id_graph 1 ∧
  fst <$> computeExecutionOrder duplicate_id_graph = Some [1].
Proof. vm_compute. done. Qed.

(** C1 fails on an acyclic graph with a link whose origin is not in the
    graph: the node that waits for it is never taken, nor is the node it
    feeds, and the two are appended by ascending id, the target first. *)
Lemma computeExecutionOrder_topological_counterexample :
  ¬ topological_claim dangling_link_graph.
Proof.
  intros Hclaim.
  destruct Hclaim as (l & g' & Hc & Hlt).
  { apply (ranked_b_sound _ (fun r => match r with 5 => 0 | _ => 1 end)).
    vm_compute. reflexivity. }
  assert (Hf : feeds dangling_link_graph 5 3).
  { split_and!; [set_solver..|].
    exists 2%Z, (Link.mk 2 5 0 3 0). split_and!; reflexivity. }
  destruct (Hlt 5 3 Hf) as (i & j & Hi & Hj & Hij).
  assert (Ho : (fun r => (order (heap r.2 5), order (heap r.2 3)))
                 <$> computeExecutionOrder dangling_link_graph
               = Some (Some (index_key 1), Some (index_key 0)))
    by (vm_compute; reflexivity).
  rewrite Hc in Ho. simpl in Ho. rewrite Hi, Hj in Ho.
  injection Ho as Hi' Hj'.
  apply (inj pretty) in Hi'. apply (inj pretty) in Hj'. lia.
Qed.

(** The order stored is the key of the position, a string: on a chain of
    eleven nodes the last link goes from order "9" to order "10", and [<]
    on these two strings is false. *)
Example order_keys_compare_as_strings :
  feeds chain_graph 9 10 ∧
  (fun r => (order (heap r.2 9), order (heap r.2 10)))
    <$> computeExecutionOrder chain_graph = Some (Some "9", Some "10") ∧
  js_string_lt "9" "10" = false.
Proof.
  split_and!; [|vm_compute; reflexivity..].
  split_and!; [set_solver..|].
  exists 10%Z, (Link.mk 10 9 0 10 0). split_and!; reflexivity.
Qed.

(** * The graph model: add and remove *)

(** ** Frames of the helpers *)

Lemma same_ids_refl g : same_ids g g.
Proof. unfold same_ids. by split_and!. Qed.

Lemma same_ids_trans g1 g2 g3 : same_ids g1 g2 -> same_ids g2 g3 -> same_ids g1 g3.
Proof.
  intros (H1 & H2 & H3 & H4 & H5) (K1 & K2 & K3 & K4 & K5).
  unfold same_ids. split_and!; [congruence..| |].
  - intros x. by rewrite K4.
  - intros x. by rewrite K5.
Qed.

Lemma same_ids_update_node g r f :
  (∀ n, id (f n) = id n) -> (∀ n, ignore_remove (f n) = ignore_remove n) ->
  same_ids g (update_node r f g).
Proof.
  intros Hid Hig. unfold same_ids. split_and!; [done..| |];
    intros x; unfold node_id, update_node; simpl;
    (destruct (decide (r = x)) as [-> | Hne];
      [rewrite fn_lookup_insert|rewrite fn_lookup_insert_ne by done]); auto.
Qed.

Lemma same_ids_set_links g v : same_ids g (set_links v g).
Proof. unfold same_ids. by split_and!. Qed.

Lemma assign_order_id h i l x : id (assign_order h i l x) = id (h x).
Proof.
  revert h i. induction l as [|a l IH]; intros h i; simpl; [done|].
  rewrite IH. destruct (decide (a = x)) as [-> | Hne].
  - by rewrite fn_lookup_insert.
  - by rewrite fn_lookup_insert_ne.
Qed.

Lemma assign_order_ignore_remove h i l x :
  ignore_remove (assign_order h i l x) = ignore_remove (h x).
Proof.
  revert h i. induction l as [|a l IH]; intros h i; simpl; [done|].
  rewrite IH. destruct (decide (a = x)) as [-> | Hne].
  - by rewrite fn_lookup_insert.
  - by rewrite fn_lookup_insert_ne.
Qed.

Lemma updateExecutionOrder_frame g :
  ∃ g', updateExecutionOrder g = Return tt g' ∧ same_ids g g'.
Proof.
  unfold updateExecutionOrder, computeExecutionOrder.
  destruct (ceo_loop_total g) as [st ->].
  eexists. split; [done|]. unfold same_ids. split_and!; [done..| |]; intros x; simpl.
  - apply assign_order_id.
  - apply assign_order_ignore_remove.
Qed.

Lemma clear_input_id i n : id (clear_input i n) = id n.
Proof. unfold clear_input. by destruct (inputs n) as [ins|]; [destruct (ins !! i) as [[]|]|]. Qed.

Lemma clear_input_ignore i n : ignore_remove (clear_input i n) = ignore_remove n.
Proof. unfold clear_input. by destruct (inputs n) as [ins|]; [destruct (ins !! i) as [[]|]|]. Qed.

Lemma drop_output_link_id i l n : id (drop_output_link i l n) = id n.
Proof.
  unfold drop_output_link. destruct (outputs n) as [outs|]; [|done].
  by destruct (outs !! i) as [[[[]]|]|].
Qed.

Lemma drop_output_link_ignore i l n :
  ignore_remove (drop_output_link i l n) = ignore_remove n.
Proof.
  unfold drop_output_link. destruct (outputs n) as [outs|]; [|done].
  by destruct (outs !! i) as [[[[]]|]|].
Qed.

Lemma clear_output_id i n : id (clear_output i n) = id n.
Proof. unfold clear_output. by destruct (outputs n) as [outs|]; [destruct (outs !! i) as [[]|]|]. Qed.

Lemma clear_output_ignore i n : ignore_remove (clear_output i n) = ignore_remove n.
Proof. unfold clear_output. by destruct (outputs n) as [outs|]; [destruct (outs !! i) as [[]|]|]. Qed.

Lemma disconnectInput_frame g r i :
  ∃ g', disconnectInput g r i = Return tt g' ∧ same_ids g g'.
Proof.
  unfold disconnectInput.
  destruct (inputs (heap g r)) as [ins|]; [|eexists; split; [done|apply same_ids_refl]].
  destruct (ins !! i) as [[[[l|]]|]|];
    try (eexists; split; [done|apply same_ids_refl]).
  set (g1 := update_node r (clear_input i) g).
  assert (H1 : same_ids g g1)
    by (apply same_ids_update_node; [apply clear_input_id|apply clear_input_ignore]).
  match goal with |- ∃ g', onConnectionChange ?g2 = _ ∧ _ =>
    assert (H2 : same_ids g1 g2) end.
  { destruct (links g1 !! l) as [lk|]; [|apply same_ids_refl].
    eapply same_ids_trans; [|apply same_ids_set_links].
    destruct (getNodeById g1 _); [|apply same_ids_refl].
    apply same_ids_update_node;
      [apply drop_output_link_id|apply drop_output_link_ignore]. }
  unfold onConnectionChange.
  match goal with |- ∃ g', updateExecutionOrder ?g2 = _ ∧ _ =>
    destruct (updateExecutionOrder_frame g2) as (g' & Hg' & H3) end.
  exists g'. split; [done|].
  eapply same_ids_trans; [apply H1|]. eapply same_ids_trans; [apply H2|apply H3].
Qed.

Lemma disconnect_target_frame g l : same_ids g (disconnect_target g l).
Proof.
  unfold disconnect_target. destruct (links g !! l) as [lk|]; [|apply same_ids_refl].
  eapply same_ids_trans; [|apply same_ids_set_links].
  destruct (getNodeById g _); [|apply same_ids_refl].
  apply same_ids_update_node; [apply clear_input_id|apply clear_input_ignore].
Qed.

Lemma disconnectOutput_frame g r i :
  ∃ g', disconnectOutput g r i = Return tt g' ∧ same_ids g g'.
Proof.
  unfold disconnectOutput.
  destruct (outputs (heap g r)) as [outs|]; [|eexists; split; [done|apply same_ids_refl]].
  destruct (outs !! i) as [[[[ls|]]|]|];
    try (eexists; split; [done|apply same_ids_refl]).
  assert (H1 : same_ids g (foldl disconnect_target g ls)).
  { apply (foldl_inv (same_ids g)); [|apply same_ids_refl].
    intros s l _ Hs. eapply same_ids_trans; [apply Hs|apply disconnect_target_frame]. }
  unfold onConnectionChange.
  match goal with |- ∃ g', updateExecutionOrder ?g2 = _ ∧ _ =>
    destruct (updateExecutionOrder_frame g2) as (g' & Hg' & H3) end.
  exists g'. split; [done|].
  eapply same_ids_trans; [apply H1|]. eapply same_ids_trans; [|apply H3].
  apply same_ids_update_node; [apply clear_output_id|apply clear_output_ignore].
Qed.

Lemma remove_inputs_frame k i r g : outcome_same_ids g (remove_inputs k i r g).
Proof.
  revert i g. induction k as [|k IH]; intros i g; simpl; [apply same_ids_refl|].
  destruct (inputs (heap g r) ≫= _) as [[slot|]|]; try apply same_ids_refl.
  destruct (link slot).
  - destruct (disconnectInput_frame g r i) as (g' & -> & Hg'). simpl.
    specialize (IH (Datatypes.S i) g').
    destruct (remove_inputs k _ r g'); simpl in *; try done;
      by eapply same_ids_trans.
  - simpl. apply IH.
Qed.

Lemma remove_outputs_frame k i r g : outcome_same_ids g (remove_outputs k i r g).
Proof.
  revert i g. induction k as [|k IH]; intros i g; simpl; [apply same_ids_refl|].
  destruct (outputs (heap g r) ≫= _) as [[slot|]|]; try apply same_ids_refl.
  destruct (links_of slot) as [[|l ls]|]; try (simpl; apply IH).
  destruct (disconnectOutput_frame g r i) as (g' & -> & Hg'). simpl.
  specialize (IH (Datatypes.S i) g').
  destruct (remove_outputs k _ r g'); simpl in *; try done;
    by eapply same_ids_trans.
Qed.

(** ** What add and remove do to the ids *)

Lemma add_registers MAX g r skip g' v :
  add MAX g (Some r) skip = Return (Some v) g' ->
  let fresh := (node_id g r =? -1)%Z in
  v = r ∧
  (fresh = true ∨ _nodes_by_id g !! node_id g r = None) ∧
  _nodes g' = _nodes g ++ [r] ∧
  last_node_id g' = (if fresh then last_node_id g + 1 else last_node_id g)%Z ∧
  node_id g' r = (if fresh then last_node_id g else node_id g r) ∧
  (∀ x, x ≠ r -> node_id g' x = node_id g x) ∧
  _nodes_by_id g' = <[node_id g' r := r]> (_nodes_by_id g).
Proof.
  unfold add. simpl.
  destruct (negb _ && _) eqn:Hreg; [done|].
  destruct (MAX <=? _); [done|].
  set (g1 := if (node_id g r =? -1)%Z then _ else g).
  set (g4 := set_nodes_by_id _ _).
  intros Hadd.
  assert (Hpre : (node_id g r =? -1)%Z = true ∨ _nodes_by_id g !! node_id g r = None).
  { apply andb_false_iff in Hreg as [Hn | Hn].
    - left. by apply negb_false_iff in Hn.
    - right. apply bool_decide_eq_false in Hn.
      destruct (_nodes_by_id g !! node_id g r); [|done]. exfalso. apply Hn. by eexists. }
  assert (H1 : _nodes g1 = _nodes g ∧ _nodes_by_id g1 = _nodes_by_id g ∧
               last_node_id g1 = (if (node_id g r =? -1)%Z
                                  then last_node_id g + 1 else last_node_id g)%Z ∧
               node_id g1 r = (if (node_id g r =? -1)%Z
                               then last_node_id g else node_id g r) ∧
               (∀ x, x ≠ r -> node_id g1 x = node_id g x)).
  { unfold g1. destruct (node_id g r =? -1)%Z; [|done].
    split_and!; try done.
    - unfold node_id. simpl. by rewrite fn_lookup_insert.
    - intros x Hx. unfold node_id. simpl. by rewrite fn_lookup_insert_ne. }
  destruct H1 as (Hn1 & Hb1 & Hl1 & Hr1 & Ho1).
  assert (H4 : _nodes g4 = _nodes g ++ [r] ∧
               _nodes_by_id g4 = <[node_id g1 r := r]> (_nodes_by_id g) ∧
               last_node_id g4 = last_node_id g1 ∧
               ∀ x, node_id g4 x = node_id g1 x).
  { unfold g4. simpl. rewrite Hn1, Hb1.
    assert (Hids : ∀ x, id (<[r := set_graph true (heap g1 r)]> (heap g1) x) = node_id g1 x).
    { intros x. unfold node_id. destruct (decide (r = x)) as [-> | Hne].
      - by rewrite fn_lookup_insert.
      - by rewrite fn_lookup_insert_ne. }
    split_and!; try done.
    unfold node_id at 1. simpl. by rewrite Hids. }
  destruct H4 as (Hn4 & Hb4 & Hl4 & Hi4).
  assert (Hfin : ∃ g5, (if skip then Return tt g4 else updateExecutionOrder g4)
                       = Return tt g5 ∧ same_ids g4 g5).
  { destruct skip; [exists g4; split; [done|apply same_ids_refl]|].
    apply updateExecutionOrder_frame. }
  destruct Hfin as (g5 & Hg5 & (Hn5 & Hb5 & Hl5 & Hi5 & _)).
  rewrite Hg5 in Hadd. simpl in Hadd. injection Hadd as <- <-.
  split_and!; try done.
  - by rewrite Hn5.
  - by rewrite Hl5, Hl4.
  - by rewrite Hi5, Hi4.
  - intros x Hx. rewrite Hi5, Hi4. by apply Ho1.
  - by rewrite Hb5, Hb4, Hi5, Hi4.
Qed.

Lemma add_outcome MAX g r skip :
  add MAX g (Some r) skip = Return None g ∨
  (∃ e, add MAX g (Some r) skip = Throw e g) ∨
  (∃ g', add MAX g (Some r) skip = Return (Some r) g').
Proof.
  unfold add.
  destruct (negb _ && _); [by left|].
  destruct (MAX <=? _); [right; left; by eexists|].
  right. right.
  match goal with |- ∃ g', (do _, g5 <- ?m in _) = _ =>
    assert (∃ g5, m = Return tt g5) as [g5 ->] end.
  { destruct skip; [by eexists|].
    match goal with |- ∃ g5, updateExecutionOrder ?g4 = _ =>
      destruct (updateExecutionOrder_frame g4) as (g5 & ? & _) end.
    by exists g5. }
  by eexists.
Qed.

Lemma remove_outcome g r :
  ((_nodes_by_id g !! node_id g r = None ∨ ignore_remove (heap g r) = true) ∧
   remove g r = Return tt g) ∨
  (∃ e g', remove g r = Throw e g' ∧ same_ids g g') ∨
  (∃ g', remove g r = Return tt g' ∧
         _nodes_by_id g !! node_id g r ≠ None ∧
         ignore_remove (heap g r) = false ∧
         _nodes g' = splice_first r (_nodes g) ∧
         last_node_id g' = last_node_id g ∧
         node_id g' r = (-1)%Z ∧
         (∀ x, x ≠ r -> node_id g' x = node_id g x) ∧
         _nodes_by_id g' = delete (-1)%Z (_nodes_by_id g)).
Proof.
  unfold remove.
  case_bool_decide as Hreg; [left; split; [by left|done]|].
  destruct (ignore_remove (heap g r)) eqn:Hig; [left; split; [by right|done]|].
  right.
  pose proof (remove_inputs_frame (slot_count (inputs (heap g r))) 0 r g) as H1.
  destruct (remove_inputs _ 0 r g) as [[] g1|e g1|]; simpl in *;
    [|left; by eexists _, _|done].
  pose proof (remove_outputs_frame (slot_count (outputs (heap g1 r))) 0 r g1) as H2.
  destruct (remove_outputs _ 0 r g1) as [[] g2|e g2|]; simpl in *;
    [|left; eexists _, _; split; [done|by eapply same_ids_trans]|done].
  pose proof (same_ids_trans _ _ _ H1 H2) as (Hn & Hb & Hl & Hi & _).
  right.
  set (g3 := update_node r (set_id (-1)) g2).
  set (g4 := update_node r (set_graph false) g3).
  assert (Hr4 : node_id g4 r = (-1)%Z).
  { unfold node_id, g4, g3. simpl. by rewrite !fn_lookup_insert. }
  assert (Ho4 : ∀ x, x ≠ r -> node_id g4 x = node_id g x).
  { intros x Hx. rewrite <- Hi. unfold node_id, g4, g3. simpl.
    by rewrite !fn_lookup_insert_ne. }
  match goal with |- ∃ g', updateExecutionOrder ?g6 = _ ∧ _ =>
    destruct (updateExecutionOrder_frame g6) as (g' & Hg' & (Hn' & Hb' & Hl' & Hi' & _)) end.
  exists g'. split; [done|].
  split_and!; try done.
  - rewrite Hn'. simpl. by rewrite Hn.
  - rewrite Hl'. simpl. done.
  - rewrite Hi'. apply Hr4.
  - intros x Hx. rewrite Hi'. by apply Ho4.
  - rewrite Hb'.
    transitivity (delete (node_id g4 r) (_nodes_by_id g2)); [done|].
    by rewrite Hr4, Hb.
Qed.

(** ** Capacity *)

(** C5, as stated, fails: at capacity, [add] of a node that is already
    registered returns silently. *)
Lemma add_at_capacity_counterexample :
  ¬ (∀ MAX g node skip, MAX ≤ length (_nodes g) ->
       ∃ e g', add MAX g node skip = Throw e g').
Proof.
  intros H.
  destruct (H 1 one_node_graph (Some 0) false) as (e & g' & He); [simpl; lia|].
  vm_compute in He. discriminate.
Qed.

(** C5, amended. When the node count has reached the maximum, [add] of a
    node that is not registered yet throws, and the graph at the throw is the
    graph of the call: nothing was registered and no id was taken. *)
Theorem add_at_capacity_raises (MAX : nat) (g : LGraph) (r : ref) (skip : bool) :
  MAX ≤ length (_nodes g) ->
  node_id g r = (-1)%Z ∨ _nodes_by_id g !! node_id g r = None ->
  add MAX g (Some r) skip
  = Throw (ThrownString "LiteGraph: max number of nodes in a graph reached") g.
Proof.
  intros Hcap Hnew. unfold add.
  assert (negb (node_id g r =? -1)%Z &&
          bool_decide (is_Some (_nodes_by_id g !! node_id g r)) = false) as ->.
  { destruct Hnew as [-> | ->]; [done|].
    apply andb_false_iff. right. apply bool_decide_eq_false. by intros [? ?]. }
  by apply Nat.leb_le in Hcap as ->.
Qed.

Lemma add_at_capacity_raises_witness :
  add 1 one_node_graph (Some 1) false
  = Throw (ThrownString "LiteGraph: max number of nodes in a graph reached")
      one_node_graph.
Proof.
  apply add_at_capacity_raises.
  - simpl. lia.
  - left. reflexivity.
Defined.

(** ** Removal *)

(** C3 fails on the code: [remove] resets [node.id] to -1 before it deletes
    [_nodes_by_id[node.id]], so the entry of the original id stays, and
    [getNodeById] of the original id still returns the removed node. *)
Theorem remove_leaves_id_entry (g : LGraph) (r : ref) (g' : LGraph) :
  _nodes_by_id g !! node_id g r = Some r ->
  ignore_remove (heap g r) = false ->
  node_id g r ≠ (-1)%Z ->
  remove g r = Return tt g' ->
  getNodeById g' (Some (node_id g r)) = Some r ∧
  node_id g' r = (-1)%Z ∧
  _nodes g' = splice_first r (_nodes g).
Proof.
  intros Hreg Hig Hid Hrem.
  destruct (remove_outcome g r) as [[[Hn | Hi] _] | [(e & g1 & He & _) | (g1 & Hg1 & H)]].
  - by rewrite Hn in Hreg.
  - by rewrite Hi in Hig.
  - by rewrite He in Hrem.
  - rewrite Hg1 in Hrem. injection Hrem as ->.
    destruct H as (_ & _ & Hn & _ & Hr & _ & Hb).
    split_and!; [|done..]. simpl. rewrite Hb.
    by rewrite lookup_delete_ne.
Qed.

Lemma remove_leaves_id_entry_witness :
  ∃ g', remove one_node_graph 0 = Return tt g' ∧
        getNodeById g' (Some 0%Z) = Some 0 ∧ node_id g' 0 = (-1)%Z ∧ _nodes g' = [].
Proof.
  eexists. split; [vm_compute; reflexivity|].
  apply (remove_leaves_id_entry one_node_graph 0); [reflexivity|reflexivity|done|].
  vm_compute. reflexivity.
Defined.

(** ** Ids over a sequence of calls *)

Lemma splice_first_elem (r x : ref) (l : list ref) :
  NoDup l -> x ∈ splice_first r l ↔ x ∈ l ∧ x ≠ r.
Proof.
  induction l as [|a l IH]; intros Hnd; simpl.
  - split; [by intros ?%elem_of_nil|by intros [?%elem_of_nil _]].
  - apply NoDup_cons in Hnd as [Ha Hnd]. destruct (decide (a = r)) as [-> | Hne].
    + rewrite elem_of_cons. split; [intros Hx; split; [by right|by intros ->]|].
      intros [[?|?] ?]; done.
    + rewrite !elem_of_cons, IH by done. split.
      * intros [-> | [? ?]]; auto.
      * intros [[-> | ?] ?]; auto.
Qed.

Lemma splice_first_fmap_nodup {B} (f : ref -> B) (r : ref) (l : list ref) :
  NoDup (f <$> l) -> NoDup (f <$> splice_first r l).
Proof.
  induction l as [|a l IH]; intros Hnd; simpl; [done|].
  rewrite fmap_cons in Hnd. apply NoDup_cons in Hnd as [Ha Hnd].
  destruct (decide (a = r)); [done|].
  rewrite fmap_cons. apply NoDup_cons. split; [|by apply IH].
  intros (x & Hx & Hin)%list_elem_of_fmap. apply Ha.
  apply list_elem_of_fmap. exists x. split; [done|].
  clear -Hin. induction l as [|b l IH]; simpl in Hin; [done|].
  destruct (decide (b = r)); [by right|].
  apply elem_of_cons in Hin as [-> | ?]; [by left|right; auto].
Qed.

Lemma ids_inv_same_ids g g' hist : same_ids g g' -> ids_inv g hist -> ids_inv g' hist.
Proof.
  intros (Hn & Hb & Hl & Hi & _) [H1 H2 H3 H4 H5 H6 H7 H8].
  assert (Hfm : node_id g' <$> _nodes g = node_id g <$> _nodes g).
  { apply list_fmap_ext. intros ? x _. apply Hi. }
  constructor; rewrite ?Hn, ?Hb, ?Hl; try done.
  - intros r Hr. rewrite Hi. auto.
  - intros r Hr. rewrite Hi. auto.
  - by rewrite Hfm.
  - intros r Hr. rewrite Hi. auto.
Qed.

Lemma add_preserves_ids_inv MAX g hist r skip :
  ids_inv g hist ->
  match add MAX g (Some r) skip with
  | Return (Some _) g' =>
      ids_inv g' (hist ++ [mkReg r (node_id g' r) (node_id g r =? -1)%Z])
  | Return None g' => ids_inv g' hist
  | Throw _ g' => ids_inv g' hist
  | Diverge => False
  end.
Proof.
  intros Hinv.
  destruct (add_outcome MAX g r skip) as [-> | [[e ->] | [g' Hadd]]]; [done..|].
  rewrite Hadd.
  destruct (add_registers MAX g r skip g' r Hadd) as (_ & Hpre & Hn & Hl & Hr & Ho & Hb).
  destruct Hinv as [H1 H2 H3 H4 H5 H6 H7 H8].
  assert (HrN : r ∉ _nodes g).
  { intros Hin. destruct (H3 r Hin) as [[Hge _] Hby].
    destruct Hpre as [Hf | Hnone]; [|congruence].
    apply Z.eqb_eq in Hf. lia. }
  assert (Hfresh : (node_id g r =? -1)%Z = true).
  { apply Z.eqb_eq. by apply H2. }
  rewrite Hfresh in *. set (c := last_node_id g) in *.
  assert (Hold : ∀ x, x ∈ _nodes g -> node_id g' x = node_id g x).
  { intros x Hx. apply Ho. by intros ->. }
  assert (Hfm : node_id g' <$> _nodes g = node_id g <$> _nodes g).
  { apply list_fmap_ext. intros i x Hx. apply Hold. by eapply list_elem_of_lookup_2. }
  constructor; rewrite ?Hn, ?Hl.
  - lia.
  - intros x [Hx Hxr]%not_elem_of_app. rewrite Ho; [auto|].
    intros ->. apply Hxr. by left.
  - intros x [Hx | ->%list_elem_of_singleton]%elem_of_app.
    + rewrite Hold by done. destruct (H3 x Hx) as [Hrange Hby].
      split; [lia|]. rewrite Hb, Hr, lookup_insert_ne; [done|lia].
    + rewrite Hr. split; [lia|]. by rewrite Hb, Hr, lookup_insert_eq.
  - rewrite fmap_app, Hfm. simpl. rewrite Hr.
    apply NoDup_app. split_and!; [done| |apply NoDup_singleton].
    intros k (x & Hk & Hx)%list_elem_of_fmap Hc%list_elem_of_singleton.
    destruct (H3 x Hx) as [Hrange _]. lia.
  - intros k x. rewrite Hb, Hr. intros [[<- _] | [_ Hk]]%lookup_insert_Some; [lia|eauto].
  - intros e [He | ->%list_elem_of_singleton]%elem_of_app.
    + specialize (H6 e He). lia.
    + simpl. rewrite Hr. lia.
  - intros i j a b Hij Hi Hj.
    apply lookup_app_Some in Hj as [Hj | [Hge Hj]].
    + apply (H7 i j a b Hij); [|done].
      rewrite lookup_app_l in Hi; [done|]. apply lookup_lt_Some in Hj. lia.
    + apply list_lookup_singleton_Some in Hj as [Hj0 <-]. simpl. rewrite Hr.
      rewrite lookup_app_l in Hi by lia.
      apply H6. by eapply list_elem_of_lookup_2.
  - intros x [Hx | ->%list_elem_of_singleton]%elem_of_app.
    + rewrite Hold by done. apply elem_of_app. left. auto.
    + apply elem_of_app. right. by left.
Qed.

Lemma remove_preserves_ids_inv g hist r :
  ids_inv g hist ->
  match remove g r with
  | Return _ g' => ids_inv g' hist
  | Throw _ g' => ids_inv g' hist
  | Diverge => False
  end.
Proof.
  intros Hinv.
  destruct (remove_outcome g r) as [[_ ->] | [(e & g1 & -> & Hs) | (g' & -> & H)]];
    [done|by eapply ids_inv_same_ids|].
  destruct H as (Hreg & Hig & Hn & Hl & Hr & Ho & Hb).
  destruct Hinv as [H1 H2 H3 H4 H5 H6 H7 H8].
  assert (Hnd : NoDup (_nodes g)) by (by eapply NoDup_fmap_1).
  assert (Hold : ∀ x, x ∈ splice_first r (_nodes g) ->
                      x ∈ _nodes g ∧ node_id g' x = node_id g x).
  { intros x [Hx Hne]%splice_first_elem; [|done]. split; [done|by apply Ho]. }
  assert (Hfm : node_id g' <$> splice_first r (_nodes g)
                = node_id g <$> splice_first r (_nodes g)).
  { apply list_fmap_ext. intros i x Hx. apply Hold. by eapply list_elem_of_lookup_2. }
  constructor; rewrite ?Hn, ?Hl; try done.
  - intros x Hx. destruct (decide (x = r)) as [-> | Hne]; [done|].
    rewrite Ho by done. apply H2. intros Hin. apply Hx.
    by apply splice_first_elem.
  - intros x Hx. destruct (Hold x Hx) as [Hin ->].
    destruct (H3 x Hin) as [Hrange Hby]. split; [done|].
    rewrite Hb, lookup_delete_ne; [done|lia].
  - rewrite Hfm. by apply splice_first_fmap_nodup.
  - intros k x. rewrite Hb. intros [_ Hk]%lookup_delete_Some. eauto.
  - intros x Hx. destruct (Hold x Hx) as [Hin ->]. auto.
Qed.

Lemma run_calls_ids_inv MAX cs g hist :
  ids_inv g hist ->
  ∃ g' hist', run_calls MAX cs g hist = Some (g', hist') ∧ ids_inv g' hist'.
Proof.
  revert g hist. induction cs as [|c cs IH]; intros g hist Hinv; cbn [run_calls].
  - by eexists _, _.
  - destruct c as [r skip | r].
    + pose proof (add_preserves_ids_inv MAX g hist r skip Hinv) as H.
      destruct (add MAX g (Some r) skip) as [[v|] g'|e g'|]; [by apply IH..|done].
    + pose proof (remove_preserves_ids_inv g hist r Hinv) as H.
      destruct (remove g r) as [[] g'|e g'|]; [by apply IH..|done].
Qed.

Lemma ids_inv_new h : (∀ r, id (h r) = (-1)%Z) -> ids_inv (LGraph_new h) [].
Proof.
  intros Hh. constructor; simpl; try done.
  - intros r _. apply Hh.
  - by intros r ?%elem_of_nil.
  - apply NoDup_nil_2.
  - by intros e ?%elem_of_nil.
  - by intros r ?%elem_of_nil.
Qed.

(** The ids taken from the counter go up, whatever ids the nodes carry. *)
Lemma increasing_snoc (l : list Z) (c : Z) :
  increasing l -> (∀ a, a ∈ l -> (a < c)%Z) -> increasing (l ++ [c]).
Proof.
  intros Hinc Hlt i j a b Hij Hi Hj.
  apply lookup_app_Some in Hj as [Hj | [Hge Hj]].
  - apply (Hinc i j a b Hij); [|done].
    rewrite lookup_app_l in Hi; [done|]. apply lookup_lt_Some in Hj. lia.
  - apply list_lookup_singleton_Some in Hj as [Hj0 <-].
    rewrite lookup_app_l in Hi by lia.
    apply Hlt. by eapply list_elem_of_lookup_2.
Qed.

Lemma run_calls_assigned MAX cs g hist :
  increasing (assigned_ids hist) ->
  (∀ a, a ∈ assigned_ids hist -> (a < last_node_id g)%Z) ->
  ∃ g' hist', run_calls MAX cs g hist = Some (g', hist') ∧
              increasing (assigned_ids hist').
Proof.
  revert g hist. induction cs as [|c cs IH]; intros g hist Hinc Hlt; cbn [run_calls].
  - by eexists _, _.
  - destruct c as [r skip | r].
    + destruct (add_outcome MAX g r skip) as [-> | [[e ->] | [g' Hadd]]];
        [by apply IH..|].
      rewrite Hadd.
      destruct (add_registers MAX g r skip g' r Hadd) as (_ & _ & _ & Hl & Hr & _).
      unfold assigned_ids in *. apply IH; rewrite filter_app, filter_cons, filter_nil; simpl.
      * destruct (node_id g r =? -1)%Z; simpl.
        -- rewrite fmap_app. simpl. rewrite Hr. by apply increasing_snoc.
        -- by rewrite app_nil_r.
      * rewrite Hl. destruct (node_id g r =? -1)%Z; simpl.
        -- rewrite fmap_app. simpl. rewrite Hr.
           intros a [Ha | ->%list_elem_of_singleton]%elem_of_app; [|lia].
           specialize (Hlt a Ha). lia.
        -- by rewrite app_nil_r.
    + destruct (remove_outcome g r) as [[_ ->] | [(e & g1 & -> & Hs) | (g' & -> & H)]].
      * by apply IH.
      * apply IH; [done|]. destruct Hs as (_ & _ & -> & _). done.
      * apply IH; [done|]. destruct H as (_ & _ & _ & -> & _). done.
Qed.

(** C7, as stated, fails: a node that carries an id when it is added keeps
    it, the counter does not move, and the next node given an id by the graph
    receives the same one. *)
Lemma add_remove_ids_counterexample :
  ¬ (∀ MAX h cs g hist,
       run_calls MAX cs (LGraph_new h) [] = Some (g, hist) ->
       ∀ a b, a ∈ hist -> b ∈ hist -> reg_node a ≠ reg_node b -> reg_id a ≠ reg_id b).
Proof.
  intros H.
  destruct (run_calls 1000 [CallAdd 0 false; CallAdd 1 false]
              (LGraph_new preset_heap) []) as [[g hist]|] eqn:Hrun.
  - assert (Hhist : hist = [mkReg 0 0 false; mkReg 1 0 true]).
    { apply (f_equal (fmap snd)) in Hrun. vm_compute in Hrun. congruence. }
    apply (H _ _ _ _ _ Hrun (mkReg 0 0 false) (mkReg 1 0 true)).
    + rewrite Hhist. by left.
    + rewrite Hhist. right. by left.
    + done.
    + done.
  - apply (f_equal (fmap snd)) in Hrun. vm_compute in Hrun. discriminate.
Qed.

(** C7, amended. After any sequence of [add] and [remove] calls on a new
    graph, the ids that the graph assigned are strictly increasing in the
    order of assignment; and when every node is unassigned (id -1) before it
    first enters the graph, every registration is under a fresh id, larger
    than all earlier ones, so that no two nodes that are or were registered
    share an id, and the registered nodes have pairwise distinct ids. *)
Theorem add_remove_ids_monotonic (MAX : nat) (h : ref -> LGraphNode) (cs : list call) :
  ∃ g hist,
    run_calls MAX cs (LGraph_new h) [] = Some (g, hist) ∧
    increasing (assigned_ids hist) ∧
    ((∀ r, id (h r) = (-1)%Z) ->
       increasing (reg_id <$> hist) ∧
       (∀ a b, a ∈ hist -> b ∈ hist -> reg_id a = reg_id b -> a = b) ∧
       NoDup (node_id g <$> _nodes g) ∧
       (∀ r, r ∈ _nodes g -> mkReg r (node_id g r) true ∈ hist)).
Proof.
  destruct (run_calls_assigned MAX cs (LGraph_new h) []) as (g & hist & Hrun & Hinc).
  { by intros i j a b _ ?. }
  { by intros a ?%elem_of_nil. }
  exists g, hist. split_and!; [done..|].
  intros Hfresh.
  destruct (run_calls_ids_inv MAX cs (LGraph_new h) [] (ids_inv_new h Hfresh))
    as (g' & hist' & Hrun' & Hinv).
  rewrite Hrun in Hrun'. injection Hrun' as <- <-.
  pose proof (ii_hist_sorted g hist Hinv) as Hsorted.
  split_and!.
  - intros i j a b Hij Hi Hj. rewrite list_lookup_fmap in Hi, Hj.
    destruct (hist !! i) as [ea|] eqn:Hea; [|done].
    destruct (hist !! j) as [eb|] eqn:Heb; [|done].
    simpl in *. injection Hi as <-. injection Hj as <-. by eapply Hsorted.
  - intros a b [i Hi]%list_elem_of_lookup [j Hj]%list_elem_of_lookup Heq.
    destruct (Nat.lt_trichotomy i j) as [Hlt | [-> | Hgt]].
    + pose proof (Hsorted i j a b Hlt Hi Hj). lia.
    + congruence.
    + pose proof (Hsorted j i b a Hgt Hj Hi). lia.
  - apply (ii_nodup g hist Hinv).
  - apply (ii_hist_live g hist Hinv).
Qed.

Lemma add_remove_ids_monotonic_witness :
  ∃ g hist,
    run_calls 1000 [CallAdd 0 false; CallAdd 1 false; CallRemove 0; CallAdd 0 false]
      (LGraph_new fresh_heap) [] = Some (g, hist) ∧
    increasing (assigned_ids hist) ∧
    ((∀ r, id (fresh_heap r) = (-1)%Z) ->
       increasing (reg_id <$> hist) ∧
       (∀ a b, a ∈ hist -> b ∈ hist -> reg_id a = reg_id b -> a = b) ∧
       NoDup (node_id g <$> _nodes g) ∧
       (∀ r, r ∈ _nodes g -> mkReg r (node_id g r) true ∈ hist)).
Proof. apply add_remove_ids_monotonic. Defined.

Example add_remove_ids_history :
  snd <$> run_calls 1000
            [CallAdd 0 false; CallAdd 1 false; CallRemove 0; CallAdd 0 false]
            (LGraph_new fresh_heap) []
  = Some [mkReg 0 0 true; mkReg 1 1 true; mkReg 0 2 true].
Proof. vm_compute. reflexivity. Qed.

(** * Value injection and global inputs *)

(** C4 fails on the code: [setInputData] calls [this.findNodesByName], a
    method that [LGraph.prototype] does not have (the finder by title is
    [findNodesByTitle]); the call throws a TypeError before any node is
    looked at, on every graph, name and value. *)
Theorem setInputData_throws (setValue : ref -> value -> LGraph -> result unit)
    (g : LGraph) (name : string) (v : value) :
  setInputData setValue g name v
  = Throw (TypeError "this.findNodesByName is not a function") g.
Proof. reflexivity. Qed.

(** What the finder by title returns: the nodes with that title, in the order
    of the node list. *)
Lemma findNodesByTitle_spec g t r :
  r ∈ findNodesByTitle g t ↔ r ∈ _nodes g ∧ title (heap g r) = t.
Proof. unfold findNodesByTitle. rewrite list_elem_of_filter. tauto. Qed.

(** ** Reading and writing the registry object *)

Lemma registry_plain_b_sound g : registry_plain_b g = true -> registry_plain g.
Proof.
  unfold registry_plain_b. rewrite !andb_true_iff, !bool_decide_eq_true.
  intros [[HR Hroot] Hne]. split; [| |done].
  - destruct (objects g !! global_inputs g) as [o|]; [|done]. by exists o.
  - destruct (objects g !! JS.Object_prototype) as [op|]; [|done].
    exists op. split; [done|]. simpl in Hroot. congruence.
Qed.

(** Only the name [__proto__] leads to the accessor. *)
Lemma find_property_accessor fuel h l k :
  JS.find_property fuel h l k = Some JS.ProtoAccessor -> k = "__proto__".
Proof.
  revert l. induction fuel as [|fuel IH]; intros l; simpl; [done|].
  destruct (h !! l) as [o|]; [|done].
  destruct (JS.props o !! k); [done|].
  case_decide as Hk; [by destruct Hk|].
  destruct (JS.proto o); [apply IH|done].
Qed.

(** An own property of the registry is what the lookup of its name gives. *)
Lemma global_input_own g o name v :
  objects g !! global_inputs g = Some o -> JS.props o !! name = Some v ->
  global_input g name = v.
Proof.
  intros Ho Hv. unfold global_input, JS.get. simpl. by rewrite Ho, Hv.
Qed.

(** In a plain registry, a name that is neither registered nor inherited
    gives undefined. *)
Lemma global_input_missing g name :
  registry_plain g -> ¬ registered g name -> ¬ inherited g name ->
  global_input g name = JS.Prim VUndefined.
Proof.
  intros [(o & Ho & Hp) (op & Hop & Hpp) Hne] Hreg Hinh.
  unfold global_input, JS.get. simpl. rewrite Ho.
  destruct (JS.props o !! name) as [v|] eqn:Hv.
  { destruct Hreg. exists o. split; [done|]. by rewrite Hv. }
  rewrite decide_False by (by intros [? _]).
  rewrite Hp, Hop.
  destruct (JS.props op !! name) as [v|] eqn:Hv'.
  { destruct Hinh. right. exists op. split; [done|]. by rewrite Hv'. }
  rewrite decide_False; [by rewrite Hpp|].
  intros [_ ->]. apply Hinh. by left.
Qed.

(** A write under a name other than [__proto__] makes an own property. *)
Lemma set_plain h l o k w :
  h !! l = Some o -> k ≠ "__proto__" ->
  JS.set h (JS.Obj l) k w
  = Some (<[l := JS.mkObject (<[k := w]> (JS.props o)) (JS.proto o)]> h).
Proof.
  intros Hl Hk. unfold JS.set. rewrite Hl.
  destruct (JS.find_property _ h l k) as [[v|]|] eqn:Hf; [done| |done].
  by apply find_property_accessor in Hf.
Qed.

(** [addGlobalInput] of a name other than [__proto__] returns, and changes
    nothing but the store of objects. *)
Lemma addGlobalInput_returns g name type v :
  name ≠ "__proto__" ->
  ∃ s, addGlobalInput g name type v = Return tt (set_objects s g).
Proof.
  intros Hname. unfold addGlobalInput, JS.alloc.
  set (e := fresh (dom (objects g))).
  set (s1 := <[e := entry_object name type v]> (objects g)).
  destruct (s1 !! global_inputs g) as [o|] eqn:Ho.
  - rewrite (set_plain s1 _ o name _ Ho Hname). by eexists.
  - unfold JS.set. rewrite Ho. by eexists.
Qed.

(** C10, amended. In a graph whose registry is a plain object, for a name
    that is neither registered nor inherited from [Object.prototype],
    [getGlobalInputData] returns null and [setGlobalInputData] returns and
    leaves the graph as it is; for a name under which the registry holds an
    entry object, [setGlobalInputData] returns, and what it changes is the
    property [value] of that object: every other object, every other
    property of the entry and every other field of the graph stay, and the
    name then reads as the data that was set. *)
Theorem global_input_data (g : LGraph) (name : string) (data : value) :
  registry_plain g ->
  (¬ registered g name -> ¬ inherited g name ->
     getGlobalInputData g name = JS.Prim VNull ∧
     setGlobalInputData g name data = Return tt g) ∧
  (∀ e eo, entry_at g name e eo ->
     let g' := set_objects
                 (<[e := JS.mkObject (<["value" := JS.Prim data]> (JS.props eo))
                           (JS.proto eo)]> (objects g)) g in
     setGlobalInputData g name data = Return tt g' ∧
     (e ≠ global_inputs g -> getGlobalInputData g' name = JS.Prim data)).
Proof.
  intros Hplain. split.
  - intros Hreg Hinh. unfold getGlobalInputData, setGlobalInputData.
    by rewrite (global_input_missing g name Hplain Hreg Hinh).
  - intros e eo [(o & Ho & Hname) He] g'. split.
    + unfold setGlobalInputData.
      rewrite (global_input_own g o name _ Ho Hname). cbn [JS.truthy negb].
      by rewrite (set_plain _ e eo "value" _ He).
    + intros Hne. unfold getGlobalInputData.
      assert (Ho' : objects g' !! global_inputs g' = Some o).
      { unfold g', set_objects. cbn [objects global_inputs].
        by rewrite lookup_insert_ne. }
      rewrite (global_input_own g' o name _ Ho' Hname). cbn [JS.truthy negb].
      unfold JS.get, g', set_objects. cbn [objects JS.chain_start].
      unfold JS.chain_fuel. cbn [JS.find_property].
      rewrite lookup_insert_eq. cbn [JS.props]. by rewrite lookup_insert_eq.
Qed.

Lemma global_input_data_witness :
  (¬ registered globals_graph "depth" -> ¬ inherited globals_graph "depth" ->
     getGlobalInputData globals_graph "depth" = JS.Prim VNull ∧
     setGlobalInputData globals_graph "depth" (VNum 8) = Return tt globals_graph) ∧
  (∀ e eo, entry_at globals_graph "speed" e eo ->
     let g' := set_objects
                 (<[e := JS.mkObject (<["value" := JS.Prim (VNum 8)]> (JS.props eo))
                           (JS.proto eo)]> (objects globals_graph)) globals_graph in
     setGlobalInputData globals_graph "speed" (VNum 8) = Return tt g' ∧
     (e ≠ global_inputs globals_graph ->
        getGlobalInputData g' "speed" = JS.Prim (VNum 8))).
Proof.
  assert (Hplain : registry_plain globals_graph)
    by (apply registry_plain_b_sound; vm_compute; reflexivity).
  split.
  - apply (global_input_data globals_graph "depth" (VNum 8) Hplain).
  - apply (global_input_data globals_graph "speed" (VNum 8) Hplain).
Defined.

(** C10 fails on the new graph: the name [constructor] is not registered,
    and the registry object inherits a property of that name from
    [Object.prototype]; [getGlobalInputData] returns undefined for it, and
    [setGlobalInputData] writes on the function that the property holds. *)
Lemma global_input_data_counterexample :
  ¬ unregistered_claim (LGraph_new fresh_heap).
Proof.
  intros Hclaim.
  destruct (Hclaim "constructor" (VNum 1)) as [Hget _].
  - intros (o & Ho & Hname). vm_compute in Ho. injection Ho as <-.
    vm_compute in Hname. by destruct Hname.
  - vm_compute in Hget. discriminate.
Qed.

(** The inherited names on the new graph and on a graph with two inputs. *)
Example global_input_inherited_names :
  getGlobalInputData (LGraph_new fresh_heap) "constructor" = JS.Prim VUndefined ∧
  (∃ g', setGlobalInputData (LGraph_new fresh_heap) "toString" (VNum 7) = Return tt g' ∧
         g' ≠ LGraph_new fresh_heap ∧
         getGlobalInputData g' "toString" = JS.Prim (VNum 7)) ∧
  getGlobalInputData globals_graph "speed" = JS.Prim (VNum 3) ∧
  getGlobalInputData globals_graph "depth" = JS.Prim VNull.
Proof.
  split_and!; [vm_compute; reflexivity| |vm_compute; reflexivity..].
  eexists. split_and!; [vm_compute; reflexivity| |vm_compute; reflexivity].
  intros Heq. apply (f_equal (fun g => getGlobalInputData g "toString")) in Heq.
  vm_compute in Heq. discriminate.
Qed.

(** * The execution loop *)

Lemma same_structure_refl g : same_structure g g.
Proof. unfold same_structure. by split_and!. Qed.

Lemma same_structure_trans g1 g2 g3 :
  same_structure g1 g2 -> same_structure g2 g3 -> same_structure g1 g3.
Proof.
  intros (H1 & H2 & H3 & H4) (K1 & K2 & K3 & K4).
  unfold same_structure. split_and!; [congruence..|].
  intros r. by rewrite K4.
Qed.

Section SchedulerFacts.
Variable throw_errors : bool.
Variable method : string -> ref -> option callback.
Variable onExecuteStep onAfterExecute onStopEvent : option callback.

Local Abbreviation dispatch' := (dispatch method).
Local Abbreviation ticks' := (ticks method onExecuteStep).
Local Abbreviation stop' := (stop method onStopEvent).
Local Abbreviation runStep' :=
  (runStep throw_errors method onExecuteStep onAfterExecute onStopEvent).

(** A throwing callback ends the dispatch: the keys after it are not
    visited. *)
Lemma dispatch_throws read ev keys g r gp f e ge :
  reaches method read ev keys g r gp ->
  method ev r = Some f -> f gp = Throw e ge ->
  dispatch' read ev keys g = Throw e ge.
Proof.
  intros Hreach Hm Hf.
  induction Hreach as [j keys g r Hj | j keys g r gp Hj _ IH
                       | j keys g r0 g1 r gp Hj Hcall _ IH]; simpl; rewrite Hj.
  - unfold call_if_present. by rewrite Hm, Hf.
  - by apply IH.
  - rewrite Hcall. simpl. by apply IH.
Qed.

Lemma ticks_add n m g :
  ticks' (n + m) g = (do _, g' <- ticks' n g in ticks' m g').
Proof.
  revert g. induction n as [|n IH]; intros g; simpl; [done|].
  destruct (tick method onExecuteStep g); simpl; [apply IH|done..].
Qed.

(** A throw in tick [k] ends the loop: the ticks after it do not run. *)
Lemma ticks_abort g0 k e ge n :
  node_callback_throws method onExecuteStep g0 k e ge -> k < n ->
  ticks' n g0 = Throw e ge.
Proof.
  intros (gk & r & f & gp & Hk & Hreach & Hm & Hf) Hlt.
  replace n with (k + Datatypes.S (n - k - 1)) by lia.
  rewrite ticks_add, Hk. simpl. unfold tick, sendEventToAllNodes.
  by rewrite (dispatch_throws _ _ _ gk r gp f e ge).
Qed.

Lemma call_quiet f g :
  (∀ f', f = Some f' -> quiet f') ->
  ∃ g', call_if_present f g = Return tt g' ∧ same_structure g g' ∧
        status g' = status g ∧ errors_in_execution g' = errors_in_execution g.
Proof.
  intros Hq. destruct f as [f'|]; simpl.
  - by apply Hq.
  - exists g. split_and!; [done|apply same_structure_refl|done..].
Qed.

Lemma dispatch_quiet read ev keys g :
  (∀ r f, method ev r = Some f -> quiet f) ->
  ∃ g', dispatch' read ev keys g = Return tt g' ∧ same_structure g g' ∧
        status g' = status g ∧ errors_in_execution g' = errors_in_execution g.
Proof.
  intros Hq. revert g. induction keys as [|j keys IH]; intros g; simpl.
  - exists g. split_and!; [done|apply same_structure_refl|done..].
  - destruct (read g j) as [r|]; [|apply IH].
    destruct (call_quiet (method ev r) g (Hq r)) as (g1 & -> & Hs1 & Hst1 & He1).
    simpl. destruct (IH g1) as (g2 & -> & Hs2 & Hst2 & He2).
    exists g2. split_and!; [done| |congruence..].
    by eapply same_structure_trans.
Qed.

Lemma dispatch_keeps_timer read ev keys g g' :
  (∀ r f, method ev r = Some f -> keeps_timer f) ->
  dispatch' read ev keys g = Return tt g' ->
  execution_timer_id g' = execution_timer_id g.
Proof.
  intros Hk. revert g. induction keys as [|j keys IH]; intros g; simpl.
  - by intros [= <-].
  - destruct (read g j) as [r|]; [|apply IH].
    unfold call_if_present. destruct (method ev r) as [f|] eqn:Hm; simpl; [|apply IH].
    destruct (f g) as [[] g1|e g1|] eqn:Hf; simpl; [|done..].
    intros Hd. rewrite (IH _ Hd). by apply (Hk r f Hm).
Qed.

(** With quiet hooks, [stop] returns in a stopped graph. *)
Lemma stop_quiet g :
  stop_hooks_quiet method onStopEvent ->
  ∃ g', stop' g = Return tt g' ∧ same_structure g g' ∧
        status g' = STATUS_STOPPED ∧
        errors_in_execution g' = errors_in_execution g.
Proof.
  intros [Hev Hm]. unfold stop.
  destruct (Z.eqb_spec (status g) STATUS_STOPPED) as [Heq | Hne].
  - exists g. split_and!; [done|apply same_structure_refl|done..].
  - destruct (call_quiet onStopEvent (set_status STATUS_STOPPED g) Hev)
      as (g2 & -> & Hs2 & Hst2 & He2).
    simpl. unfold sendEventToAllNodes.
    match goal with |- ∃ g', dispatch' ?rd _ ?l ?g3 = _ ∧ _ =>
      destruct (dispatch_quiet rd "onStop" l g3 Hm) as (g' & -> & Hs' & Hst' & He') end.
    exists g'. split_and!; [done| |by rewrite Hst'|by rewrite He'].
    eapply same_structure_trans; [apply Hs2|apply Hs'].
Qed.

(** When the [onStop] callbacks leave the timer alone, [stop] on a graph
    that is not stopped ends with the timer cleared; on a stopped graph it
    does nothing. *)
Lemma stop_timer g g' :
  (∀ r f, method "onStop" r = Some f -> keeps_timer f) ->
  stop' g = Return tt g' ->
  execution_timer_id g'
  = if (status g =? STATUS_STOPPED)%Z then execution_timer_id g else None.
Proof.
  intros Hk. unfold stop.
  destruct (status g =? STATUS_STOPPED)%Z; [by intros [= <-]|].
  destruct (call_if_present onStopEvent _) as [[] g2|e g2|]; simpl; [|done..].
  unfold sendEventToAllNodes. intros Hd.
  by rewrite (dispatch_keeps_timer _ _ _ _ _ Hk Hd).
Qed.

(** C6. When the [onExecute] callback of a node throws during a tick of
    [runStep], the error is caught and [errors_in_execution] is set, with
    the structure of the graph as the callback left it; the ticks that
    remained are not run; with [throw_errors] the error is thrown again to
    the caller; without it [stop] is called and [runStep] goes on to its
    end, and when the stop hooks are quiet it returns in a stopped graph
    whose flag is set and whose structure is still the one the callback
    left; the timer of a graph that was not stopped already is cleared,
    when the [onStop] callbacks leave it alone. *)
Theorem runStep_error_containment
    (g : LGraph) (num : option Z) (start now : Z) (k : nat) (e : error) (ge : LGraph) :
  let g0 := set_globaltime ((1 # 1000) * inject_Z (start - starttime g))%Q g in
  let caught := set_errors_in_execution (Some true) ge in
  k < steps num ->
  node_callback_throws method onExecuteStep g0 k e ge ->
  errors_in_execution caught = Some true ∧
  same_structure ge caught ∧
  (∀ n, k < n -> ticks' n g0 = Throw e ge) ∧
  (throw_errors = true -> runStep' g num start now = Throw e caught) ∧
  (throw_errors = false ->
     runStep' g num start now
     = (do _, g3 <- stop' caught in Return tt (finish_step start now g3)) ∧
     (stop_hooks_quiet method onStopEvent ->
        ∃ g', runStep' g num start now = Return tt g' ∧
              status g' = STATUS_STOPPED ∧
              errors_in_execution g' = Some true ∧
              same_structure ge g' ∧
              ((∀ r f, method "onStop" r = Some f -> keeps_timer f) ->
                 execution_timer_id g'
                 = if (status ge =? STATUS_STOPPED)%Z then execution_timer_id ge
                   else None))).
Proof.
  intros g0 caught Hk Hthrow.
  assert (Habort : ∀ n, k < n -> ticks' n g0 = Throw e ge).
  { intros n Hn. by eapply ticks_abort. }
  assert (Hrun : runStep' g num start now
                 = if throw_errors then Throw e caught
                   else do _, g3 <- stop' caught in Return tt (finish_step start now g3)).
  { unfold runStep, try_block. fold g0. by rewrite (Habort _ Hk). }
  split_and!; [done|unfold same_structure; by split_and!|done| |].
  - intros Ht. by rewrite Hrun, Ht.
  - intros Ht. rewrite Hrun, Ht. split; [done|].
    intros Hq. destruct (stop_quiet caught Hq) as (g3 & Hstop & Hs & Hst & Her).
    rewrite Hstop. simpl. eexists. split; [done|]. split_and!; [done..| |].
    + destruct Hs as (? & ? & ? & ?). unfold same_structure. by split_and!.
    + intros Htimer. simpl. by rewrite (stop_timer caught g3 Htimer Hstop).
Qed.
End SchedulerFacts.

Lemma runStep_error_containment_witness :
  let g := running_one_node_graph in
  let g0 := set_globaltime ((1 # 1000) * inject_Z (0 - starttime g))%Q g in
  let caught := set_errors_in_execution (Some true) g0 in
  (∀ n, 0 < n -> ticks failing_method None n g0 = Throw (Thrown (VStr "boom")) g0) ∧
  runStep true failing_method None None None g (Some 3%Z) 0 5
  = Throw (Thrown (VStr "boom")) caught ∧
  ∃ g', runStep false failing_method None None None g (Some 3%Z) 0 5 = Return tt g' ∧
        status g' = STATUS_STOPPED ∧ errors_in_execution g' = Some true ∧
        same_structure g0 g' ∧ execution_timer_id g' = None.
Proof.
  intros g g0 caught.
  assert (Hthrow : node_callback_throws failing_method None g0 0
                     (Thrown (VStr "boom")) g0).
  { exists g0, 0, (fun g => Throw (Thrown (VStr "boom")) g), g0.
    split_and!; [reflexivity| |reflexivity..].
    apply (reaches_here _ _ _ 0 []). reflexivity. }
  assert (Hk : 0 < steps (Some 3%Z)) by (simpl; lia).
  assert (Hq : stop_hooks_quiet failing_method None).
  { split; [done|]. intros r f Hf. vm_compute in Hf. done. }
  assert (Ht : ∀ r f, failing_method "onStop" r = Some f -> keeps_timer f).
  { intros r f Hf. vm_compute in Hf. done. }
  split_and!.
  - apply (runStep_error_containment true failing_method None None None
             g (Some 3%Z) 0 5 0 _ g0 Hk Hthrow).
  - apply (runStep_error_containment true failing_method None None None
             g (Some 3%Z) 0 5 0 _ g0 Hk Hthrow). reflexivity.
  - destruct (runStep_error_containment false failing_method None None None
                g (Some 3%Z) 0 5 0 _ g0 Hk Hthrow) as (_ & _ & _ & _ & Hlenient).
    destruct (Hlenient eq_refl) as [_ Hstopped].
    destruct (Hstopped Hq) as (g' & Hrun & Hst & Herr & Hs & Htimer).
    exists g'. split_and!; [done..|]. by rewrite (Htimer Ht).
Defined.

(** The array of [_nodes] is read as the callbacks leave it: when the
    [onExecute] of node 0 removes node 1, the dispatch goes on to node 2 and
    never calls node 1, whose callback would throw. *)
Example sendEventToAllNodes_reads_live_array :
  match sendEventToAllNodes removing_method three_node_graph "onExecute" with
  | Return _ g' => Some (_nodes g', getGlobalInputData g' "ran")
  | _ => None
  end = Some ([0; 2], JS.Prim (VBool true)).
Proof. vm_compute. reflexivity. Qed.

(** * The 3-parameter composer *)

Lemma string_app_assoc (s1 s2 s3 : string) : (s1 +:+ s2) +:+ s3 = s1 +:+ (s2 +:+ s3).
Proof.
  induction s1 as [|a s1 IH]; [reflexivity|].
  change (String a ((s1 +:+ s2) +:+ s3) = String a (s1 +:+ (s2 +:+ s3))).
  by rewrite IH.
Qed.

Lemma string_app_nonempty (s1 s2 : string) : s2 ≠ "" -> s1 +:+ s2 ≠ "".
Proof.
  destruct s1 as [|a s1]; [done|]. intros _.
  change (String a (s1 +:+ s2) ≠ ""). discriminate.
Qed.

Lemma assignment_text_nonempty ty out_var fname a b c :
  assignment_text ty out_var fname a b c ≠ "".
Proof. unfold assignment_text. repeat (apply string_app_nonempty). done. Qed.

Lemma js_or_string_statement_type declared out_type :
  js_text (js_or_string out_type declared) = statement_type declared out_type.
Proof.
  unfold js_or_string, statement_type. destruct out_type as [t|]; [|done].
  destruct (String.eqb_spec t ""), (decide (t = "")); done.
Qed.

Lemma source_statement (ty out_var fname a b c : string) :
  ((((((((((ty +:+ " ") +:+ out_var) +:+ " = ") +:+ fname) +:+ "(") +:+ a) +:+ ",")
     +:+ b) +:+ ",") +:+ c) +:+ (");" +:+ newline)
  = assignment_text ty out_var fname a b c.
Proof. unfold assignment_text. by rewrite !string_app_assoc. Qed.

Lemma stage_test (t1 t2 scope : Z) (stmt : string) :
  (if (scope =? t1)%Z || (scope =? t2)%Z then stmt else "")
  = (if decide (scope = t1 ∨ scope = t2) then stmt else "").
Proof.
  destruct (Z.eqb_spec scope t1), (Z.eqb_spec scope t2), (decide _); simpl;
    try done; tauto.
Qed.

(** C9. In the code that [getCode] builds, the vertex body is not empty
    exactly when the scope is VERTEX or BOTH, the fragment body is not empty
    exactly when the scope is FRAGMENT or BOTH, and a body that is not empty
    is the assignment [<type> <out_var> = <name>(<a>,<b>,<c>);] followed by a
    newline, where [<type>] is [out_type] when it is provided and the
    declared type of the composer otherwise. *)
Theorem getCode_bodies (C : CodePieceScopes) (this : P3ParamFunc.t)
    (out_var a b c : string) (scope : Z) (out_type : option string) :
  let code := P3ParamFunc.getCode C this out_var a b c scope out_type in
  let stmt := assignment_text (statement_type (P3ParamFunc.type this) out_type)
                out_var (P3ParamFunc.name this) a b c in
  (body (vertex code) ≠ "" ↔ scope = VERTEX C ∨ scope = BOTH C) ∧
  (body (fragment code) ≠ "" ↔ scope = FRAGMENT C ∨ scope = BOTH C) ∧
  body (vertex code) = (if decide (scope = VERTEX C ∨ scope = BOTH C) then stmt else "") ∧
  body (fragment code)
  = (if decide (scope = FRAGMENT C ∨ scope = BOTH C) then stmt else "").
Proof.
  intros code stmt.
  assert (Hv : body (vertex code)
               = if decide (scope = VERTEX C ∨ scope = BOTH C) then stmt else "").
  { unfold code, stmt, P3ParamFunc.getCode, P3ParamFunc.getVertexCode.
    cbn [body vertex fragment].
    rewrite js_or_string_statement_type, source_statement.
    apply stage_test. }
  assert (Hf : body (fragment code)
               = if decide (scope = FRAGMENT C ∨ scope = BOTH C) then stmt else "").
  { unfold code, stmt, P3ParamFunc.getCode, P3ParamFunc.getFragmentCode.
    cbn [body vertex fragment].
    rewrite js_or_string_statement_type, source_statement.
    apply stage_test. }
  split_and!; [| |done|done].
  - rewrite Hv. clear Hv Hf.
    destruct (decide (scope = VERTEX C ∨ scope = BOTH C)) as [Hy|Hn].
    + split; [intros _; exact Hy|]. intros _. apply assignment_text_nonempty.
    + split; [intros Hne; by destruct Hne|tauto].
  - rewrite Hf. clear Hv Hf.
    destruct (decide (scope = FRAGMENT C ∨ scope = BOTH C)) as [Hy|Hn].
    + split; [intros _; exact Hy|]. intros _. apply assignment_text_nonempty.
    + split; [intros Hne; by destruct Hne|tauto].
Qed.

Example getCode_mix_fragment :
  match P3ParamFunc.CodeLib "mix" with
  | Some mix =>
      let code := P3ParamFunc.getCode example_scopes mix "mix_4" "a" "b" "c"
                    (FRAGMENT example_scopes) (Some "vec3") in
      body (vertex code) = "" ∧
      body (fragment code) = "vec3 mix_4 = mix(a,b,c);" +:+ newline
  | None => False
  end.
Proof. vm_compute. done. Qed.

(** C8 fails on the code: when one of the three inputs has no code and no
    fallback, [processInputCode] returns without raising, but the sentinel is
    only the initial value of the local [output_code]; nothing stores it, and
    the node, [codes[0]] included, is left as it was. *)
Theorem processInputCode_missing_input
    (C : CodePieceScopes) (EMPTY_CODE : ShaderCode)
    (merge : ShaderCode -> ShaderCode -> ShaderCode)
    (getInputCode onGetNullCode : LGraph3ParamNode.t -> nat -> option ShaderCode)
    (this : LGraph3ParamNode.t) (slot : nat) :
  slot < 3 ->
  getInputCode this slot = None -> onGetNullCode this slot = None ->
  LGraph3ParamNode.processInputCode C EMPTY_CODE merge getInputCode onGetNullCode this
  = Ok this.
Proof.
  intros Hslot Hin Hnull. unfold LGraph3ParamNode.processInputCode.
  assert (Hnone : LGraph3ParamNode.input_code getInputCode onGetNullCode this slot = None).
  { unfold LGraph3ParamNode.input_code. by rewrite Hin. }
  destruct slot as [|[|[|?]]]; [| | |lia]; rewrite Hnone;
    repeat (destruct (LGraph3ParamNode.input_code _ _ _ _)); done.
Qed.

Lemma processInputCode_missing_input_witness :
  LGraph3ParamNode.processInputCode example_scopes example_empty_code example_merge
    inputs_A_B_only no_fallback mix_node_after_run
  = Ok mix_node_after_run.
Proof. apply (processInputCode_missing_input _ _ _ _ _ _ 2); [lia|done|done]. Defined.

(** The code left in [codes[0]] by the earlier run stays there: it is not
    the sentinel. *)
Example processInputCode_keeps_stale_code :
  match LGraph3ParamNode.processInputCode example_scopes example_empty_code
          example_merge inputs_A_B_only no_fallback mix_node_after_run with
  | Ok n => LGraph3ParamNode.codes n !! 0 = Some (example_piece "mix_4") ∧
            LGraph3ParamNode.codes n !! 0 ≠ Some example_empty_code
  | Raises _ => False
  end.
Proof. vm_compute. split; [done|discriminate]. Qed.

(** With the three inputs present the node stores the composed code. *)
Example processInputCode_connected :
  match LGraph3ParamNode.processInputCode example_scopes example_empty_code
          example_merge inputs_A_B_C no_fallback mix_node_after_run with
  | Ok n =>
      (fun c => (out_var c, code_order c, body (fragment c)))
        <$> LGraph3ParamNode.codes n !! 0
      = Some ("mix_4", Some "3",
              "float float_2 = 1.000;" +:+ "float float_1 = 1.000;" +:+
              "float float_3 = 1.000;" +:+
              "vec3 mix_4 = mix(float_1,float_2,float_3);" +:+ newline)
  | Raises _ => False
  end.
Proof. vm_compute. reflexivity. Qed.

(** * More on the resolver *)

Lemma set_order_set_order a b n : set_order a (set_order b n) = set_order a n.
Proof. done. Qed.

Lemma assign_order_only_order h i l x :
  assign_order h i l x = set_order (order (assign_order h i l x)) (h x).
Proof.
  revert h i. induction l as [|a l IH]; intros h i; simpl.
  - by destruct (h x).
  - rewrite IH at 1. destruct (decide (a = x)) as [-> | Hne].
    + by rewrite fn_lookup_insert.
    + by rewrite fn_lookup_insert_ne.
Qed.

(** [computeExecutionOrder] writes on each node of the list it returns the
    key of the position of the node in that list, and changes nothing else:
    the other fields of the node objects, the node objects outside the graph
    and the other fields of the graph stay. *)
Theorem computeExecutionOrder_writes_positions (g : LGraph) (l : list ref) (g' : LGraph) :
  ids_wf g ->
  computeExecutionOrder g = Some (l, g') ->
  (∀ i r, l !! i = Some r -> order (heap g' r) = Some (index_key i)) ∧
  (∀ r, heap g' r = set_order (order (heap g' r)) (heap g r)) ∧
  (∀ r, r ∉ _nodes g -> heap g' r = heap g r) ∧
  g' = set_heap (heap g') g.
Proof.
  intros Hwf. unfold computeExecutionOrder.
  destruct (ceo_loop_total g) as [st Hst]. rewrite Hst. intros [= <- <-].
  destruct (ceo_loop_inv g Hwf _ _ _ Hst (ceo_scan_establishes g Hwf)) as [Hinv HS].
  pose proof (ceo_result_perm g Hwf st Hinv HS) as Hperm.
  assert (Hnd : NoDup (L st ++ (M st).*2)).
  { rewrite Hperm. by apply nodes_nodup. }
  split_and!; simpl.
  - intros i r Hi. by rewrite (assign_order_index _ 0 _ i).
  - intros r. apply assign_order_only_order.
  - intros r Hr. apply assign_order_notin. by rewrite Hperm.
  - done.
Qed.

Lemma computeExecutionOrder_writes_positions_witness :
  ∃ l g', computeExecutionOrder fan_in_graph = Some (l, g') ∧
          (∀ i r, l !! i = Some r -> order (heap g' r) = Some (index_key i)) ∧
          (∀ r, heap g' r = set_order (order (heap g' r)) (heap fan_in_graph r)) ∧
          (∀ r, r ∉ _nodes fan_in_graph -> heap g' r = heap fan_in_graph r) ∧
          g' = set_heap (heap g') fan_in_graph.
Proof.
  destruct (computeExecutionOrder fan_in_graph) as [[l g']|] eqn:Hc.
  - exists l, g'. split; [done|].
    apply (computeExecutionOrder_writes_positions fan_in_graph l g'); [|done].
    apply ids_wf_b_sound. vm_compute. reflexivity.
  - vm_compute in Hc. discriminate.
Defined.

(** ** The nodes without inputs come first *)

Lemma ceo_scan_queue g l st :
  L (foldl (ceo_scan g) st l) = L st ∧
  S (foldl (ceo_scan g) st l)
  = S st ++ filter (fun r => count_inputs (heap g r) = 0) l.
Proof.
  revert st. induction l as [|r l IH]; intros st; simpl.
  - by rewrite app_nil_r.
  - destruct (IH (ceo_scan g st r)) as [-> ->]. unfold ceo_scan.
    rewrite filter_cons.
    destruct (Nat.eqb_spec (count_inputs (heap g r)) 0) as [Hz | Hz];
      destruct (decide _); try done; simpl.
    by rewrite <- app_assoc.
Qed.

Lemma ceo_link_queue g st l : ∃ extra, S (ceo_link g st l) = S st ++ extra.
Proof.
  unfold ceo_link. destruct (links g !! l); [|by exists []; rewrite app_nil_r].
  case_decide; [by exists []; rewrite app_nil_r|].
  destruct (getNodeById g _) as [tn|]; [|by exists []; rewrite app_nil_r].
  destruct (jsnum_is_zero _); [by exists [tn]|by exists []; rewrite app_nil_r].
Qed.

Lemma ceo_links_queue g ls st :
  ∃ extra, S (foldl (ceo_link g) st ls) = S st ++ extra.
Proof.
  revert st. induction ls as [|l ls IH]; intros st; simpl.
  - exists []. by rewrite app_nil_r.
  - destruct (IH (ceo_link g st l)) as [e2 ->].
    destruct (ceo_link_queue g st l) as [e1 ->].
    exists (e1 ++ e2). by rewrite app_assoc.
Qed.

Lemma ceo_loop_queue fuel g st st' :
  ceo_loop fuel g st = Some st' ->
  ∃ extra, L st' ++ S st' = (L st ++ S st) ++ extra.
Proof.
  revert st. induction fuel as [|fuel IH]; intros st Hl; simpl in Hl.
  - destruct (S st) eqn:HS; [|done]. injection Hl as <-.
    exists []. by rewrite ?HS, ?app_nil_r.
  - destruct (S st) as [|r S'] eqn:HS.
    + injection Hl as <-. exists []. by rewrite ?HS, ?app_nil_r.
    + destruct (IH _ Hl) as [e2 ->].
      unfold ceo_turn. rewrite ceo_outputs_flat.
      match goal with |- context [foldl (ceo_link g) ?s ?ls] =>
        destruct (ceo_links_queue g ls s) as [e1 He1];
        rewrite He1, (ceo_links_L g ls s) end.
      simpl. exists (e1 ++ e2). by rewrite <- !app_assoc.
Qed.

(** On every graph, the list that [computeExecutionOrder] returns starts with
    the nodes that have no connected input, in the order of the node list. *)
Theorem computeExecutionOrder_sources_first (g : LGraph) :
  ∃ l g' rest, computeExecutionOrder g = Some (l, g') ∧ l = source_nodes g ++ rest.
Proof.
  unfold computeExecutionOrder.
  destruct (ceo_loop_total g) as [st Hst]. rewrite Hst.
  destruct (ceo_loop_queue _ g _ _ Hst) as [extra Hq].
  destruct (ceo_scan_queue g (_nodes g) ceo_init) as [HL HS].
  rewrite HL, HS in Hq. simpl in Hq.
  assert (HSnil : S st = []).
  { clear -Hst. revert Hst. generalize (Datatypes.S (length (_nodes g))).
    generalize (foldl (ceo_scan g) ceo_init (_nodes g)).
    intros s n. revert s. induction n as [|n IH]; intros s; simpl.
    - destruct (S s) eqn:HS; [|done]. by intros [= <-].
    - destruct (S s) eqn:HS; [by intros [= <-]|]. apply IH. }
  rewrite HSnil, app_nil_r in Hq.
  eexists _, _, (extra ++ (M st).*2). split; [done|].
  unfold source_nodes. by rewrite Hq, <- app_assoc.
Qed.

(** ** The nodes left over by the loop come last, by ascending id *)

Lemma obj_replace_keys {V} (M : list (Z * V)) k v : (obj_replace M k v).*1 = M.*1.
Proof.
  induction M as [|e M IH]; [done|]. cbn [obj_replace].
  destruct (Z.eqb_spec e.1 k) as [<- | Hne]; rewrite !fmap_cons; [done|].
  by rewrite IH.
Qed.

Lemma obj_insert_index_sorted {V} (M : list (Z * V)) k v :
  StronglySorted Z.lt M.*1 -> Forall (fun e => is_index e.1 = true) M ->
  k ∉ M.*1 -> StronglySorted Z.lt (obj_insert_index M k v).*1.
Proof.
  induction M as [|e M IH]; intros Hs Hidx Hk; simpl.
  - repeat constructor.
  - rewrite fmap_cons in Hs, Hk. apply StronglySorted_cons in Hs as [Hlt Hs].
    apply Forall_cons in Hidx as [He Hidx].
    apply not_elem_of_cons in Hk as [Hne Hk].
    rewrite He. simpl. destruct (Z.ltb_spec k e.1) as [Hlt' | Hge].
    + rewrite !fmap_cons. apply StronglySorted_cons. split.
      * apply Forall_cons. split; [done|].
        eapply Forall_impl; [apply Hlt|]. simpl. lia.
      * apply StronglySorted_cons. by split.
    + rewrite fmap_cons. apply StronglySorted_cons. split; [|by apply IH].
      rewrite (obj_insert_index_perm M k v). rewrite fmap_cons.
      apply Forall_cons. split; [simpl; lia|done].
Qed.

Lemma obj_set_sorted {V} (M : list (Z * V)) k v :
  StronglySorted Z.lt M.*1 -> Forall (fun e => is_index e.1 = true) M ->
  is_index k = true ->
  StronglySorted Z.lt (obj_set M k v).*1 ∧
  Forall (fun e => is_index e.1 = true) (obj_set M k v).
Proof.
  intros Hs Hidx Hk. unfold obj_set.
  destruct (has_key M k) eqn:Hhas.
  - split; [by rewrite obj_replace_keys|].
    clear Hs Hhas. induction M as [|e M IH]; simpl; [done|].
    apply Forall_cons in Hidx as [He Hidx].
    destruct (Z.eqb_spec e.1 k); apply Forall_cons; split; auto.
  - rewrite Hk. apply has_key_false in Hhas. split.
    + by apply obj_insert_index_sorted.
    + rewrite (obj_insert_index_perm M k v). by apply Forall_cons.
Qed.

Lemma obj_delete_sorted {V} (M : list (Z * V)) k :
  StronglySorted Z.lt M.*1 -> StronglySorted Z.lt (obj_delete M k).*1.
Proof.
  unfold obj_delete. induction M as [|e M IH]; intros Hs; simpl; [done|].
  rewrite fmap_cons in Hs. apply StronglySorted_cons in Hs as [Hlt Hs].
  rewrite filter_cons. destruct (decide _); [|by apply IH].
  rewrite fmap_cons. apply StronglySorted_cons. split; [|by apply IH].
  apply Forall_forall. intros x (e' & -> & [_ He']%list_elem_of_filter)%list_elem_of_fmap.
  rewrite Forall_forall in Hlt. apply Hlt. apply list_elem_of_fmap. by exists e'.
Qed.

Lemma ceo_link_M g st l : M (ceo_link g st l) = M st.
Proof.
  unfold ceo_link. destruct (links g !! l); [|done].
  case_decide; [done|]. destruct (getNodeById g _); [|done].
  by destruct (jsnum_is_zero _).
Qed.

Lemma ceo_links_M g ls st : M (foldl (ceo_link g) st ls) = M st.
Proof.
  revert st. induction ls as [|l ls IH]; intros st; simpl; [done|].
  by rewrite IH, ceo_link_M.
Qed.

Lemma ceo_loop_sorted fuel g st st' :
  ceo_loop fuel g st = Some st' ->
  StronglySorted Z.lt (M st).*1 -> StronglySorted Z.lt (M st').*1.
Proof.
  revert st. induction fuel as [|fuel IH]; intros st; simpl.
  - destruct (S st); [|done]. by intros [= <-].
  - destruct (S st) as [|r S'] eqn:HS; [by intros [= <-]|].
    intros Hl Hs. apply (IH _ Hl).
    unfold ceo_turn. rewrite ceo_outputs_flat, ceo_links_M. simpl.
    by apply obj_delete_sorted.
Qed.

Lemma ceo_scan_sorted g l st :
  forallb (fun r => is_index (node_id g r)) l = true ->
  StronglySorted Z.lt (M st).*1 -> Forall (fun e => is_index e.1 = true) (M st) ->
  StronglySorted Z.lt (M (foldl (ceo_scan g) st l)).*1.
Proof.
  revert st. induction l as [|r l IH]; intros st Hidx Hs Hall; simpl; [done|].
  simpl in Hidx. apply andb_true_iff in Hidx as [Hr Hidx].
  destruct (obj_set_sorted (M st) (node_id g r) r Hs Hall Hr) as [Hs' Hall'].
  apply IH; [done|..]; unfold ceo_scan; by destruct (count_inputs _ =? 0).
Qed.

(** ** The nodes left over are those on a cycle or behind one *)

Lemma repeat_or_NoDup {A} `{EqDecision A} (l : list A) :
  NoDup l ∨ ∃ l1 c l2 l3, l = l1 ++ c :: l2 ++ c :: l3.
Proof.
  induction l as [|a l IH]; [left; constructor|].
  destruct (decide (a ∈ l)) as [Hin | Hnin].
  - right. apply list_elem_of_split in Hin as (l2 & l3 & ->).
    by exists [], a, l2, l3.
  - destruct IH as [Hnd | (l1 & c & l2 & l3 & ->)].
    + left. by constructor.
    + right. by exists (a :: l1), c, l2, l3.
Qed.

(** A walk of [n] steps up a relation, inside a list that holds a
    predecessor of each of its elements. *)
Lemma walk_up {A} (R : relation A) (X : list A) (x : A) (n : nat) :
  x ∈ X -> (∀ t, t ∈ X -> ∃ o, o ∈ X ∧ R o t) ->
  ∃ l, length l = Datatypes.S n ∧ Forall (fun a => a ∈ X) l ∧
       StronglySorted (tc R) l ∧ last l = Some x.
Proof.
  intros Hx Hpred. induction n as [|n (l & Hlen & Hall & Hs & Hlast)].
  - exists [x]. split_and!; [done|by repeat constructor|by repeat constructor|done].
  - destruct l as [|h l]; [done|].
    apply Forall_cons in Hall as [Hh Hall].
    destruct (Hpred h Hh) as (o & Ho & Hoh).
    apply StronglySorted_cons in Hs as Hs'. destruct Hs' as [Hhl _].
    exists (o :: h :: l). split_and!.
    + simpl in *. lia.
    + by repeat apply Forall_cons_2.
    + apply StronglySorted_cons. split; [|done].
      apply Forall_cons. split; [by apply tc_once|].
      eapply Forall_impl; [apply Hhl|]. intros b Hb. by eapply tc_l.
    + done.
Qed.

(** In a finite set that holds a predecessor of each of its elements, every
    element is on a cycle or behind one. *)
Lemma cycle_behind {A} `{EqDecision A} (R : relation A) (X : list A) (x : A) :
  x ∈ X -> (∀ t, t ∈ X -> ∃ o, o ∈ X ∧ R o t) ->
  ∃ c, tc R c c ∧ rtc R c x.
Proof.
  intros Hx Hpred.
  destruct (walk_up R X x (length X) Hx Hpred) as (l & Hlen & Hall & Hs & Hlast).
  destruct (repeat_or_NoDup l) as [Hnd | (l1 & c & l2 & l3 & ->)].
  - exfalso. assert (l ⊆+ X) as Hsub.
    { apply NoDup_submseteq; [done|]. by apply Forall_forall. }
    apply submseteq_length in Hsub. lia.
  - apply StronglySorted_app_1_r in Hs.
    apply StronglySorted_cons in Hs as [Hc Hs].
    apply Forall_app in Hc as [_ Hc]. apply Forall_cons in Hc as [Hcc _].
    apply StronglySorted_app_1_r in Hs.
    apply StronglySorted_cons in Hs as [Hc3 _].
    exists c. split; [done|].
    rewrite last_app, last_cons, last_app, last_cons in Hlast.
    destruct (last l3) as [y|] eqn:Hy.
    + injection Hlast as ->. apply tc_rtc.
      rewrite Forall_forall in Hc3. apply Hc3.
      apply last_Some in Hy as [l' ->]. set_solver.
    + by injection Hlast as ->.
Qed.

Section Leftover.
Variable g : LGraph.
Hypothesis Hwf : graph_wf g.
Variable st : ceo_state.
Hypothesis Hci : ceo_inv g st.
Hypothesis Hti : topo_inv g st.
Hypothesis Hov : outs_visited g st.
Hypothesis HS : S st = [].

(** A node that feeds an ordered node was ordered before it. *)
Lemma feeder_before o t j :
  feeds g o t -> L st !! j = Some t -> ∃ i, L st !! i = Some o ∧ i < j.
Proof.
  intros Hf Hj. pose proof Hf as (Ho & Ht & _).
  destruct (feeds_link g Hwf o t Hf) as (l & Hout & Hin).
  destruct (ti_before g st Hti j t l) as (i & o' & Hi & Hij & Hout');
    [by rewrite HS, app_nil_r|done|].
  assert (o' = o) as ->; [|by exists i].
  apply (out_link_unique g Hwf _ _ l); [|done..].
  apply (inv_live g st Hci). rewrite elem_of_app. left.
  by eapply list_elem_of_lookup_2.
Qed.

Lemma ancestor_before o t j :
  tc (feeds g) o t -> L st !! j = Some t -> ∃ i, L st !! i = Some o ∧ i < j.
Proof.
  intros Htc. revert j. induction Htc as [x y Hxy | x y z Hxy _ IH]; intros j Hj.
  - by apply (feeder_before x y).
  - destruct (IH j Hj) as (i & Hi & Hij).
    destruct (feeder_before x y i Hxy Hi) as (i' & Hi' & Hlt).
    exists i'. split; [done|lia].
Qed.

Lemma ordered_nodup : NoDup (L st).
Proof. pose proof (inv_nodup g st Hci) as H. by rewrite HS, app_nil_r in H. Qed.

(** No node of a cycle is ordered by the loop, nor a node behind one. *)
Lemma behind_cycle_not_ordered r : behind_cycle g r -> r ∉ L st.
Proof.
  intros (c & Hcyc & Hcr) Hr.
  assert (Hc : c ∈ L st).
  { apply rtc_tc in Hcr as [<- | Hcr]; [done|].
    apply list_elem_of_lookup in Hr as [j Hj].
    destruct (ancestor_before c r j Hcr Hj) as (i & Hi & _).
    by eapply list_elem_of_lookup_2. }
  apply list_elem_of_lookup in Hc as [j Hj].
  destruct (ancestor_before c c j Hcyc Hj) as (i & Hi & Hij).
  pose proof (NoDup_lookup _ i j c ordered_nodup Hi Hj). lia.
Qed.

(** A node that the loop did not order is fed by another one. *)
Lemma pending_has_pending_feeder t :
  t ∈ filter (fun r => r ∉ L st) (_nodes g) ->
  ∃ o, o ∈ filter (fun r => r ∉ L st) (_nodes g) ∧ feeds g o t.
Proof.
  intros [HtL Ht]%list_elem_of_filter.
  assert (Hu : unvisited g (visited_links st) t ≠ []).
  { rewrite <- (ti_queue g st Hti t Ht), HS, app_nil_r. done. }
  destruct (unvisited g (visited_links st) t) as [|l u] eqn:Hun; [done|].
  assert (Hl : l ∈ unvisited g (visited_links st) t) by (rewrite Hun; by left).
  apply list_elem_of_filter in Hl as [HlV Hlin].
  destruct (in_link_origin g Hwf t l Ht Hlin) as (lk & o & Hlk & Htgt & Ho & Hoid & Hout).
  exists o. split.
  - apply list_elem_of_filter. split; [|done].
    intros HoL. apply HlV. by eapply Hov.
  - split_and!; [done..|]. by exists l, lk.
Qed.

Lemma pending_behind_cycle r :
  r ∈ _nodes g -> r ∉ L st -> behind_cycle g r.
Proof.
  intros Hr HrL.
  apply (cycle_behind (feeds g) (filter (fun r => r ∉ L st) (_nodes g))).
  - by apply list_elem_of_filter.
  - apply pending_has_pending_feeder.
Qed.
End Leftover.

(** On a graph that satisfies the invariants of the data model and whose
    ids are array indices, the list returned is the nodes taken by the loop
    followed by the nodes it left over. The nodes left over are the nodes on
    a cycle or behind one, in ascending order of id, whatever the order of
    the node list; the nodes taken are the others, each after the nodes that
    feed it. *)
Theorem computeExecutionOrder_leftover_by_id (g : LGraph) :
  graph_wf g -> index_ids_b g = true ->
  ∃ taken leftover g',
    computeExecutionOrder g = Some (taken ++ leftover, g') ∧
    (∀ r, r ∈ leftover ↔ r ∈ _nodes g ∧ behind_cycle g r) ∧
    (∀ r, r ∈ taken ↔ r ∈ _nodes g ∧ ¬ behind_cycle g r) ∧
    StronglySorted Z.lt (node_id g <$> leftover) ∧
    (∀ o t j, feeds g o t -> taken !! j = Some t ->
       ∃ i, taken !! i = Some o ∧ i < j).
Proof.
  intros Hwf Hidx. unfold computeExecutionOrder.
  pose proof (wf_ids g Hwf) as Hids.
  destruct (ceo_loop_total g) as [st Hst]. rewrite Hst.
  pose proof (ceo_scan_establishes g Hids) as Hci0.
  destruct (ceo_scan_topo_establishes g Hwf) as [Hti0 Hov0].
  destruct (ceo_loop_inv g Hids _ _ _ Hst Hci0) as [Hci HS].
  destruct (ceo_loop_topo g Hwf _ _ _ Hst Hci0 Hti0 Hov0) as [Hti Hov].
  assert (Hsorted : StronglySorted Z.lt (M st).*1).
  { apply (ceo_loop_sorted _ g _ _ Hst).
    apply ceo_scan_sorted; [done|constructor|constructor]. }
  assert (Hentries : ∀ e, e ∈ M st -> e.1 = node_id g e.2).
  { intros e He. rewrite (inv_M g st Hci) in He.
    by apply list_elem_of_fmap in He as (r & -> & _). }
  assert (Hleft : ∀ r, r ∈ (M st).*2 ↔ r ∈ _nodes g ∧ r ∉ L st).
  { intros r. rewrite (inv_M g st Hci), <- list_fmap_compose.
    rewrite list_elem_of_fmap. split.
    - intros (x & -> & [Hx Hn]%list_elem_of_filter). done.
    - intros [Hr Hn]. exists r. split; [done|]. by apply list_elem_of_filter. }
  assert (Hlive : ∀ r, r ∈ L st -> r ∈ _nodes g).
  { intros r Hr. apply (inv_live g st Hci). rewrite elem_of_app. by left. }
  exists (L st), (M st).*2. eexists. split_and!; [done| | | |].
  - intros r. rewrite Hleft. split.
    + intros [Hr Hn]. split; [done|].
      by apply (pending_behind_cycle g Hwf st Hti Hov HS).
    + intros [Hr Hb]. split; [done|].
      by apply (behind_cycle_not_ordered g Hwf st Hci Hti HS).
  - intros r. split.
    + intros Hr. split; [by apply Hlive|]. intros Hb.
      by apply (behind_cycle_not_ordered g Hwf st Hci Hti HS r Hb).
    + intros [Hr Hb]. destruct (decide (r ∈ L st)) as [|Hn]; [done|].
      destruct Hb. by apply (pending_behind_cycle g Hwf st Hti Hov HS).
  - replace (node_id g <$> (M st).*2) with (M st).*1; [done|].
    rewrite <- list_fmap_compose. apply list_fmap_ext.
    intros i e He. simpl. apply Hentries. by eapply list_elem_of_lookup_2.
  - intros o t j. by apply (feeder_before g Hwf st Hci Hti HS).
Qed.

Lemma computeExecutionOrder_leftover_by_id_witness :
  ∃ taken leftover g',
    computeExecutionOrder late_cycle_graph = Some (taken ++ leftover, g') ∧
    (∀ r, r ∈ leftover ↔ r ∈ _nodes late_cycle_graph ∧ behind_cycle late_cycle_graph r) ∧
    (∀ r, r ∈ taken ↔ r ∈ _nodes late_cycle_graph ∧ ¬ behind_cycle late_cycle_graph r) ∧
    StronglySorted Z.lt (node_id late_cycle_graph <$> leftover) ∧
    (∀ o t j, feeds late_cycle_graph o t -> taken !! j = Some t ->
       ∃ i, taken !! i = Some o ∧ i < j).
Proof.
  apply computeExecutionOrder_leftover_by_id.
  - apply graph_wf_b_sound. vm_compute. reflexivity.
  - vm_compute. reflexivity.
Defined.

Example late_cycle_order :
  fst <$> computeExecutionOrder late_cycle_graph = Some [5; 3; 9].
Proof. vm_compute. reflexivity. Qed.

(** * More on add and remove *)

Lemma add_proceeds MAX g r skip :
  negb (node_id g r =? -1)%Z &&
    bool_decide (is_Some (_nodes_by_id g !! node_id g r)) = false ->
  length (_nodes g) < MAX ->
  ∃ g', add MAX g (Some r) skip = Return (Some r) g'.
Proof.
  intros Hguard Hroom. unfold add. rewrite Hguard.
  assert ((MAX <=? length (_nodes g)) = false) as -> by (apply Nat.leb_gt; lia).
  match goal with |- ∃ g', bind ?m _ = _ =>
    assert (∃ g5, m = Return tt g5) as [g5 ->] end.
  { destruct skip; [by eexists|].
    match goal with |- ∃ g5, updateExecutionOrder ?g4 = _ =>
      destruct (updateExecutionOrder_frame g4) as (g5 & ? & _) end.
    by exists g5. }
  by eexists.
Qed.

Lemma add_keeps_ignore_remove MAX g r skip v g' x :
  add MAX g (Some r) skip = Return v g' ->
  ignore_remove (heap g' x) = ignore_remove (heap g x).
Proof.
  unfold add.
  destruct (negb _ && _); [by intros [= <- <-]|].
  destruct (MAX <=? _); [done|].
  set (g1 := if (node_id g r =? -1)%Z then _ else g).
  set (g4 := set_nodes_by_id _ _).
  assert (H4 : ignore_remove (heap g4 x) = ignore_remove (heap g x)).
  { unfold g4, g1. simpl.
    destruct (node_id g r =? -1)%Z; simpl;
      destruct (decide (r = x)) as [-> | Hne];
      rewrite ?fn_lookup_insert, ?fn_lookup_insert_ne by done; simpl;
      rewrite ?fn_lookup_insert, ?fn_lookup_insert_ne by done; done. }
  destruct skip; simpl.
  - intros [= <- <-]. done.
  - destruct (updateExecutionOrder_frame g4) as (g5 & -> & (_ & _ & _ & _ & Hig)).
    simpl. intros [= <- <-]. by rewrite Hig.
Qed.

(** [add] of an unassigned node to a graph with room returns the node,
    registered under the value of the id counter: the counter moves up by
    one, the node comes last in the node list, [getNodeById] of the new id
    finds it, and the other ids and the other entries of the id map stay. *)
Theorem add_assigns_next_id (MAX : nat) (g : LGraph) (r : ref) (skip : bool) :
  node_id g r = (-1)%Z ->
  length (_nodes g) < MAX ->
  ∃ g', add MAX g (Some r) skip = Return (Some r) g' ∧
        node_id g' r = last_node_id g ∧
        last_node_id g' = (last_node_id g + 1)%Z ∧
        _nodes g' = _nodes g ++ [r] ∧
        getNodeById g' (Some (last_node_id g)) = Some r ∧
        (∀ x, x ≠ r -> node_id g' x = node_id g x) ∧
        (∀ k, k ≠ last_node_id g ->
              getNodeById g' (Some k) = getNodeById g (Some k)).
Proof.
  intros Hid Hroom.
  destruct (add_proceeds MAX g r skip) as [g' Hadd]; [by rewrite Hid|done|].
  destruct (add_registers MAX g r skip g' r Hadd) as (_ & _ & Hn & Hl & Hr & Ho & Hb).
  rewrite Hid in Hl, Hr. simpl in Hl, Hr.
  exists g'. split_and!; try done; simpl; rewrite Hb, Hr.
  - by rewrite lookup_insert_eq.
  - intros k Hk. by rewrite lookup_insert_ne.
Qed.

Lemma add_assigns_next_id_witness :
  ∃ g', add 1000 one_node_graph (Some 7) false = Return (Some 7) g' ∧
        node_id g' 7 = 1%Z ∧ last_node_id g' = 2%Z ∧ _nodes g' = [0; 7] ∧
        getNodeById g' (Some 1%Z) = Some 7 ∧
        (∀ x, x ≠ 7 -> node_id g' x = node_id one_node_graph x) ∧
        (∀ k, k ≠ 1%Z -> getNodeById g' (Some k) = getNodeById one_node_graph (Some k)).
Proof. apply (add_assigns_next_id 1000 one_node_graph 7 false); [reflexivity|simpl; lia]. Defined.

(** A node that [add] has registered is refused by the next [add], which
    returns nothing and leaves the graph as it is, provided the id counter
    was not at -1 (the mark of an unassigned node). *)
Theorem add_twice (MAX MAX' : nat) (g : LGraph) (r : ref) (skip skip' : bool)
    (v : ref) (g' : LGraph) :
  add MAX g (Some r) skip = Return (Some v) g' ->
  last_node_id g ≠ (-1)%Z ->
  add MAX' g' (Some r) skip' = Return None g'.
Proof.
  intros Hadd Hcounter.
  destruct (add_registers MAX g r skip g' v Hadd) as (_ & _ & _ & _ & Hr & _ & Hb).
  unfold add.
  assert (negb (node_id g' r =? -1)%Z &&
          bool_decide (is_Some (_nodes_by_id g' !! node_id g' r)) = true) as ->; [|done].
  apply andb_true_iff. split.
  - apply negb_true_iff, Z.eqb_neq. rewrite Hr.
    destruct (Z.eqb_spec (node_id g r) (-1)); done.
  - apply bool_decide_eq_true. rewrite Hb, lookup_insert_eq. by eexists.
Qed.

Lemma add_twice_witness :
  ∃ g', add 1000 one_node_graph (Some 7) false = Return (Some 7) g' ∧
        add 1000 g' (Some 7) false = Return None g'.
Proof.
  destruct (add_proceeds 1000 one_node_graph 7 false) as [g' Hadd];
    [vm_compute; reflexivity|simpl; lia|].
  exists g'. split; [done|].
  apply (add_twice 1000 1000 one_node_graph 7 false false 7 g' Hadd). done.
Defined.

Lemma splice_first_snoc (r : ref) (l : list ref) :
  r ∉ l -> splice_first r (l ++ [r]) = l.
Proof.
  induction l as [|a l IH]; intros Hr; simpl.
  - by rewrite decide_True.
  - apply not_elem_of_cons in Hr as [Hne Hr].
    rewrite decide_False by done. by rewrite IH.
Qed.

(** [add] followed by [remove] of the same node, when both return: the node
    list is the one before the [add], the node is unassigned again, the ids
    of the other nodes are untouched, and the id that was taken is not given
    back: the counter stays one higher. *)
Theorem add_then_remove (MAX : nat) (g : LGraph) (r : ref) (skip : bool)
    (g1 g2 : LGraph) :
  node_id g r = (-1)%Z ->
  r ∉ _nodes g ->
  ignore_remove (heap g r) = false ->
  add MAX g (Some r) skip = Return (Some r) g1 ->
  remove g1 r = Return tt g2 ->
  _nodes g2 = _nodes g ∧
  node_id g2 r = (-1)%Z ∧
  (∀ x, x ≠ r -> node_id g2 x = node_id g x) ∧
  last_node_id g2 = (last_node_id g + 1)%Z.
Proof.
  intros Hid Hnew Hig Hadd Hrem.
  destruct (add_registers MAX g r skip g1 r Hadd) as (_ & _ & Hn & Hl & Hr & Ho & Hb).
  rewrite Hid in Hl. simpl in Hl.
  pose proof (add_keeps_ignore_remove MAX g r skip _ g1 r Hadd) as Hig1.
  destruct (remove_outcome g1 r) as [[[Hnone | Hi] _] | [(e & g' & He & _) | (g' & Hg' & H)]].
  - rewrite Hb, lookup_insert_eq in Hnone. done.
  - congruence.
  - congruence.
  - rewrite Hg' in Hrem. injection Hrem as ->.
    destruct H as (_ & _ & Hn2 & Hl2 & Hr2 & Ho2 & _).
    split_and!.
    + by rewrite Hn2, Hn, splice_first_snoc.
    + done.
    + intros x Hx. rewrite Ho2 by done. by apply Ho.
    + by rewrite Hl2, Hl.
Qed.

Lemma add_then_remove_witness :
  ∃ g1 g2, add 1000 one_node_graph (Some 7) false = Return (Some 7) g1 ∧
           remove g1 7 = Return tt g2 ∧
           _nodes g2 = [0] ∧ node_id g2 7 = (-1)%Z ∧
           (∀ x, x ≠ 7 -> node_id g2 x = node_id one_node_graph x) ∧
           last_node_id g2 = 2%Z.
Proof.
  eexists _, _. split; [vm_compute; reflexivity|]. split; [vm_compute; reflexivity|].
  eapply (add_then_remove 1000 one_node_graph 7 false).
  - reflexivity.
  - apply not_elem_of_cons. split; [done|apply not_elem_of_nil].
  - reflexivity.
  - vm_compute. reflexivity.
  - vm_compute. reflexivity.
Defined.

(** * More on the execution loop *)



Section CleanRun.
Variable throw_errors : bool.
Variable method : string -> ref -> option callback.
Variable onExecuteStep onAfterExecute onStopEvent : option callback.
Hypothesis Hmethod : ∀ r f, method "onExecute" r = Some f -> steady f.
Hypothesis Hstep : ∀ f, onExecuteStep = Some f -> steady f.

Lemma call_steady f g :
  (∀ f', f = Some f' -> steady f') ->
  ∃ g', call_if_present f g = Return tt g' ∧
        fixedtime g' = fixedtime g ∧ fixedtime_lapse g' = fixedtime_lapse g ∧
        iteration g' = iteration g.
Proof.
  intros Hs. destruct f as [f'|]; simpl; [by apply Hs|]. by exists g.
Qed.

Lemma dispatch_steady read keys g :
  ∃ g', dispatch method read "onExecute" keys g = Return tt g' ∧
        fixedtime g' = fixedtime g ∧ fixedtime_lapse g' = fixedtime_lapse g ∧
        iteration g' = iteration g.
Proof.
  revert g. induction keys as [|j keys IH]; intros g; simpl; [by exists g|].
  destruct (read g j) as [r|]; [|apply IH].
  destruct (call_steady (method "onExecute" r) g (Hmethod r)) as (g1 & -> & H1 & H2 & H3).
  simpl. destruct (IH g1) as (g2 & -> & K1 & K2 & K3).
  exists g2. split_and!; congruence.
Qed.

Lemma ticks_steady n g :
  ∃ g', ticks method onExecuteStep n g = Return tt g' ∧
        fixedtime g' = fixedtime_after n (fixedtime g) (fixedtime_lapse g) ∧
        fixedtime_lapse g' = fixedtime_lapse g ∧
        iteration g' = iteration g.
Proof.
  revert g. induction n as [|n IH]; intros g; simpl; [by exists g|].
  unfold tick, sendEventToAllNodes.
  match goal with |- context [dispatch method ?rd _ ?l g] =>
    destruct (dispatch_steady rd l g) as (g1 & -> & H1 & H2 & H3) end.
  simpl.
  destruct (call_steady onExecuteStep
              (set_fixedtime (PrimFloat.add (fixedtime g1) (fixedtime_lapse g1)) g1) Hstep)
    as (g2 & -> & K1 & K2 & K3).
  simpl in *. destruct (IH g2) as (g3 & -> & J1 & J2 & J3).
  exists g3. split_and!; [done| |congruence..].
  rewrite J1, K1, K2, H1, H2. done.
Qed.
End CleanRun.

(** When the [onExecute] callbacks and the two hooks of the loop return and
    leave the clock alone, [runStep] returns with [errors_in_execution]
    false, one more iteration counted, and the fixed-step clock advanced by
    one addition of the lapse per tick, each rounded as a double;
    [runStep()] and [runStep(0)] make one tick. *)
Theorem runStep_clean_run (throw_errors : bool)
    (method : string -> ref -> option callback)
    (onExecuteStep onAfterExecute onStopEvent : option callback)
    (g : LGraph) (num : option Z) (start now : Z) :
  (∀ r f, method "onExecute" r = Some f -> steady f) ->
  (∀ f, onExecuteStep = Some f -> steady f) ->
  (∀ f, onAfterExecute = Some f -> steady f) ->
  ∃ g', runStep throw_errors method onExecuteStep onAfterExecute onStopEvent
          g num start now = Return tt g' ∧
        errors_in_execution g' = Some false ∧
        iteration g' = (iteration g + 1)%Z ∧
        getFixedTime g'
        = fixedtime_after (steps num) (getFixedTime g) (fixedtime_lapse g) ∧
        steps None = 1 ∧ steps (Some 0%Z) = 1.
Proof.
  intros Hm Hs Ha. unfold runStep, try_block.
  set (g0 := set_globaltime _ g).
  destruct (ticks_steady method onExecuteStep Hm Hs (steps num) g0)
    as (g1 & -> & H1 & H2 & H3).
  simpl.
  destruct (call_steady onAfterExecute g1 Ha) as (g2 & -> & K1 & K2 & K3).
  simpl. eexists. split; [done|]. unfold getFixedTime. simpl.
  split_and!; [done| | |done..].
  - rewrite K3, H3. done.
  - rewrite K1, H1. done.
Qed.

Lemma runStep_clean_run_witness :
  ∃ g', runStep false marking_method None None None one_node_graph (Some 6%Z) 10 12
        = Return tt g' ∧
        errors_in_execution g' = Some false ∧
        iteration g' = (iteration one_node_graph + 1)%Z ∧
        getFixedTime g'
        = fixedtime_after (steps (Some 6%Z)) (getFixedTime one_node_graph)
            (fixedtime_lapse one_node_graph) ∧
        steps None = 1 ∧ steps (Some 0%Z) = 1.
Proof.
  apply runStep_clean_run.
  - intros r f Hf g. unfold marking_method in Hf. simpl in Hf.
    destruct (r =? 0); [|done]. injection Hf as <-.
    destruct (addGlobalInput_returns g "ran" "boolean" (VBool true)) as [s ->]; [done|].
    by eexists.
  - done.
  - done.
Defined.

(** Six ticks of the default lapse add up to 0.060000000000000005, which is
    neither the double 0.06 nor six times the lapse. *)
Example fixedtime_after_six_ticks :
  fixedtime_after 6 0%float 0.01%float = 0.060000000000000005%float ∧
  fixedtime_after 6 0%float 0.01%float ≠ 0.06%float ∧
  PrimFloat.eqb (fixedtime_after 6 0%float 0.01%float)
    (PrimFloat.mul 6%float 0.01%float) = false.
Proof. vm_compute. split_and!; [reflexivity|discriminate|reflexivity]. Qed.

(** With quiet stop hooks, [stop] returns in a stopped graph, and a second
    [stop] does nothing: it returns the same graph without calling a hook. *)
Theorem stop_twice (method : string -> ref -> option callback)
    (onStopEvent : option callback) (g : LGraph) :
  stop_hooks_quiet method onStopEvent ->
  ∃ g', stop method onStopEvent g = Return tt g' ∧
        status g' = STATUS_STOPPED ∧
        same_structure g g' ∧
        ∀ method' onStopEvent', stop method' onStopEvent' g' = Return tt g'.
Proof.
  intros Hq.
  destruct (stop_quiet method onStopEvent g Hq) as (g' & Hstop & Hs & Hst & _).
  exists g'. split_and!; [done..|].
  intros method' ev'. unfold stop. by rewrite Hst.
Qed.

Lemma stop_twice_witness :
  ∃ g', stop failing_method None running_one_node_graph = Return tt g' ∧
        status g' = STATUS_STOPPED ∧
        same_structure running_one_node_graph g' ∧
        ∀ method' onStopEvent', stop method' onStopEvent' g' = Return tt g'.
Proof.
  apply stop_twice. split; [done|].
  intros r f Hf. vm_compute in Hf. done.
Defined.

(** With quiet start hooks, [start] returns in a running graph, and a second
    [start] does nothing: the timer and the start time of the first call stay. *)
Theorem start_twice (method : string -> ref -> option callback)
    (onPlayEvent : option callback) (g : LGraph) (now : Z) (timer : nat) :
  (∀ f, onPlayEvent = Some f -> quiet f) ->
  (∀ r f, method "onStart" r = Some f -> quiet f) ->
  ∃ g', start method onPlayEvent g now timer = Return tt g' ∧
        status g' = STATUS_RUNNING ∧
        same_structure g g' ∧
        (status g ≠ STATUS_RUNNING ->
           execution_timer_id g' = Some timer ∧ starttime g' = now) ∧
        ∀ method' onPlayEvent' now' timer',
          start method' onPlayEvent' g' now' timer' = Return tt g'.
Proof.
  intros Hplay Hstart. unfold start.
  destruct (Z.eqb_spec (status g) STATUS_RUNNING) as [Hrun | Hstopped].
  - exists g. split_and!; [done|done|apply same_structure_refl|done|].
    intros method' onPlayEvent' now' timer'.
    by apply Z.eqb_eq in Hrun as ->.
  - destruct (call_quiet onPlayEvent (set_status STATUS_RUNNING g) Hplay)
      as (g2 & -> & Hs2 & Hst2 & _).
    simpl. unfold sendEventToAllNodes.
    match goal with |- context [dispatch method ?rd _ ?l g2] =>
      destruct (dispatch_quiet method rd "onStart" l g2 Hstart) as (g3 & -> & Hs3 & Hst3 & _) end.
    simpl. eexists. split; [done|]. simpl.
    assert (Hst : status g3 = STATUS_RUNNING) by (by rewrite Hst3, Hst2).
    split_and!; [done| |done|].
    + assert (Hs : same_structure g g3).
      { eapply same_structure_trans; [|exact Hs3].
        eapply same_structure_trans; [|exact Hs2].
        unfold same_structure. by split_and!. }
      destruct Hs as (? & ? & ? & ?). unfold same_structure. by split_and!.
    + intros method' onPlayEvent' now' timer'. simpl. by rewrite Hst.
Qed.

Lemma start_twice_witness :
  ∃ g', start failing_method None one_node_graph 100 1 = Return tt g' ∧
        status g' = STATUS_RUNNING ∧
        same_structure one_node_graph g' ∧
        (status one_node_graph ≠ STATUS_RUNNING ->
           execution_timer_id g' = Some 1 ∧ starttime g' = 100%Z) ∧
        ∀ method' onPlayEvent' now' timer',
          start method' onPlayEvent' g' now' timer' = Return tt g'.
Proof.
  apply start_twice; [done|].
  intros r f Hf. vm_compute in Hf. done.
Defined.
(** * More on the global inputs *)

Lemma registry_wf_b_sound g : registry_wf_b g = true -> registry_wf g.
Proof.
  unfold registry_wf_b. rewrite andb_true_iff. intros [Hplain Hall].
  split; [by apply registry_plain_b_sound|].
  intros o k v Ho Hv. rewrite Ho in Hall.
  assert (Hkv : entry_wf_b g (k, v) = true).
  { apply (forallb_elem _ _ _ Hall). by apply elem_of_map_to_list. }
  unfold entry_wf_b in Hkv. simpl in Hkv. destruct v as [?|e]; [done|].
  apply andb_true_iff in Hkv as [Hne Heo]. apply bool_decide_eq_true in Hne.
  destruct (objects g !! e) as [eo|] eqn:He; [|done].
  apply bool_decide_eq_true in Heo. exists e, eo. by split_and!.
Qed.

Lemma set_objects_id g : set_objects (objects g) g = g.
Proof. by destruct g. Qed.

(** ** Reading a plain registry *)

Section PlainRegistry.
Variable g : LGraph.
Variables o op : JS.object.
Hypothesis Ho : objects g !! global_inputs g = Some o.
Hypothesis Hproto : JS.proto o = Some JS.Object_prototype.
Hypothesis Hop : objects g !! JS.Object_prototype = Some op.
Hypothesis Hroot : JS.proto op = None.
Hypothesis Hne : global_inputs g ≠ JS.Object_prototype.

(** The lookup of a name: the own property, or else the property of
    [Object.prototype], where [__proto__] gives the prototype itself. *)
Lemma global_input_plain name :
  global_input g name
  = match JS.props o !! name with
    | Some v => v
    | None =>
        match JS.props op !! name with
        | Some v => v
        | None => if decide (name = "__proto__") then JS.Obj JS.Object_prototype
                  else JS.Prim VUndefined
        end
    end.
Proof.
  unfold global_input, JS.get. simpl. rewrite Ho.
  destruct (JS.props o !! name) as [v|]; [done|].
  rewrite decide_False by (by intros [? _]).
  rewrite Hproto, Hop.
  destruct (JS.props op !! name) as [v|]; [done|].
  destruct (decide (name = "__proto__")) as [-> | Hn].
  - rewrite decide_True by done. simpl. by rewrite Hproto.
  - rewrite decide_False by (by intros [_ ?]). by rewrite Hroot.
Qed.

Lemma read_missing name :
  JS.props o !! name = None -> JS.props op !! name = None -> name ≠ "__proto__" ->
  global_input g name = JS.Prim VUndefined ∧ getGlobalInputData g name = JS.Prim VNull.
Proof.
  intros H1 H2 H3. unfold getGlobalInputData.
  rewrite global_input_plain, H1, H2, decide_False by done. done.
Qed.
End PlainRegistry.

Lemma get_own h l o k w :
  h !! l = Some o -> JS.props o !! k = Some w -> JS.get h (JS.Obj l) k = w.
Proof. intros Hl Hk. unfold JS.get. simpl. by rewrite Hl, Hk. Qed.

(** A name that holds an entry object reads as the [value] of the object. *)
Lemma read_entry g o name e eo w :
  objects g !! global_inputs g = Some o -> JS.props o !! name = Some (JS.Obj e) ->
  objects g !! e = Some eo -> JS.props eo !! "value" = Some w ->
  global_input g name = JS.Obj e ∧ getGlobalInputData g name = w.
Proof.
  intros Ho Hname He Hw. unfold getGlobalInputData.
  rewrite (global_input_own g o name _ Ho Hname). split; [done|].
  cbn [JS.truthy negb]. by apply (get_own _ e eo).
Qed.

Lemma not_inherited g op name :
  objects g !! JS.Object_prototype = Some op -> ¬ inherited g name ->
  JS.props op !! name = None ∧ name ≠ "__proto__".
Proof.
  intros Hop Hinh. split.
  - destruct (JS.props op !! name) as [v|] eqn:Hv; [|done].
    destruct Hinh. right. exists op. split; [done|]. by rewrite Hv.
  - intros ->. apply Hinh. by left.
Qed.

Lemma not_registered g o name :
  objects g !! global_inputs g = Some o -> ¬ registered g name ->
  JS.props o !! name = None.
Proof.
  intros Ho Hreg. destruct (JS.props o !! name) as [v|] eqn:Hv; [|done].
  destruct Hreg. exists o. split; [done|]. by rewrite Hv.
Qed.

(** ** Adding, setting and reading *)

(** In a registry that holds entry objects only, a global input added under
    a name other than [__proto__] is read back, a value set on it replaces
    the one it was added with, and neither call changes what is read under
    another name that is registered or not inherited. *)
Theorem global_input_round_trip (g : LGraph) (name type : string) (v data : value) :
  registry_wf g -> name ≠ "__proto__" ->
  ∃ g1 g2,
    addGlobalInput g name type v = Return tt g1 ∧
    setGlobalInputData g1 name data = Return tt g2 ∧
    getGlobalInputData g1 name = JS.Prim v ∧
    getGlobalInputData g2 name = JS.Prim data ∧
    ∀ other, other ≠ name -> registered g other ∨ ¬ inherited g other ->
      getGlobalInputData g1 other = getGlobalInputData g other ∧
      getGlobalInputData g2 other = getGlobalInputData g other.
Proof.
  intros [[(o & Ho & Hp) (op & Hop & Hr) Hne] Hent] Hname.
  set (R := global_inputs g) in *. set (h := objects g) in *.
  set (e := fresh (dom h)).
  assert (He : e ∉ dom h) by apply is_fresh.
  assert (HeR : e ≠ R) by (intros ->; by apply He, (elem_of_dom_2 _ _ o)).
  assert (HeOP : e ≠ JS.Object_prototype)
    by (intros Heq; rewrite Heq in He; by apply He, (elem_of_dom_2 _ _ op)).
  set (eo1 := entry_object name type v).
  set (s1 := <[e := eo1]> h).
  set (o1 := JS.mkObject (<[name := JS.Obj e]> (JS.props o)) (JS.proto o)).
  set (s2 := <[R := o1]> s1).
  set (eo2 := JS.mkObject (<["value" := JS.Prim data]> (JS.props eo1)) (JS.proto eo1)).
  set (s3 := <[e := eo2]> s2).
  assert (Hs1R : s1 !! R = Some o) by (unfold s1; by rewrite lookup_insert_ne).
  assert (Hs2R : s2 !! R = Some o1) by (unfold s2; by rewrite lookup_insert_eq).
  assert (Hs2e : s2 !! e = Some eo1).
  { unfold s2, s1. by rewrite lookup_insert_ne, lookup_insert_eq. }
  assert (Hs3R : s3 !! R = Some o1) by (unfold s3; by rewrite lookup_insert_ne).
  assert (Hs3e : s3 !! e = Some eo2) by (unfold s3; by rewrite lookup_insert_eq).
  assert (Ho1 : JS.props o1 !! name = Some (JS.Obj e))
    by (unfold o1; simpl; by rewrite lookup_insert_eq).
  assert (Hadd : addGlobalInput g name type v = Return tt (set_objects s2 g)).
  { unfold addGlobalInput, JS.alloc. fold h e eo1 s1 R.
    by rewrite (set_plain s1 R o name _ Hs1R Hname). }
  set (g1 := set_objects s2 g) in *.
  assert (Hin1 : global_input g1 name = JS.Obj e)
    by (by apply (global_input_own g1 o1)).
  assert (Hset : setGlobalInputData g1 name data = Return tt (set_objects s3 g1)).
  { unfold setGlobalInputData. rewrite Hin1. cbn [JS.truthy negb].
    change (objects g1) with s2. by rewrite (set_plain s2 e eo1 "value" _ Hs2e). }
  set (g2 := set_objects s3 g1) in *.
  exists g1, g2. split_and!; [done|done| | |].
  - by apply (read_entry g1 o1 name e eo1).
  - apply (read_entry g2 o1 name e eo2); [done..|].
    unfold eo2. simpl. by rewrite lookup_insert_eq.
  - intros other Hother Hcase.
    assert (Ho1' : JS.props o1 !! other = JS.props o !! other)
      by (unfold o1; simpl; by rewrite lookup_insert_ne).
    destruct (JS.props o !! other) as [w|] eqn:Hw.
    + destruct (Hent o other w Ho Hw) as (e' & eo' & -> & He'R & He' & [val Hval]).
      assert (He'e : e' ≠ e) by (intros ->; by apply He, (elem_of_dom_2 _ _ eo')).
      destruct (read_entry g o other e' eo' val Ho Hw He' Hval) as [_ ->].
      split.
      * apply (read_entry g1 o1 other e' eo' val); [done..| |done].
        change (objects g1) with s2. unfold s2, s1.
        by rewrite !lookup_insert_ne.
      * apply (read_entry g2 o1 other e' eo' val); [done..| |done].
        change (objects g2) with s3. unfold s3, s2, s1.
        by rewrite !lookup_insert_ne.
    + destruct Hcase as [(o' & Ho' & Hsome) | Hinh].
      { change (h !! R = Some o') in Ho'. rewrite Ho in Ho'.
        injection Ho' as <-. rewrite Hw in Hsome. by destruct Hsome. }
      destruct (not_inherited g op other Hop Hinh) as [Hopk Hk].
      destruct (read_missing g o op Ho Hp Hop Hr Hne other Hw Hopk Hk) as [_ ->].
      split.
      * apply (read_missing g1 o1 op); try done.
        change (objects g1) with s2. unfold s2, s1.
        by rewrite !lookup_insert_ne.
      * apply (read_missing g2 o1 op); try done.
        change (objects g2) with s3. unfold s3, s2, s1.
        by rewrite !lookup_insert_ne.
Qed.

Lemma global_input_round_trip_witness :
  ∃ g1 g2,
    addGlobalInput globals_graph "depth" "number" (VNum 1) = Return tt g1 ∧
    setGlobalInputData g1 "depth" (VNum 8) = Return tt g2 ∧
    getGlobalInputData g1 "depth" = JS.Prim (VNum 1) ∧
    getGlobalInputData g2 "depth" = JS.Prim (VNum 8) ∧
    ∀ other, other ≠ "depth" ->
      registered globals_graph other ∨ ¬ inherited globals_graph other ->
      getGlobalInputData g1 other = getGlobalInputData globals_graph other ∧
      getGlobalInputData g2 other = getGlobalInputData globals_graph other.
Proof.
  apply global_input_round_trip; [|done].
  apply registry_wf_b_sound. vm_compute. reflexivity.
Defined.

(** ** Renaming *)

Section Rename.
Variable g : LGraph.
Variables o op : JS.object.
Variables old_name name : string.
Variable e : JS.loc.
Hypothesis Ho : objects g !! global_inputs g = Some o.
Hypothesis Hproto : JS.proto o = Some JS.Object_prototype.
Hypothesis Hop : objects g !! JS.Object_prototype = Some op.
Hypothesis Hroot : JS.proto op = None.
Hypothesis Hne : global_inputs g ≠ JS.Object_prototype.
Hypothesis Hold : JS.props o !! old_name = Some (JS.Obj e).
Hypothesis Hnew : JS.props o !! name = None.
Hypothesis Hnew_op : JS.props op !! name = None.
Hypothesis Hnew_proto : name ≠ "__proto__".

(** The registry object after the renaming, and the store that holds it. *)
Definition renamed_registry : JS.object :=
  JS.mkObject (delete old_name (<[name := JS.Obj e]> (JS.props o))) (JS.proto o).

Definition renamed_store : JS.store :=
  <[global_inputs g := renamed_registry]> (objects g).

Lemma renameGlobalInput_store :
  renameGlobalInput g old_name name = Return VUndefined (set_objects renamed_store g).
Proof.
  assert (Hdiff : name ≠ old_name) by congruence.
  unfold renameGlobalInput.
  destruct (String.eqb_spec name old_name); [done|].
  rewrite (global_input_own g o old_name _ Ho Hold). cbn [JS.truthy negb].
  destruct (read_missing g o op Ho Hproto Hop Hroot Hne name Hnew Hnew_op Hnew_proto)
    as [-> _].
  cbn [JS.truthy].
  rewrite (set_plain (objects g) (global_inputs g) o name _ Ho Hnew_proto).
  unfold JS.delete. rewrite lookup_insert_eq. cbn [JS.props JS.proto].
  by rewrite insert_insert_eq.
Qed.
End Rename.

(** In a registry that holds entry objects only, renaming a registered
    name to a name that is neither registered nor inherited returns
    undefined and moves the entry object: the new name holds it and reads as
    the old name did, the old name reads as null unless it is inherited, the
    lookup of every other name is as before, and nothing changes but the
    registry object: the entry keeps its [name] property. *)
Theorem renameGlobalInput_moves (g : LGraph) (old_name name : string) :
  registry_wf g ->
  registered g old_name -> ¬ registered g name -> ¬ inherited g name ->
  ∃ g' e eo,
    renameGlobalInput g old_name name = Return VUndefined g' ∧
    entry_at g old_name e eo ∧ entry_at g' name e eo ∧
    getGlobalInputData g' name = getGlobalInputData g old_name ∧
    (¬ inherited g old_name -> getGlobalInputData g' old_name = JS.Prim VNull) ∧
    (∀ other, other ≠ name -> other ≠ old_name ->
       global_input g' other = global_input g other) ∧
    (∀ l, l ≠ global_inputs g -> objects g' !! l = objects g !! l) ∧
    g' = set_objects (objects g') g.
Proof.
  intros [[(o & Ho & Hp) (op & Hop & Hr) Hne] Hent] (o' & Ho' & [w Hold]) Hreg Hinh.
  rewrite Ho in Ho'. injection Ho' as <-.
  destruct (Hent o old_name w Ho Hold) as (e & eo & -> & HeR & He & [val Hval]).
  pose proof (not_registered g o name Ho Hreg) as Hnew.
  destruct (not_inherited g op name Hop Hinh) as [Hnew_op Hnew_proto].
  assert (Hdiff : name ≠ old_name) by congruence.
  set (o2 := renamed_registry o old_name name e).
  set (s2 := renamed_store g o old_name name e).
  set (g' := set_objects s2 g).
  assert (Hs2R : objects g' !! global_inputs g' = Some o2)
    by (unfold g', s2, renamed_store; simpl; by rewrite lookup_insert_eq).
  assert (Hs2 : ∀ l, l ≠ global_inputs g -> objects g' !! l = objects g !! l).
  { intros l Hl. unfold g', s2, renamed_store. simpl. by rewrite lookup_insert_ne. }
  assert (Ho2new : JS.props o2 !! name = Some (JS.Obj e)).
  { unfold o2, renamed_registry. simpl.
    by rewrite lookup_delete_ne, lookup_insert_eq. }
  assert (Ho2old : JS.props o2 !! old_name = None).
  { unfold o2, renamed_registry. simpl. by rewrite lookup_delete_eq. }
  assert (Ho2other : ∀ k, k ≠ name -> k ≠ old_name ->
                          JS.props o2 !! k = JS.props o !! k).
  { intros k H1 H2. unfold o2, renamed_registry. simpl.
    by rewrite lookup_delete_ne, lookup_insert_ne. }
  assert (Hop' : objects g' !! JS.Object_prototype = Some op).
  { rewrite Hs2; [done|]. by apply not_eq_sym. }
  assert (He' : objects g' !! e = Some eo) by (by rewrite Hs2).
  exists g', e, eo. split_and!.
  - by apply renameGlobalInput_store with (op := op).
  - split; [by exists o|done].
  - split; [by exists o2|done].
  - destruct (read_entry g' o2 name e eo val Hs2R Ho2new He' Hval) as [_ ->].
    by destruct (read_entry g o old_name e eo val Ho Hold He Hval) as [_ ->].
  - intros Hinh_old.
    destruct (not_inherited g op old_name Hop Hinh_old) as [Hold_op Hold_proto].
    by apply (read_missing g' o2 op).
  - intros other H1 H2.
    rewrite (global_input_plain g' o2 op), (global_input_plain g o op); try done.
    by rewrite Ho2other.
  - done.
  - done.
Qed.

Lemma renameGlobalInput_moves_witness :
  ∃ g' e eo,
    renameGlobalInput globals_graph "speed" "velocity" = Return VUndefined g' ∧
    entry_at globals_graph "speed" e eo ∧ entry_at g' "velocity" e eo ∧
    getGlobalInputData g' "velocity" = getGlobalInputData globals_graph "speed" ∧
    (¬ inherited globals_graph "speed" ->
       getGlobalInputData g' "speed" = JS.Prim VNull) ∧
    (∀ other, other ≠ "velocity" -> other ≠ "speed" ->
       global_input g' other = global_input globals_graph other) ∧
    (∀ l, l ≠ global_inputs globals_graph ->
       objects g' !! l = objects globals_graph !! l) ∧
    g' = set_objects (objects g') globals_graph.
Proof.
  apply renameGlobalInput_moves.
  - apply registry_wf_b_sound. vm_compute. reflexivity.
  - eexists. split; [vm_compute; reflexivity|]. vm_compute. by eexists.
  - intros (o & Ho & Hsome). vm_compute in Ho. injection Ho as <-.
    vm_compute in Hsome. by destruct Hsome.
  - intros [Heq | (op & Hop & Hsome)]; [done|].
    vm_compute in Hop. injection Hop as <-. vm_compute in Hsome. by destruct Hsome.
Defined.

(** In a plain registry, renaming to a different name is refused with
    [false], and changes nothing, when the old name is neither registered
    nor inherited, and when the new name holds an object. *)
Theorem renameGlobalInput_refused (g : LGraph) (old_name name : string) :
  registry_plain g -> name ≠ old_name ->
  (¬ registered g old_name ∧ ¬ inherited g old_name) ∨
  (∃ e eo, entry_at g name e eo) ->
  renameGlobalInput g old_name name = Return (VBool false) g.
Proof.
  intros [(o & Ho & Hp) (op & Hop & Hr) Hne] Hdiff Hcase.
  unfold renameGlobalInput.
  destruct (String.eqb_spec name old_name); [done|].
  destruct Hcase as [[Hreg Hinh] | (e & eo & (o' & Ho' & Hname) & _)].
  - pose proof (not_registered g o old_name Ho Hreg) as Hold.
    destruct (not_inherited g op old_name Hop Hinh) as [Hold_op Hold_proto].
    by destruct (read_missing g o op Ho Hp Hop Hr Hne old_name Hold Hold_op Hold_proto)
      as [-> _].
  - destruct (negb (JS.truthy (global_input g old_name))); [done|].
    by rewrite (global_input_own g o' name _ Ho' Hname).
Qed.

Lemma renameGlobalInput_refused_witness :
  renameGlobalInput globals_graph "speed" "gain" = Return (VBool false) globals_graph.
Proof.
  apply renameGlobalInput_refused; [|done|].
  - apply registry_plain_b_sound. vm_compute. reflexivity.
  - right. eexists _, _. split; [eexists; split|]; vm_compute; reflexivity.
Defined.



(** ** Removing *)

(** In a plain registry, for a name that is not inherited:
    [removeGlobalInput] of a name that is not registered returns [false] and
    changes nothing; of a name that holds an object it returns [true], after
    which the name reads as null, a second removal returns [false] and
    changes nothing, the lookup of every other name is as before, and
    nothing has changed but the registry object. *)
Theorem removeGlobalInput_gone (g : LGraph) (name : string) :
  registry_plain g -> ¬ inherited g name ->
  (¬ registered g name -> removeGlobalInput g name = Return (VBool false) g) ∧
  (∀ e eo, entry_at g name e eo ->
     ∃ g', removeGlobalInput g name = Return (VBool true) g' ∧
           getGlobalInputData g' name = JS.Prim VNull ∧
           removeGlobalInput g' name = Return (VBool false) g' ∧
           (∀ other, other ≠ name -> global_input g' other = global_input g other) ∧
           (∀ l, l ≠ global_inputs g -> objects g' !! l = objects g !! l)).
Proof.
  intros [(o & Ho & Hp) (op & Hop & Hr) Hne] Hinh.
  destruct (not_inherited g op name Hop Hinh) as [Hname_op Hname_proto].
  split.
  - intros Hreg. pose proof (not_registered g o name Ho Hreg) as Hname.
    unfold removeGlobalInput.
    by destruct (read_missing g o op Ho Hp Hop Hr Hne name Hname Hname_op Hname_proto)
      as [-> _].
  - intros e eo [(o' & Ho' & Hname) _].
    rewrite Ho in Ho'. injection Ho' as <-.
    set (o2 := JS.mkObject (delete name (JS.props o)) (JS.proto o)).
    set (g' := set_objects (<[global_inputs g := o2]> (objects g)) g).
    assert (Hg'R : objects g' !! global_inputs g' = Some o2)
      by (unfold g'; simpl; by rewrite lookup_insert_eq).
    assert (Hg' : ∀ l, l ≠ global_inputs g -> objects g' !! l = objects g !! l).
    { intros l Hl. unfold g'. simpl. by rewrite lookup_insert_ne. }
    assert (Hop' : objects g' !! JS.Object_prototype = Some op).
    { rewrite Hg'; [done|]. by apply not_eq_sym. }
    assert (Hgone : JS.props o2 !! name = None)
      by (unfold o2; simpl; by rewrite lookup_delete_eq).
    destruct (read_missing g' o2 op Hg'R Hp Hop' Hr Hne name Hgone Hname_op Hname_proto)
      as [Hin' Hget'].
    exists g'. split_and!; [|done| | |done].
    + unfold removeGlobalInput.
      rewrite (global_input_own g o name _ Ho Hname). cbn [JS.truthy negb].
      unfold JS.delete. by rewrite Ho.
    + unfold removeGlobalInput. by rewrite Hin'.
    + intros other Hother.
      rewrite (global_input_plain g' o2 op), (global_input_plain g o op); try done.
      unfold o2. simpl. by rewrite lookup_delete_ne.
Qed.

Lemma removeGlobalInput_gone_witness :
  (¬ registered globals_graph "speed" ->
     removeGlobalInput globals_graph "speed" = Return (VBool false) globals_graph) ∧
  (∀ e eo, entry_at globals_graph "speed" e eo ->
     ∃ g', removeGlobalInput globals_graph "speed" = Return (VBool true) g' ∧
           getGlobalInputData g' "speed" = JS.Prim VNull ∧
           removeGlobalInput g' "speed" = Return (VBool false) g' ∧
           (∀ other, other ≠ "speed" ->
              global_input g' other = global_input globals_graph other) ∧
           (∀ l, l ≠ global_inputs globals_graph ->
              objects g' !! l = objects globals_graph !! l)).
Proof.
  apply removeGlobalInput_gone.
  - apply registry_plain_b_sound. vm_compute. reflexivity.
  - intros [Heq | (op & Hop & Hsome)]; [done|].
    vm_compute in Hop. injection Hop as <-. vm_compute in Hsome. by destruct Hsome.
Defined.

(** ** The inherited names

    What the registry does under names that it inherits, on the graph with
    the inputs "speed" and "gain": a renaming to [constructor] is refused as
    if the name were taken; a renaming from [constructor] goes through and
    leaves the inherited function under the new name; [removeGlobalInput] of
    [constructor] returns [true] each time; an input added as [__proto__]
    becomes the prototype of the registry, after which the names [type] and
    [value] no longer read as null. *)
Example global_inputs_inherited_names :
  renameGlobalInput globals_graph "speed" "constructor"
  = Return (VBool false) globals_graph ∧
  match renameGlobalInput globals_graph "constructor" "made" with
  | Return v g' => Some (v, global_input g' "made", global_input g' "constructor")
  | _ => None
  end = Some (VUndefined, JS.Obj JS.first_function, JS.Obj JS.first_function) ∧
  match removeGlobalInput globals_graph "constructor" with
  | Return v g' =>
      match removeGlobalInput g' "constructor" with
      | Return v' _ => Some (v, v', getGlobalInputData g' "constructor")
      | _ => None
      end
  | _ => None
  end = Some (VBool true, VBool true, JS.Prim VUndefined) ∧
  match addGlobalInput globals_graph "__proto__" "number" (VNum 3) with
  | Return _ g' => Some (getGlobalInputData g' "type", getGlobalInputData g' "value",
                         getGlobalInputData globals_graph "type")
  | _ => None
  end = Some (JS.Prim VUndefined, JS.Prim VUndefined, JS.Prim VNull).
Proof. vm_compute. done. Qed.

(** * More on the composer *)

(** The code of a connected input takes precedence: when the three inputs
    have code, the fallback factory plays no part in [processInputCode]. *)
Theorem processInputCode_ignores_fallback
    (C : CodePieceScopes) (EMPTY_CODE : ShaderCode)
    (merge : ShaderCode -> ShaderCode -> ShaderCode)
    (getInputCode onGetNullCode onGetNullCode' : LGraph3ParamNode.t -> nat -> option ShaderCode)
    (this : LGraph3ParamNode.t) :
  (∀ slot, slot < 3 -> is_Some (getInputCode this slot)) ->
  LGraph3ParamNode.processInputCode C EMPTY_CODE merge getInputCode onGetNullCode this
  = LGraph3ParamNode.processInputCode C EMPTY_CODE merge getInputCode onGetNullCode' this.
Proof.
  intros Hin. unfold LGraph3ParamNode.processInputCode, LGraph3ParamNode.input_code.
  destruct (Hin 0) as [a ->]; [lia|].
  destruct (Hin 1) as [b ->]; [lia|].
  destruct (Hin 2) as [c ->]; [lia|]. done.
Qed.

Lemma processInputCode_ignores_fallback_witness :
  LGraph3ParamNode.processInputCode example_scopes example_empty_code example_merge
    inputs_A_B_C no_fallback mix_node_after_run
  = LGraph3ParamNode.processInputCode example_scopes example_empty_code example_merge
      inputs_A_B_C inputs_A_B_only mix_node_after_run.
Proof.
  apply processInputCode_ignores_fallback.
  intros [|[|[|slot]]] Hslot; try (by eexists). lia.
Defined.
